(** * The animation controller of script.js (class NASA_AnimationController)

    A shallow embedding of the tween registry, the frame function [animate],
    [updateAnimations], [executeAnimationCallbacks] and the per-frame callback
    handles, followed by the properties of the engine.

    Numbers.  JavaScript numbers are modelled as exact rationals [Q]; a
    value that can also be NaN has type [option Q], with [None] for NaN.
    The one division of the engine, [currentTime / duration], is modelled
    together with its clamp, so that a zero [duration] gives what JavaScript
    gives: 1, 0, or NaN.

    Callbacks.  A user callback is modelled by what the engine can observe of
    it: whether the call returns or throws.  Callbacks are observers: they do
    not call back into the controller and do not mutate the tween they are
    handed.  Every invocation is recorded in a ghost [trace].

    Scheduling.  [requestAnimationFrame] is the environment: it decides when
    [animate] runs and with which timestamp.  The DOM writes of
    [updatePhysics] touch no field of the controller and are left out. *)

From Stdlib Require Import QArith Qminmax ZArith String List Bool Lia Lqa.
From Stdlib Require Import Sorted Permutation Ascii Qround.
Import ListNotations.
Local Open Scope Q_scope.

(** ** Outcomes of calls *)

(** What a call to a user function does, as far as the engine can tell. *)
Inductive outcome : Type := Returns | Throws.

(** A statement block either runs to its end or is left by an exception;
    both carry the state reached, since the writes made before a throw stay. *)
Inductive completion (A : Type) : Type :=
| Normal (a : A)
| Abrupt (a : A).
Arguments Normal {A} a.
Arguments Abrupt {A} a.

Definition state_of {A : Type} (r : completion A) : A :=
  match r with Normal a => a | Abrupt a => a end.

Definition is_normal {A : Type} (r : completion A) : bool :=
  match r with Normal _ => true | Abrupt _ => false end.

(** ** Values *)

(** The [from] and [to] of a tween: a number, an array of numbers, or any
    other value (undefined, a string, an object...). *)
Inductive endpoint : Type :=
| Num (q : Q)
| Arr (l : list Q)
| Other.

(** A number or NaN. *)
Definition num : Type := option Q.

(** [currentValue]: never assigned, a number, or an array of numbers. *)
Inductive curval : Type :=
| Unassigned
| CNum (q : num)
| CArr (l : list num).

Definition Qlt_bool (x y : Q) : bool := negb (Qle_bool y x).

(** ** Events of the ghost trace (most recent first) *)
Inductive event : Type :=
| EvStart (key : string)
| EvUpdate (key : string) (value : curval) (easedProgress : num)
| EvComplete (key : string)
| EvFrame (id : nat) (deltaTime timestamp : Q).

Definition trace := list event.

(** ** Tweens *)
Record tween : Type := mkTween {
  from : endpoint;
  to : endpoint;
  duration : Q;
  currentTime : Q;
  progress : num;
  isPlaying : bool;
  isComplete : bool;
  reverse : bool;
  yoyo : bool;
  repeat : Z;
  repeatCount : Z;
  currentValue : curval;
  onUpdate : curval -> num -> outcome;
  onComplete : outcome;
  onStart : outcome;
  easing : Q -> Q
}.

(** The [config] argument of [createAnimation]; an absent option is [None]. *)
Record config : Type := mkConfig {
  cfg_from : endpoint;
  cfg_to : endpoint;
  cfg_duration : Q;
  cfg_easing : option string;
  cfg_onUpdate : option (curval -> num -> outcome);
  cfg_onComplete : option outcome;
  cfg_onStart : option outcome;
  cfg_yoyo : option bool;
  cfg_repeat : option Z
}.

(** ** The registry: a JavaScript [Map] from keys to tweens

    A [Map] iterates in insertion order, and [set] on a key already present
    replaces the value where the key stands. *)
Definition registry := list (string * tween).

Fixpoint map_get (key : string) (m : registry) : option tween :=
  match m with
  | [] => None
  | (k, a) :: rest => if String.eqb k key then Some a else map_get key rest
  end.

Fixpoint map_set (key : string) (a : tween) (m : registry) : registry :=
  match m with
  | [] => [(key, a)]
  | (k, b) :: rest =>
      if String.eqb k key then (k, a) :: rest else (k, b) :: map_set key a rest
  end.

(** ** Per-frame callbacks *)

(** A function registered with [addAnimationCallback]: [cb_id] tells the
    function objects apart, [cb_run deltaTime timestamp] is what a call does. *)
Record frame_cb : Type := mkCb {
  cb_id : nat;
  cb_run : Q -> Q -> outcome
}.

(** [Array.prototype.splice(start, 1)]: a negative [start] counts from the
    end, a [start] past the end removes nothing. *)
Definition splice1 {A : Type} (start : Z) (l : list A) : list A :=
  let len := Z.of_nat (List.length l) in
  let actualStart :=
    if (start <? 0)%Z then Z.max (len + start) 0 else Z.min start len in
  firstn (Z.to_nat actualStart) l ++ skipn (S (Z.to_nat actualStart)) l.

(** ** The controller *)
Record controller : Type := mkController {
  animations : registry;
  timeScale : Q;
  isPaused : bool;
  lastTimestamp : Q;
  deltaTime : Q;
  maxDelta : Q;
  animationCallbacks : list frame_cb;
  physicsEnabled : bool;
  log : trace
}.

(** [constructor()] *)
Definition new_controller : controller :=
  {| animations := [];
     timeScale := 1.0;
     isPaused := false;
     lastTimestamp := 0;
     deltaTime := 0;
     maxDelta := 0.1;
     animationCallbacks := [];
     physicsEnabled := true;
     log := [] |}.

Definition set_animations (m : registry) (c : controller) : controller :=
  {| animations := m; timeScale := timeScale c; isPaused := isPaused c;
     lastTimestamp := lastTimestamp c; deltaTime := deltaTime c;
     maxDelta := maxDelta c; animationCallbacks := animationCallbacks c;
     physicsEnabled := physicsEnabled c; log := log c |}.

Definition set_log (tr : trace) (c : controller) : controller :=
  {| animations := animations c; timeScale := timeScale c;
     isPaused := isPaused c; lastTimestamp := lastTimestamp c;
     deltaTime := deltaTime c; maxDelta := maxDelta c;
     animationCallbacks := animationCallbacks c;
     physicsEnabled := physicsEnabled c; log := tr |}.

Definition set_isPaused (b : bool) (c : controller) : controller :=
  {| animations := animations c; timeScale := timeScale c; isPaused := b;
     lastTimestamp := lastTimestamp c; deltaTime := deltaTime c;
     maxDelta := maxDelta c; animationCallbacks := animationCallbacks c;
     physicsEnabled := physicsEnabled c; log := log c |}.

Definition set_lastTimestamp (t : Q) (c : controller) : controller :=
  {| animations := animations c; timeScale := timeScale c;
     isPaused := isPaused c; lastTimestamp := t; deltaTime := deltaTime c;
     maxDelta := maxDelta c; animationCallbacks := animationCallbacks c;
     physicsEnabled := physicsEnabled c; log := log c |}.

Definition set_deltaTime (d : Q) (c : controller) : controller :=
  {| animations := animations c; timeScale := timeScale c;
     isPaused := isPaused c; lastTimestamp := lastTimestamp c; deltaTime := d;
     maxDelta := maxDelta c; animationCallbacks := animationCallbacks c;
     physicsEnabled := physicsEnabled c; log := log c |}.

Definition set_animationCallbacks (l : list frame_cb) (c : controller)
  : controller :=
  {| animations := animations c; timeScale := timeScale c;
     isPaused := isPaused c; lastTimestamp := lastTimestamp c;
     deltaTime := deltaTime c; maxDelta := maxDelta c;
     animationCallbacks := l; physicsEnabled := physicsEnabled c;
     log := log c |}.

(** ** Easing functions: the polynomial curves of [getEasingFunction] *)

Definition easeInOutQuad (t : Q) : Q :=
  if Qlt_bool t 0.5 then 2 * t * t else 1 - (-2 * t + 2) ^ 2 / 2.

Definition easeInOutCubic (t : Q) : Q :=
  if Qlt_bool t 0.5 then 4 * t * t * t else 1 - (-2 * t + 2) ^ 3 / 2.

Definition easeOutBounce (t : Q) : Q :=
  let n1 := 7.5625 in
  let d1 := 2.75 in
  if Qlt_bool t (1 / d1) then n1 * t * t
  else if Qlt_bool t (2 / d1) then
    let t := t - 1.5 / d1 in n1 * t * t + 0.75
  else if Qlt_bool t (2.5 / d1) then
    let t := t - 2.25 / d1 in n1 * t * t + 0.9375
  else
    let t := t - 2.625 / d1 in n1 * t * t + 0.984375.

Definition easeLaunch (t : Q) : Q := 1 - (1 - t) ^ 3.

Definition easeOrbit (t : Q) : Q :=
  if Qlt_bool t 0.5 then 2 * t * t else 1 - (-2 * t + 2) ^ 2 / 2.

(** ** Field updates of a tween (the object is mutated in place) *)

Definition set_currentTime (x : Q) (a : tween) : tween :=
  mkTween (from a) (to a) (duration a) x (progress a) (isPlaying a)
    (isComplete a) (reverse a) (yoyo a) (repeat a) (repeatCount a)
    (currentValue a) (onUpdate a) (onComplete a) (onStart a) (easing a).

Definition set_progress (x : num) (a : tween) : tween :=
  mkTween (from a) (to a) (duration a) (currentTime a) x (isPlaying a)
    (isComplete a) (reverse a) (yoyo a) (repeat a) (repeatCount a)
    (currentValue a) (onUpdate a) (onComplete a) (onStart a) (easing a).

Definition set_isPlaying (b : bool) (a : tween) : tween :=
  mkTween (from a) (to a) (duration a) (currentTime a) (progress a) b
    (isComplete a) (reverse a) (yoyo a) (repeat a) (repeatCount a)
    (currentValue a) (onUpdate a) (onComplete a) (onStart a) (easing a).

Definition set_isComplete (b : bool) (a : tween) : tween :=
  mkTween (from a) (to a) (duration a) (currentTime a) (progress a)
    (isPlaying a) b (reverse a) (yoyo a) (repeat a) (repeatCount a)
    (currentValue a) (onUpdate a) (onComplete a) (onStart a) (easing a).

Definition set_reverse (b : bool) (a : tween) : tween :=
  mkTween (from a) (to a) (duration a) (currentTime a) (progress a)
    (isPlaying a) (isComplete a) b (yoyo a) (repeat a) (repeatCount a)
    (currentValue a) (onUpdate a) (onComplete a) (onStart a) (easing a).

Definition set_repeatCount (n : Z) (a : tween) : tween :=
  mkTween (from a) (to a) (duration a) (currentTime a) (progress a)
    (isPlaying a) (isComplete a) (reverse a) (yoyo a) (repeat a) n
    (currentValue a) (onUpdate a) (onComplete a) (onStart a) (easing a).

Definition set_currentValue (v : curval) (a : tween) : tween :=
  mkTween (from a) (to a) (duration a) (currentTime a) (progress a)
    (isPlaying a) (isComplete a) (reverse a) (yoyo a) (repeat a)
    (repeatCount a) v (onUpdate a) (onComplete a) (onStart a) (easing a).

(** [a || b] on an optional config entry. *)
Definition or_default {A : Type} (o : option A) (d : A) : A :=
  match o with Some x => x | None => d end.

(** [Math.max(0, Math.min(1, currentTime / duration))].  For a zero
    [duration] the quotient is +Infinity, -Infinity or NaN (0/0), and the
    clamp turns these into 1, 0 and NaN. *)
Definition clamped_ratio (currentTime duration : Q) : num :=
  if Qeq_bool duration 0 then
    if Qeq_bool currentTime 0 then None
    else if Qle_bool 0 currentTime then Some 1 else Some 0
  else Some (Qmax 0 (Qmin 1 (currentTime / duration))).

(** [fromVal + (toVal - fromVal) * easedProgress]; NaN when [toVal] is
    undefined or [easedProgress] is NaN. *)
Definition lerp (fromVal : Q) (toVal : option Q) (easedProgress : num) : num :=
  match toVal, easedProgress with
  | Some y, Some e => Some (fromVal + (y - fromVal) * e)
  | _, _ => None
  end.

(** The value written to [currentValue] by the two typed branches of
    [updateAnimations]; [None] when neither branch applies.  In the array
    branch [to[i]] is undefined past the end of [to]. *)
Definition interpolate (f t : endpoint) (easedProgress : num)
  : option curval :=
  match f, t with
  | Num x, Num y => Some (CNum (lerp x (Some y) easedProgress))
  | Arr xs, Arr ys =>
      Some (CArr (map (fun p : nat * Q =>
                         lerp (snd p) (nth_error ys (fst p)) easedProgress)
                      (combine (seq 0 (List.length xs)) xs)))
  | _, _ => None
  end.

(** [progress >= 1] and [progress <= 0]; a comparison with NaN is false. *)
Definition at_least_one (p : num) : bool :=
  match p with Some x => Qle_bool 1 x | None => false end.

Definition at_most_zero (p : num) : bool :=
  match p with Some x => Qle_bool x 0 | None => false end.

(** * The product manager of script.js (class NASA_ProductManager)

    Prices and quantities are integers.  The writes to IndexedDB and
    localStorage ([saveCart], [saveFavorites]) touch no field of the manager
    and are left out; observers are modelled like the callbacks of the
    animation controller, by whether a call returns or throws. *)
Module ProductManager.

(** The fields of a product that the functions below read. *)
Record product : Type := mkProduct {
  id : string;
  name : string;
  price : Z;
  category : string;
  mission : string;
  featured : bool;
  image : string;
  sku : string
}.

(** A line of the cart; [size] is null ([None]) or a string. *)
Record item : Type := mkItem {
  item_id : string;
  item_name : string;
  item_price : Z;
  quantity : Z;
  size : option string;
  item_image : string;
  item_sku : string
}.

(** An observer: [obs_id] is the identity of the function object, [obs_run]
    what a call with an event name does. *)
Record observer : Type := mkObserver {
  obs_id : nat;
  obs_run : string -> outcome
}.

Record manager : Type := mkManager {
  products : list product;
  filteredProducts : list product;
  currentFilter : string;
  productsPerPage : Z;
  currentPage : Z;
  sortBy : string;
  cart : list item;
  favorites : list string;
  productObservers : list observer;
  notified : list (nat * string)
}.

Definition set_cart (l : list item) (m : manager) : manager :=
  mkManager (products m) (filteredProducts m) (currentFilter m)
    (productsPerPage m) (currentPage m) (sortBy m) l (favorites m)
    (productObservers m) (notified m).

Definition set_filteredProducts (l : list product) (m : manager) : manager :=
  mkManager (products m) l (currentFilter m) (productsPerPage m)
    (currentPage m) (sortBy m) (cart m) (favorites m) (productObservers m)
    (notified m).

Definition set_currentFilter (f : string) (m : manager) : manager :=
  mkManager (products m) (filteredProducts m) f (productsPerPage m)
    (currentPage m) (sortBy m) (cart m) (favorites m) (productObservers m)
    (notified m).

Definition set_currentPage (p : Z) (m : manager) : manager :=
  mkManager (products m) (filteredProducts m) (currentFilter m)
    (productsPerPage m) p (sortBy m) (cart m) (favorites m)
    (productObservers m) (notified m).

Definition set_sortBy (f : string) (m : manager) : manager :=
  mkManager (products m) (filteredProducts m) (currentFilter m)
    (productsPerPage m) (currentPage m) f (cart m) (favorites m)
    (productObservers m) (notified m).

Definition set_favorites (l : list string) (m : manager) : manager :=
  mkManager (products m) (filteredProducts m) (currentFilter m)
    (productsPerPage m) (currentPage m) (sortBy m) (cart m) l
    (productObservers m) (notified m).

Definition set_productObservers (l : list observer) (m : manager) : manager :=
  mkManager (products m) (filteredProducts m) (currentFilter m)
    (productsPerPage m) (currentPage m) (sortBy m) (cart m) (favorites m) l
    (notified m).

Definition set_notified (l : list (nat * string)) (m : manager) : manager :=
  mkManager (products m) (filteredProducts m) (currentFilter m)
    (productsPerPage m) (currentPage m) (sortBy m) (cart m) (favorites m)
    (productObservers m) l.

(** The manager the constructor builds over a product list. *)
Definition new_manager (ps : list product) : manager :=
  {| products := ps; filteredProducts := ps; currentFilter := "all";
     productsPerPage := 12; currentPage := 1; sortBy := "featured";
     cart := []; favorites := []; productObservers := []; notified := [] |}.

(** [size === size] on null-or-string values. *)
Definition size_eqb (a b : option string) : bool :=
  match a, b with
  | None, None => true
  | Some x, Some y => String.eqb x y
  | _, _ => false
  end.

(** [notifyObservers(event)]: every observer is called, in order, inside a
    try/catch of its own; the trace records the calls, most recent first.
    An observer is taken not to call back into the manager. *)
Fixpoint notify_all (event : string) (obs : list observer)
  (tr : list (nat * string)) : list (nat * string) :=
  match obs with
  | [] => tr
  | o :: rest =>
      match obs_run o event with
      | Returns => notify_all event rest ((obs_id o, event) :: tr)
      | Throws => notify_all event rest ((obs_id o, event) :: tr)
      end
  end.

Definition notifyObservers (event : string) (m : manager) : manager :=
  set_notified (notify_all event (productObservers m) (notified m)) m.

(** [subscribe(observer)]: push; the function returned is [unsubscribe]. *)
Definition subscribe (o : observer) (m : manager) : manager :=
  set_productObservers (productObservers m ++ [o]) m.

(** [indexOf(observer)] followed by [splice(index, 1)] when found. *)
Fixpoint remove_first_observer (o : observer) (l : list observer)
  : list observer :=
  match l with
  | [] => []
  | x :: rest =>
      if Nat.eqb (obs_id x) (obs_id o) then rest
      else x :: remove_first_observer o rest
  end.

Definition unsubscribe (o : observer) (m : manager) : manager :=
  set_productObservers (remove_first_observer o (productObservers m)) m.

(** [getProductById(id)]: the first product with that id. *)
Definition getProductById (pid : string) (m : manager) : option product :=
  find (fun p => String.eqb (id p) pid) (products m).

Definition same_line (pid : string) (sz : option string) (i : item) : bool :=
  String.eqb (item_id i) pid && size_eqb (size i) sz.

(** [existingItem.quantity += quantity] on the first line found. *)
Fixpoint add_quantity (pid : string) (sz : option string) (q : Z)
  (l : list item) : list item :=
  match l with
  | [] => []
  | i :: rest =>
      if same_line pid sz i
      then mkItem (item_id i) (item_name i) (item_price i) (quantity i + q)
             (size i) (item_image i) (item_sku i) :: rest
      else i :: add_quantity pid sz q rest
  end.

(** [addToCart(productId, quantity, size)]; the defaults of the source are
    [quantity = 1] and [size = null]. *)
Definition addToCart (pid : string) (q : Z) (sz : option string)
  (m : manager) : manager * bool :=
  match getProductById pid m with
  | None => (m, false)
  | Some p =>
      let m :=
        match find (same_line pid sz) (cart m) with
        | Some _ => set_cart (add_quantity pid sz q (cart m)) m
        | None =>
            set_cart
              (cart m
               ++ [ {| item_id := pid; item_name := name p;
                       item_price := price p; quantity := q; size := sz;
                       item_image := image p; item_sku := sku p |} ]) m
        end in
      (notifyObservers "cart-updated" m, true)
  end.

(** [findIndex] followed by [splice(index, 1)]. *)
Fixpoint remove_line (pid : string) (sz : option string) (l : list item)
  : list item :=
  match l with
  | [] => []
  | i :: rest =>
      if same_line pid sz i then rest else i :: remove_line pid sz rest
  end.

(** [removeFromCart(productId, size)] *)
Definition removeFromCart (pid : string) (sz : option string) (m : manager)
  : manager * bool :=
  match find (same_line pid sz) (cart m) with
  | Some _ =>
      (notifyObservers "cart-updated"
         (set_cart (remove_line pid sz (cart m)) m), true)
  | None => (m, false)
  end.

(** [item.quantity = Math.max(0, quantity)] on the first line found. *)
Fixpoint set_quantity (pid : string) (sz : option string) (q : Z)
  (l : list item) : list item :=
  match l with
  | [] => []
  | i :: rest =>
      if same_line pid sz i
      then mkItem (item_id i) (item_name i) (item_price i) q (size i)
             (item_image i) (item_sku i) :: rest
      else i :: set_quantity pid sz q rest
  end.

(** [updateCartQuantity(productId, quantity, size)] *)
Definition updateCartQuantity (pid : string) (q : Z) (sz : option string)
  (m : manager) : manager * bool :=
  match find (same_line pid sz) (cart m) with
  | Some _ =>
      let m := set_cart (set_quantity pid sz (Z.max 0 q) (cart m)) m in
      if (Z.max 0 q =? 0)%Z
      then (fst (removeFromCart pid sz m), true)
      else (notifyObservers "cart-updated" m, true)
  | None => (m, false)
  end.

(** Numbers are binary64.  A sum or product of integers is computed exactly
    as long as the operands and the result have a magnitude of at most 2^53;
    outside that range the code rounds, and the model of the two sums below
    gives no value ([None]). *)
Definition MAX_SAFE : Z := 2 ^ 53.

Definition exact (z : Z) : option Z :=
  if ((- MAX_SAFE <=? z) && (z <=? MAX_SAFE))%Z then Some z else None.

Definition exact_add (a b : option Z) : option Z :=
  match a, b with
  | Some x, Some y => exact (x + y)
  | _, _ => None
  end.

Definition exact_mul (a b : option Z) : option Z :=
  match a, b with
  | Some x, Some y => exact (x * y)
  | _, _ => None
  end.

(** [calculateCartTotal()] and [getCartCount()]: [reduce] from 0. *)
Definition calculateCartTotal (m : manager) : option Z :=
  fold_left
    (fun total i =>
       exact_add total (exact_mul (exact (item_price i)) (exact (quantity i))))
    (cart m) (Some 0%Z).

Definition getCartCount (m : manager) : option Z :=
  fold_left (fun count i => exact_add count (exact (quantity i)))
    (cart m) (Some 0%Z).

(** The same sums over the integers, to compare the two functions with. *)
Definition amount (l : list item) : Z :=
  fold_left (fun total i => (total + item_price i * quantity i)%Z) l 0%Z.

Definition pieces (l : list item) : Z :=
  fold_left (fun count i => (count + quantity i)%Z) l 0%Z.

(** [toggleFavorite(productId)] on a [Set], kept as the list of its elements
    in insertion order. *)
Definition set_has (x : string) (l : list string) : bool :=
  existsb (String.eqb x) l.

Definition set_delete (x : string) (l : list string) : list string :=
  filter (fun y => negb (String.eqb x y)) l.

Definition set_add (x : string) (l : list string) : list string :=
  if set_has x l then l else l ++ [x].

Definition toggleFavorite (pid : string) (m : manager) : manager :=
  let m :=
    if set_has pid (favorites m)
    then set_favorites (set_delete pid (favorites m)) m
    else set_favorites (set_add pid (favorites m)) m in
  notifyObservers "favorites-updated" m.

(** [Array.prototype.slice(start, end)] *)
Definition slice {A : Type} (start stop : Z) (l : list A) : list A :=
  let len := Z.of_nat (List.length l) in
  let k := if (start <? 0)%Z then Z.max (len + start) 0 else Z.min start len in
  let final := if (stop <? 0)%Z then Z.max (len + stop) 0 else Z.min stop len in
  firstn (Z.to_nat (final - k)) (skipn (Z.to_nat k) l).

(** [getPagedProducts(page)] for an integer [page] *)
Definition getPagedProducts (page : Z) (m : manager)
  : manager * list product :=
  let start := ((page - 1) * productsPerPage m)%Z in
  let stop := (start + productsPerPage m)%Z in
  (set_currentPage page m, slice start stop (filteredProducts m)).

(** [getTotalPages()]: [Math.ceil(length / productsPerPage)], for a positive
    [productsPerPage]. *)
Definition getTotalPages (m : manager) : Z :=
  (- ((- Z.of_nat (List.length (filteredProducts m))) / productsPerPage m))%Z.

(** [Array.prototype.sort(compare)]: the sort is stable, and with a consistent
    comparator its result is the one a stable insertion gives. *)
Fixpoint insert_sorted {A : Type} (compare : A -> A -> Z) (x : A)
  (l : list A) : list A :=
  match l with
  | [] => [x]
  | y :: rest =>
      if (compare x y <=? 0)%Z then x :: y :: rest
      else y :: insert_sorted compare x rest
  end.

Fixpoint stable_sort {A : Type} (compare : A -> A -> Z) (l : list A)
  : list A :=
  match l with
  | [] => []
  | x :: rest => insert_sorted compare x (stable_sort compare rest)
  end.

Section WithLocale.

(** [a.localeCompare(b)], which depends on the locale of the browser. *)
Variable localeCompare : string -> string -> Z.

(** The comparator of [sortProducts(sortBy)]. *)
Definition comparator (by_ : string) (a b : product) : Z :=
  if String.eqb by_ "price-low" then (price a - price b)%Z
  else if String.eqb by_ "price-high" then (price b - price a)%Z
  else if String.eqb by_ "featured" then
    ((if featured b then 1 else 0) - (if featured a then 1 else 0))%Z
  else if String.eqb by_ "newest" then localeCompare (id b) (id a)
  else 0%Z.

(** [sortProducts(sortBy)] *)
Definition sortProducts (by_ : string) (m : manager) : manager :=
  let m := set_sortBy by_ m in
  let m :=
    set_filteredProducts
      (stable_sort (comparator by_) (filteredProducts m)) m in
  notifyObservers "products-sorted" m.

(** [!mission] for null or a string *)
Definition no_mission (mi : option string) : bool :=
  match mi with
  | None => true
  | Some s => String.eqb s EmptyString
  end.

(** [filterProducts(filter, mission)] *)
Definition filterProducts (filter_ : string) (mi : option string)
  (m : manager) : manager :=
  let m := set_currentFilter filter_ m in
  let m :=
    if String.eqb filter_ "all" && no_mission mi
    then set_filteredProducts (products m) m
    else
      set_filteredProducts
        (filter
           (fun p =>
              (String.eqb filter_ "all" || String.eqb (category p) filter_)
              && (no_mission mi
                  || match mi with
                     | Some s => String.eqb (mission p) s
                     | None => false
                     end))
           (products m)) m in
  let m := sortProducts (sortBy m) m in
  notifyObservers "products-filtered" m.

End WithLocale.

(** One call on the cart. *)
Inductive cart_call : Type :=
| AddToCart (pid : string) (q : Z) (sz : option string)
| RemoveFromCart (pid : string) (sz : option string)
| UpdateCartQuantity (pid : string) (q : Z) (sz : option string).

Definition cart_exec (x : cart_call) (m : manager) : manager :=
  match x with
  | AddToCart pid q sz => fst (addToCart pid q sz m)
  | RemoveFromCart pid sz => fst (removeFromCart pid sz m)
  | UpdateCartQuantity pid q sz => fst (updateCartQuantity pid q sz m)
  end.

Fixpoint cart_run (xs : list cart_call) (m : manager) : manager :=
  match xs with
  | [] => m
  | x :: rest => cart_run rest (cart_exec x m)
  end.

(** No two lines of the cart have the same product and size. *)
Fixpoint distinct_lines (l : list item) : Prop :=
  match l with
  | [] => True
  | i :: rest =>
      find (same_line (item_id i) (size i)) rest = None
      /\ distinct_lines rest
  end.

(** An addition of at least one piece. *)
Definition adds_pieces (x : cart_call) : Prop :=
  match x with
  | AddToCart _ q _ => (1 <= q)%Z
  | _ => True
  end.

(** The pages 1 to [n]. *)
Definition pages (n : nat) (m : manager) : list (list product) :=
  map (fun p => snd (getPagedProducts (Z.of_nat p) m)) (seq 1 n).

(** The catalogue of [initProducts()]. *)
Definition catalogue : list product :=
  [ {| id := "artemis-telescope-001";
       name := "Artemis Lunar Telescope Pro"; price := 24999;
       category := "telescope"; mission := "artemis"; featured := true;
       image := "https://images.unsplash.com/photo-1462331940025-496dfbfc7564";
       sku := "NASA-ART-001" |};
    {| id := "mars-rover-hoodie";
       name := "Mars Rover Expedition Hoodie"; price := 1899;
       category := "apparel"; mission := "mars"; featured := true;
       image := "https://images.unsplash.com/photo-1556821840-3a63f95609a7";
       sku := "NASA-MAR-002" |};
    {| id := "jpl-star-projector";
       name := "JPL Star Projector Elite"; price := 3599;
       category := "accessories"; mission := "iss"; featured := false;
       image := "https://images.unsplash.com/photo-1534447677768-be436bb09401";
       sku := "NASA-JPL-003" |};
    {| id := "gateway-space-journal";
       name := "Gateway Space Observation Journal"; price := 799;
       category := "accessories"; mission := "gateway"; featured := true;
       image := "https://images.unsplash.com/photo-1585314062340-f1a5a7c9328d";
       sku := "NASA-GTW-004" |};
    {| id := "hubble-imaging-kit";
       name := "Hubble Imaging Adapter Kit"; price := 4999;
       category := "imaging"; mission := "hubble"; featured := false;
       image := "https://images.unsplash.com/photo-1516035069371-29a1b244cc32";
       sku := "NASA-HUB-005" |} ].

(** The store as the constructor leaves it. *)
Definition store : manager := new_manager catalogue.

Definition quiet_observer (n : nat) : observer :=
  {| obs_id := n; obs_run := fun _ => Returns |}.

Definition throwing_observer (n : nat) : observer :=
  {| obs_id := n; obs_run := fun _ => Throws |}.

(** A session at the cart: the same hoodie is added twice in one size and
    once in another, one line is set to 0 pieces and another removed. *)
Definition cart_session : list cart_call :=
  [AddToCart "mars-rover-hoodie" 1 (Some "M");
   AddToCart "mars-rover-hoodie" 2 (Some "M");
   AddToCart "mars-rover-hoodie" 1 (Some "L");
   AddToCart "gateway-space-journal" 3 None;
   UpdateCartQuantity "mars-rover-hoodie" 0 (Some "L");
   RemoveFromCart "gateway-space-journal" None]%string.


End ProductManager.

(** * The mission control of script.js (class NASA_MissionControl)

    The clock ([Date.now], [toISOString]) and [Math.random] are the
    environment: their results are arguments.  Writes to the page are left
    out. *)
Module MissionControl.

(** An entry of the live feed. *)
Record update : Type := mkUpdate {
  id : Z;
  timestamp : string;
  text : string;
  mission : string;
  type : string
}.

(** The keys of [missionData], the only values [updateMissionProgress] is
    called with (the timers are started from [Object.keys]). *)
Inductive mission_key : Type := artemis | mars | iss | gateway.

Record mission_data : Type := mkData {
  name : string;
  status : string;
  phase : string;
  nextLaunch : string;
  progress : Q;
  description : string
}.

Record control : Type := mkControl {
  currentMission : string;
  missionData : mission_key -> mission_data;
  liveFeed : list update
}.

Definition key_eqb (a b : mission_key) : bool :=
  match a, b with
  | artemis, artemis | mars, mars | iss, iss | gateway, gateway => true
  | _, _ => false
  end.

(** The [missionData] of the constructor. *)
Definition initial_data (k : mission_key) : mission_data :=
  match k with
  | artemis =>
      {| name := "Artemis Program"; status := "active"; phase := "Phase II";
         nextLaunch := "2025-12-01"; progress := 65;
         description := "Returning humans to the Moon and establishing sustainable lunar exploration." |}
  | mars =>
      {| name := "Mars Campaign"; status := "planning"; phase := "MAT Phase";
         nextLaunch := "2030-07-15"; progress := 30;
         description := "Preparing for human missions to Mars with robotic precursors." |}
  | iss =>
      {| name := "International Space Station"; status := "operational";
         phase := "Expedition 68"; nextLaunch := "2024-03-15"; progress := 95;
         description := "Orbital laboratory for scientific research and technology development." |}
  | gateway =>
      {| name := "Lunar Gateway"; status := "development";
         phase := "Assembly Phase"; nextLaunch := "2026-11-01";
         progress := 45;
         description := "Lunar orbital platform for deep space exploration." |}
  end.

(** The fields the constructor writes before [initMissionControl] runs. *)
Definition new_control : control :=
  {| currentMission := "artemis"; missionData := initial_data;
     liveFeed := [] |}.

(** [mission || this.getRandomMission()] *)
Definition or_random (mi : option string) (random_mission : string) : string :=
  match mi with
  | None => random_mission
  | Some s => if String.eqb s EmptyString then random_mission else s
  end.

(** [addLiveFeedUpdate(text, mission)]: the new entry goes to the front, and
    when the feed has grown past 50 entries the last one is dropped.  [now]
    is [Date.now()], [iso] is [new Date().toISOString()], [random_mission]
    what [getRandomMission()] returns. *)
Definition addLiveFeedUpdate (now : Z) (iso random_mission : string)
  (txt : string) (mi : option string) (c : control) : control * update :=
  let u :=
    {| id := now; timestamp := iso; text := txt;
       mission := or_random mi random_mission; type := "info" |} in
  let feed := u :: liveFeed c in
  let feed :=
    if (50 <? Z.of_nat (List.length feed))%Z then removelast feed else feed in
  ({| currentMission := currentMission c; missionData := missionData c;
      liveFeed := feed |}, u).

(** One call of [addLiveFeedUpdate] with what the environment returned. *)
Record feed_call : Type := mkFeedCall {
  fc_now : Z;
  fc_iso : string;
  fc_random : string;
  fc_text : string;
  fc_mission : option string
}.

Definition feed_exec (x : feed_call) (c : control) : control * update :=
  addLiveFeedUpdate (fc_now x) (fc_iso x) (fc_random x) (fc_text x)
    (fc_mission x) c.

Fixpoint feed_run (xs : list feed_call) (c : control) : control :=
  match xs with
  | [] => c
  | x :: rest => feed_run rest (fst (feed_exec x c))
  end.

(** [updateMissionProgress(mission)] for a key of [missionData]; [random] is
    what [Math.random()] returns. *)
Definition updateMissionProgress (random : Q) (k : mission_key) (c : control)
  : control :=
  let data := missionData c k in
  if String.eqb (status data) "active"
     || String.eqb (status data) "development"
  then
    let change := (random - 0.3) * 0.5 in
    let data :=
      {| name := name data; status := status data; phase := phase data;
         nextLaunch := nextLaunch data;
         progress := Qmax 0 (Qmin 100 (progress data + change));
         description := description data |} in
    {| currentMission := currentMission c;
       missionData := fun k' => if key_eqb k' k then data else missionData c k';
       liveFeed := liveFeed c |}
  else c.

(** The ticks of the mission timers: a key and a random number each. *)
Fixpoint timers_run (ticks : list (mission_key * Q)) (c : control) : control :=
  match ticks with
  | [] => c
  | (k, r) :: rest => timers_run rest (updateMissionProgress r k c)
  end.

(** [Math.random()] returns a number in [0, 1). *)
Definition random_number (r : Q) : Prop := 0 <= r /\ r < 1.

(** The entry a call makes: it does not depend on the feed. *)
Definition made (x : feed_call) : update :=
  {| id := fc_now x; timestamp := fc_iso x; text := fc_text x;
     mission := or_random (fc_mission x) (fc_random x); type := "info" |}.


(** What the timers keep of a mission control. *)
Definition timers_invariant (c : control) : Prop :=
  forall k,
    0 <= progress (missionData c k) <= 100
    /\ status (missionData c k) = status (initial_data k)
    /\ name (missionData c k) = name (initial_data k)
    /\ (k = mars \/ k = iss -> missionData c k = initial_data k).

End MissionControl.

(** * The performance monitor of script.js (class NASA_PerformanceMonitor)

    [performance.now()] is the environment; [document.documentElement
    .classList] is the set of class names [classes]. *)
Module PerformanceMonitor.

(** The value of [fps]: [1000 / avgFrameTime] is +Infinity when the frame
    times sum to 0. *)
Inductive fps_value : Type :=
| Fps (n : Z)
| FpsInfinity.

(** The levels [triggerOptimization] is called with. *)
Inductive level : Type := low | medium | high.

(** An entry of [performanceLog]: the fields the monitor itself supplies. *)
Record log_event : Type := mkEvent {
  ev_fps : fps_value;
  message : string
}.

Record monitor : Type := mkMonitor {
  fps : fps_value;
  frameCount : Z;
  lastTime : Q;
  frameTimes : list Q;
  isMonitoring : bool;
  performanceLog : list log_event;
  classes : list string
}.

(** The constructor, at time [now]; [document_classes] are the class names of
    the page. *)
Definition new_monitor (now : Q) (document_classes : list string) : monitor :=
  {| fps := Fps 120; frameCount := 0; lastTime := now; frameTimes := [];
     isMonitoring := false; performanceLog := [];
     classes := document_classes |}.

Definition level_name (l : level) : string :=
  match l with low => "low" | medium => "medium" | high => "high" end.

(** The table of [triggerOptimization]. *)
Definition optimizations (l : level) : list string :=
  match l with
  | low => ["reduce-particle-count"; "disable-backdrop-blur"]
  | medium => ["reduce-animations"; "disable-parallax"; "reduce-shadows"]
  | high => ["disable-all-animations"; "enable-lite-mode"; "reduce-quality"]
  end%string.

(** [classList.add(name)] *)
Definition classList_add (cls : string) (l : list string) : list string :=
  if existsb (String.eqb cls) l then l else l ++ [cls].

(** [logPerformanceEvent(message)]: at most 100 entries are kept. *)
Definition logPerformanceEvent (msg : string) (m : monitor) : monitor :=
  let log := performanceLog m ++ [ {| ev_fps := fps m; message := msg |} ] in
  let log :=
    if (100 <? Z.of_nat (List.length log))%Z then tl log else log in
  mkMonitor (fps m) (frameCount m) (lastTime m) (frameTimes m)
    (isMonitoring m) log (classes m).

(** [triggerOptimization(level)] *)
Definition triggerOptimization (l : level) (m : monitor) : monitor :=
  let cls :=
    fold_left (fun acc opt => classList_add ("perf-" ++ opt) acc)
      (optimizations l) (classes m) in
  logPerformanceEvent ("Optimization triggered: " ++ level_name l)
    (mkMonitor (fps m) (frameCount m) (lastTime m) (frameTimes m)
       (isMonitoring m) (performanceLog m) cls).

(** [x < bound] for the value of [fps]. *)
Definition fps_below (v : fps_value) (bound : Z) : bool :=
  match v with
  | Fps n => (n <? bound)%Z
  | FpsInfinity => false
  end.

(** [checkPerformanceThresholds(currentFPS)], with the thresholds 55 and 30
    of the constructor. *)
Definition checkPerformanceThresholds (currentFPS : fps_value) (m : monitor)
  : monitor :=
  if fps_below currentFPS 55 then
    let m := triggerOptimization medium m in
    if fps_below currentFPS 30 then triggerOptimization high m else m
  else m.

(** [Math.round] *)
Definition Math_round (x : Q) : Z := Qfloor (x + (1 # 2)).

Definition Qsum (l : list Q) : Q := fold_left Qplus l 0.

(** [monitorFrame()] at time [now] *)
Definition monitorFrame (now : Q) (m : monitor) : monitor :=
  if negb (isMonitoring m) then m
  else
    let delta := now - lastTime m in
    let times := frameTimes m ++ [delta] in
    let times :=
      if (120 <? Z.of_nat (List.length times))%Z then tl times else times in
    let avgFrameTime := Qsum times / inject_Z (Z.of_nat (List.length times)) in
    let v :=
      if Qeq_bool avgFrameTime 0 then FpsInfinity
      else Fps (Math_round (1000 / avgFrameTime)) in
    let m :=
      mkMonitor v (frameCount m + 1) (lastTime m) times (isMonitoring m)
        (performanceLog m) (classes m) in
    let m := checkPerformanceThresholds (fps m) m in
    mkMonitor (fps m) (frameCount m) now (frameTimes m) (isMonitoring m)
      (performanceLog m) (classes m).

(** The frames of a monitored page, by their times. *)
Fixpoint frames_run (times : list Q) (m : monitor) : monitor :=
  match times with
  | [] => m
  | now :: rest => frames_run rest (monitorFrame now m)
  end.

(** [startMonitoring()], whose first frame is at time [now]. *)
Definition startMonitoring (now : Q) (m : monitor) : monitor :=
  monitorFrame now
    (mkMonitor (fps m) (frameCount m) (lastTime m) (frameTimes m) true []
       (classes m)).

(** The class names [triggerOptimization] sets for a level. *)
Definition perf_classes (l : level) : list string :=
  map (fun opt => "perf-" ++ opt)%string (optimizations l).


(** A monitored page whose next frame comes 100 ms after the last one. *)
Definition slow_monitor : monitor :=
  mkMonitor (Fps 120) 0 0 [] true [] [].


End PerformanceMonitor.

(** * The order system of script.js (class NASA_OrderSystem) *)
Module OrderSystem.

(** [\d] and [\D] *)
Definition is_digit (c : ascii) : bool :=
  (48 <=? nat_of_ascii c)%nat && (nat_of_ascii c <=? 57)%nat.

(** [phone.replace(/\D/g, '')].  A character outside ASCII is no digit,
    whatever bytes encode it. *)
Fixpoint digits_of (s : string) : string :=
  match s with
  | EmptyString => EmptyString
  | String c rest =>
      if is_digit c then String c (digits_of rest) else digits_of rest
  end.

Fixpoint all_digits (s : string) : bool :=
  match s with
  | EmptyString => true
  | String c rest => is_digit c && all_digits rest
  end.

(** [/^[6-9]\d{9}$/.test(s)] *)
Definition matches_mobile (s : string) : bool :=
  match s with
  | EmptyString => false
  | String c rest =>
      (54 <=? nat_of_ascii c)%nat && (nat_of_ascii c <=? 57)%nat
      && Nat.eqb (String.length rest) 9 && all_digits rest
  end.

(** [isValidPhoneNumber(phone)] *)
Definition isValidPhoneNumber (phone : string) : bool :=
  matches_mobile (digits_of phone).

Record customer : Type := mkCustomer {
  name : string;
  address : string;
  phone : string;
  email : string
}.

(** The [options] of [createOrder]; an absent entry is [None]. *)
Record options : Type := mkOptions {
  opt_size : option string;
  opt_quantity : option Z;
  opt_notes : option string;
  opt_paymentMethod : option string
}.

(** The fields of the product an order copies. *)
Record order_product : Type := mkOrderProduct {
  op_id : string;
  op_name : string;
  op_price : Z;
  op_sku : string;
  op_category : string;
  op_mission : string
}.

(** An order; [total] is NaN ([None]) when no quantity was given. *)
Record order : Type := mkOrder {
  id : string;
  timestamp : string;
  product : order_product;
  buyer : customer;
  size : option string;
  quantity : Z;
  notes : string;
  total : option Z;
  status : string;
  payment_method : string;
  payment_status : string;
  shipping_method : string;
  estimatedDelivery : string;
  tracking : option string
}.

Record system : Type := mkSystem {
  orderQueue : list order;
  orderHistory : list order;
  currentOrder : option order
}.

(** [a || b] for a string that may be absent *)
Definition string_or (o : option string) (d : string) : string :=
  match o with
  | Some s => if String.eqb s EmptyString then d else s
  | None => d
  end.

(** [createOrder(product, customer, options)]; [orderId], [now] and
    [delivery] are what [generateOrderId()], [toISOString()] and
    [calculateDeliveryDate()] return. *)
Definition createOrder (orderId now delivery : string)
  (p : ProductManager.product) (c : customer) (o : options) (s : system)
  : system * order :=
  let total :=
    match opt_quantity o with
    | Some q => Some (ProductManager.price p * q)%Z
    | None => None
    end in
  let order :=
    {| id := orderId;
       timestamp := now;
       product :=
         {| op_id := ProductManager.id p;
            op_name := ProductManager.name p;
            op_price := ProductManager.price p;
            op_sku := ProductManager.sku p;
            op_category := ProductManager.category p;
            op_mission := ProductManager.mission p |};
       buyer :=
         {| name := name c; address := address c; phone := phone c;
            email := email c |};
       size :=
         match opt_size o with
         | Some sz => if String.eqb sz EmptyString then None else Some sz
         | None => None
         end;
       quantity :=
         match opt_quantity o with
         | Some q => if (q =? 0)%Z then 1%Z else q
         | None => 1%Z
         end;
       notes := string_or (opt_notes o) EmptyString;
       total := total;
       status := "pending";
       payment_method := string_or (opt_paymentMethod o) "whatsapp";
       payment_status := "pending";
       shipping_method := "standard";
       estimatedDelivery := delivery;
       tracking := None |} in
  ({| orderQueue := orderQueue s ++ [order];
      orderHistory := orderHistory s ++ [order];
      currentOrder := Some order |}, order).

End OrderSystem.

Section Engine.
Set Default Proof Using "Type".

(** [Math.pow(2, x)], [Math.sin] and [Math.PI] are not rational functions;
    the one curve that uses them takes them from the environment. *)
Variable Math_pow2 : Q -> Q.
Variable Math_sin : Q -> Q.
Variable Math_PI : Q.

Definition easeOutElastic (t : Q) : Q :=
  let c4 := (2 * Math_PI) / 3 in
  if Qeq_bool t 0 then 0
  else if Qeq_bool t 1 then 1
  else Math_pow2 (-10 * t) * Math_sin ((t * 10 - 0.75) * c4) + 1.

(** [getEasingFunction(name)]: the table's entry, or [easeInOutQuad] for a
    name the table does not have.  (The names an object literal inherits,
    such as "constructor", are not curve names and are left out.) *)
Definition getEasingFunction (name : string) : Q -> Q :=
  if String.eqb name "easeInOutQuad" then easeInOutQuad
  else if String.eqb name "easeInOutCubic" then easeInOutCubic
  else if String.eqb name "easeOutElastic" then easeOutElastic
  else if String.eqb name "easeOutBounce" then easeOutBounce
  else if String.eqb name "easeLaunch" then easeLaunch
  else if String.eqb name "easeOrbit" then easeOrbit
  else easeInOutQuad.

(** [createAnimation(key, config)].  The object literal spreads [config]
    first, and the entries written after the spread win: whatever [config]
    says, the tween starts with [yoyo: false] and [repeat: 0]. *)
Definition createAnimation (key : string) (cfg : config) (c : controller)
  : controller * string :=
  let animation :=
    {| from := cfg_from cfg;
       to := cfg_to cfg;
       duration := cfg_duration cfg;
       currentTime := 0;
       progress := Some 0;
       isPlaying := false;
       isComplete := false;
       reverse := false;
       yoyo := false;
       repeat := 0%Z;
       repeatCount := 0%Z;
       currentValue := Unassigned;
       onUpdate := or_default (cfg_onUpdate cfg) (fun _ _ => Returns);
       onComplete := or_default (cfg_onComplete cfg) Returns;
       onStart := or_default (cfg_onStart cfg) Returns;
       easing :=
         getEasingFunction
           (match cfg_easing cfg with
            | Some name =>
                if String.eqb name EmptyString then "easeInOutQuad"%string
                else name
            | None => "easeInOutQuad"%string
            end) |} in
  (set_animations (map_set key animation (animations c)) c, key).

(** [playAnimation(key)] *)
Definition playAnimation (key : string) (c : controller)
  : completion controller :=
  match map_get key (animations c) with
  | None => Normal c
  | Some animation =>
      let animation := set_isComplete false (set_isPlaying true animation) in
      let c := set_log (EvStart key :: log c)
                 (set_animations (map_set key animation (animations c)) c) in
      match onStart animation with
      | Returns => Normal c
      | Throws => Abrupt c
      end
  end.

(** The body of the [forEach] in [updateAnimations], for one entry of the
    registry.  Nothing catches what [onUpdate] or [onComplete] throw.  Every
    curve of [getEasingFunction] maps NaN to NaN. *)
Definition advance (deltaTime : Q) (key : string) (animation : tween)
  (tr : trace) : completion (tween * trace) :=
  if negb (isPlaying animation) || isComplete animation
  then Normal (animation, tr)
  else
    let animation :=
      set_currentTime
        (currentTime animation
         + deltaTime * (if reverse animation then -1 else 1)) animation in
    let animation :=
      set_progress
        (clamped_ratio (currentTime animation) (duration animation))
        animation in
    let easedProgress := option_map (easing animation) (progress animation) in
    let animation :=
      match interpolate (from animation) (to animation) easedProgress with
      | Some v => set_currentValue v animation
      | None => animation
      end in
    let tr := EvUpdate key (currentValue animation) easedProgress :: tr in
    match onUpdate animation (currentValue animation) easedProgress with
    | Throws => Abrupt (animation, tr)
    | Returns =>
        if (negb (reverse animation) && at_least_one (progress animation))
           || (reverse animation && at_most_zero (progress animation))
        then
          if yoyo animation then
            let animation := set_reverse (negb (reverse animation)) animation in
            Normal (set_currentTime
                      (if reverse animation then duration animation else 0)
                      animation, tr)
          else if (repeatCount animation <? repeat animation)%Z then
            Normal (set_progress (Some 0)
                      (set_currentTime 0
                         (set_repeatCount (repeatCount animation + 1)
                            animation)), tr)
          else
            let animation :=
              set_isPlaying false (set_isComplete true animation) in
            let tr := EvComplete key :: tr in
            match onComplete animation with
            | Returns => Normal (animation, tr)
            | Throws => Abrupt (animation, tr)
            end
        else Normal (animation, tr)
    end.

(** [this.animations.forEach(...)]: entries in insertion order; an exception
    leaves the loop, and the entries after the throwing one are not visited. *)
Fixpoint forEach_animations (deltaTime : Q) (m : registry) (tr : trace)
  : completion (registry * trace) :=
  match m with
  | [] => Normal ([], tr)
  | (key, animation) :: rest =>
      match advance deltaTime key animation tr with
      | Abrupt (animation', tr') => Abrupt ((key, animation') :: rest, tr')
      | Normal (animation', tr') =>
          match forEach_animations deltaTime rest tr' with
          | Normal (rest', tr'') => Normal ((key, animation') :: rest', tr'')
          | Abrupt (rest', tr'') => Abrupt ((key, animation') :: rest', tr'')
          end
      end
  end.

Definition store (c : controller) (r : registry * trace) : controller :=
  set_log (snd r) (set_animations (fst r) c).

(** [updateAnimations(deltaTime)] *)
Definition updateAnimations (deltaTime : Q) (c : controller)
  : completion controller :=
  match forEach_animations deltaTime (animations c) (log c) with
  | Normal r => Normal (store c r)
  | Abrupt r => Abrupt (store c r)
  end.

(** The [forEach] of [executeAnimationCallbacks]: it visits the indices
    [k], [k+1], ... below the length the array had when the loop started,
    and skips an index the array no longer has.  A callback that throws is
    removed with [splice(index, 1)] while the loop is running. *)
Fixpoint forEach_callbacks (n k : nat) (deltaTime timestamp : Q)
  (cbs : list frame_cb) (tr : trace) : list frame_cb * trace :=
  match n with
  | O => (cbs, tr)
  | S n' =>
      match nth_error cbs k with
      | None => forEach_callbacks n' (S k) deltaTime timestamp cbs tr
      | Some callback =>
          let tr := EvFrame (cb_id callback) deltaTime timestamp :: tr in
          match cb_run callback deltaTime timestamp with
          | Returns => forEach_callbacks n' (S k) deltaTime timestamp cbs tr
          | Throws =>
              forEach_callbacks n' (S k) deltaTime timestamp
                (splice1 (Z.of_nat k) cbs) tr
          end
      end
  end.

(** [executeAnimationCallbacks(deltaTime, timestamp)] *)
Definition executeAnimationCallbacks (deltaTime timestamp : Q)
  (c : controller) : controller :=
  let r := forEach_callbacks (List.length (animationCallbacks c)) 0
             deltaTime timestamp (animationCallbacks c) (log c) in
  set_log (snd r) (set_animationCallbacks (fst r) c).

(** The frame function [animate(timestamp)] of [initAnimationLoop].  A
    [lastTimestamp] of 0 is falsy and is seeded with the frame's timestamp.
    When [updateAnimations] throws, neither [lastTimestamp] is written nor
    the next frame requested. *)
Definition animate (timestamp : Q) (c : controller) : completion controller :=
  let c :=
    if Qeq_bool (lastTimestamp c) 0 then set_lastTimestamp timestamp c
    else c in
  let c :=
    set_deltaTime
      (Qmin ((timestamp - lastTimestamp c) / 1000) (maxDelta c) * timeScale c)
      c in
  if negb (isPaused c) then
    match updateAnimations (deltaTime c) c with
    | Abrupt c => Abrupt c
    | Normal c =>
        let c := executeAnimationCallbacks (deltaTime c) timestamp c in
        Normal (set_lastTimestamp timestamp c)
    end
  else Normal (set_lastTimestamp timestamp c).

(** [addAnimationCallback(callback)]: push, and return the new last index. *)
Definition addAnimationCallback (callback : frame_cb) (c : controller)
  : controller * Z :=
  let c := set_animationCallbacks (animationCallbacks c ++ [callback]) c in
  (c, (Z.of_nat (List.length (animationCallbacks c)) - 1)%Z).

(** [removeAnimationCallback(index)] *)
Definition removeAnimationCallback (index : Z) (c : controller) : controller :=
  set_animationCallbacks (splice1 index (animationCallbacks c)) c.

(** [pauseAllAnimations()]; [rafIds] is never written, so nothing is
    cancelled. *)
Definition pauseAllAnimations (c : controller) : controller :=
  set_isPaused true c.

(** [resumeAllAnimations()]; the call to [initAnimationLoop] requests a
    frame and writes no field modelled here. *)
Definition resumeAllAnimations (c : controller) : controller :=
  set_isPaused false c.

(** [destroy()] *)
Definition destroy (c : controller) : controller :=
  set_animationCallbacks [] (set_animations [] c).

(** ** Runs: sequences of calls on a controller *)
Inductive call : Type :=
| CreateAnimation (key : string) (cfg : config)
| PlayAnimation (key : string)
| Frame (timestamp : Q)
| Tick (deltaTime : Q)
| AddAnimationCallback (callback : frame_cb)
| RemoveAnimationCallback (index : Z)
| PauseAllAnimations
| ResumeAllAnimations
| Destroy.

(** One call.  [Frame] is a frame delivered by the browser, [Tick] a direct
    call of [updateAnimations]. *)
Definition exec (x : call) (c : controller) : completion controller :=
  match x with
  | CreateAnimation key cfg => Normal (fst (createAnimation key cfg c))
  | PlayAnimation key => playAnimation key c
  | Frame timestamp => animate timestamp c
  | Tick deltaTime => updateAnimations deltaTime c
  | AddAnimationCallback callback =>
      Normal (fst (addAnimationCallback callback c))
  | RemoveAnimationCallback index => Normal (removeAnimationCallback index c)
  | PauseAllAnimations => Normal (pauseAllAnimations c)
  | ResumeAllAnimations => Normal (resumeAllAnimations c)
  | Destroy => Normal (destroy c)
  end.

(** A sequence of calls; the state a call leaves is the state the next one
    finds, whether the call returned or threw. *)
Fixpoint run (xs : list call) (c : controller) : controller :=
  match xs with
  | [] => c
  | x :: rest => run rest (state_of (exec x c))
  end.

(** How often [onComplete] of the tween under [key] was invoked. *)
Fixpoint completions (key : string) (tr : trace) : nat :=
  match tr with
  | [] => O
  | EvComplete k :: rest =>
      if String.eqb k key then S (completions key rest)
      else completions key rest
  | _ :: rest => completions key rest
  end.

(** Whether the per-frame callback [id] was invoked at [timestamp]. *)
Fixpoint invoked_at (id : nat) (timestamp : Q) (tr : trace) : bool :=
  match tr with
  | [] => false
  | EvFrame i _ ts :: rest =>
      (Nat.eqb i id && Qeq_bool ts timestamp) || invoked_at id timestamp rest
  | _ :: rest => invoked_at id timestamp rest
  end.

(** Whether [onUpdate] of the tween under [key] was invoked. *)
Fixpoint updated (key : string) (tr : trace) : bool :=
  match tr with
  | [] => false
  | EvUpdate k _ _ :: rest => String.eqb k key || updated key rest
  | _ :: rest => updated key rest
  end.

(** The eased progress [updateAnimations(deltaTime)] computes for a tween. *)
Definition eased_after (deltaTime : Q) (a : tween) : num :=
  option_map (easing a)
    (clamped_ratio
       (currentTime a + deltaTime * (if reverse a then -1 else 1))
       (duration a)).

(** ** Scenarios *)

Definition plain_config (f t : endpoint) (d : Q) : config :=
  {| cfg_from := f; cfg_to := t; cfg_duration := d; cfg_easing := None;
     cfg_onUpdate := None; cfg_onComplete := None; cfg_onStart := None;
     cfg_yoyo := None; cfg_repeat := None |}.

(** [{from: 0, to: 1, duration: 1.0, easing: 'easeInOutQuad'}] *)
Definition fade_config : config :=
  {| cfg_from := Num 0; cfg_to := Num 1; cfg_duration := 1.0;
     cfg_easing := Some "easeInOutQuad"%string;
     cfg_onUpdate := None; cfg_onComplete := None; cfg_onStart := None;
     cfg_yoyo := None; cfg_repeat := None |}.

(** [{from: 0, to: 1, duration: 1, yoyo: true, repeat: 0}] *)
Definition yoyo_config : config :=
  {| cfg_from := Num 0; cfg_to := Num 1; cfg_duration := 1;
     cfg_easing := None;
     cfg_onUpdate := None; cfg_onComplete := None; cfg_onStart := None;
     cfg_yoyo := Some true; cfg_repeat := Some 0%Z |}.

(** [{from: 0, to: 1, duration: 1, yoyo: true, repeat: 3}] *)
Definition yoyo_repeat_config : config :=
  {| cfg_from := Num 0; cfg_to := Num 1; cfg_duration := 1;
     cfg_easing := None;
     cfg_onUpdate := None; cfg_onComplete := None; cfg_onStart := None;
     cfg_yoyo := Some true; cfg_repeat := Some 3%Z |}.

(** A config whose [onUpdate] throws. *)
Definition throwing_config : config :=
  {| cfg_from := Num 0; cfg_to := Num 1; cfg_duration := 1;
     cfg_easing := None;
     cfg_onUpdate := Some (fun _ _ => Throws);
     cfg_onComplete := None; cfg_onStart := None;
     cfg_yoyo := None; cfg_repeat := None |}.

(** Two playing tweens, the first with a throwing [onUpdate]. *)
Definition two_tweens : list call :=
  [ CreateAnimation "a" throwing_config;
    CreateAnimation "b" (plain_config (Num 0) (Num 1) 1);
    PlayAnimation "a"; PlayAnimation "b" ].

(** Frames every 62.5 ms, starting at [start] ms. *)
Definition frames (start : Q) (n : nat) : list call :=
  map (fun i => Frame (start + 62.5 * inject_Z (Z.of_nat i))) (seq 0 n).

(** A yoyo tween, played, then a seeding frame and 32 frames: 2 seconds. *)
Definition yoyo_run : list call :=
  [ CreateAnimation "pulse" yoyo_config; PlayAnimation "pulse" ]
  ++ frames 1000 33.

(** A tween that completes in one frame, played again after completion. *)
Definition replay_run : list call :=
  [ CreateAnimation "blink" (plain_config (Num 0) (Num 1) 0.0625);
    PlayAnimation "blink"; Frame 1000; Frame 1100;
    PlayAnimation "blink"; Frame 1200 ].

(** A tween played once: creation, play and the seeding frame. *)
Definition blink_start : list call :=
  [ CreateAnimation "blink" (plain_config (Num 0) (Num 1) 0.0625);
    PlayAnimation "blink"; Frame 1000 ].

(** A playing tween whose [yoyo] field holds true (written on the object,
    which [createAnimation] never does). *)
Definition yoyo_tween : tween :=
  {| from := Num 0; to := Num 1; duration := 1; currentTime := 0;
     progress := Some 0; isPlaying := true; isComplete := false;
     reverse := false; yoyo := true; repeat := 0%Z; repeatCount := 0%Z;
     currentValue := Unassigned; onUpdate := fun _ _ => Returns;
     onComplete := Returns; onStart := Returns; easing := easeInOutQuad |}.

(** A playing tween with a number as [from] and an array as [to]. *)
Definition mixed_tween : tween :=
  {| from := Num 0; to := Arr [10; 20]; duration := 1; currentTime := 0;
     progress := Some 0; isPlaying := true; isComplete := false;
     reverse := false; yoyo := false; repeat := 0%Z; repeatCount := 0%Z;
     currentValue := Unassigned; onUpdate := fun _ _ => Returns;
     onComplete := Returns; onStart := Returns; easing := easeInOutQuad |}.

(** [n] visits of one tween by ticks of step [d]. *)
Fixpoint visits (n : nat) (d : Q) (key : string) (a : tween) : tween :=
  match n with
  | O => a
  | S n' => visits n' d key (fst (state_of (advance d key a [])))
  end.

Definition cb_throwing (id : nat) : frame_cb :=
  {| cb_id := id; cb_run := fun _ _ => Throws |}.

Definition cb_quiet (id : nat) : frame_cb :=
  {| cb_id := id; cb_run := fun _ _ => Returns |}.

(** Three callbacks, the first of which throws, and one frame. *)
Definition throwing_callback_run : list call :=
  [ AddAnimationCallback (cb_throwing 0);
    AddAnimationCallback (cb_quiet 1);
    AddAnimationCallback (cb_quiet 2);
    Frame 1000 ].

(** A call that re-arms the tween under [key]. *)
Definition rearms (key : string) (x : call) : bool :=
  match x with
  | CreateAnimation k _ => String.eqb k key
  | PlayAnimation k => String.eqb k key
  | _ => false
  end.

(** A call the model follows faithfully: it creates no tween of duration 0. *)
Definition valid_call (x : call) : Prop :=
  match x with
  | CreateAnimation _ cfg => ~ cfg_duration cfg == 0
  | _ => True
  end.

(** [from] and [to] are neither both numbers nor both arrays. *)
Definition untyped_pair (f t : endpoint) : Prop :=
  match f, t with
  | Num _, Num _ => False
  | Arr _, Arr _ => False
  | _, _ => True
  end.

Definition tween_at (key : string) (c : controller) : option tween :=
  map_get key (animations c).

(** The arguments of the latest [onUpdate] call. *)
Definition last_update (c : controller) : option (string * curval * num) :=
  match log c with
  | EvUpdate k v e :: _ => Some (k, v, e)
  | _ => None
  end.

(** [0 <= p <= 1], which NaN does not satisfy. *)
Definition in_unit (p : num) : Prop :=
  match p with Some x => 0 <= x <= 1 | None => False end.

(** [p] is the number [q]. *)
Definition is_num (p : num) (q : Q) : Prop :=
  match p with Some x => x == q | None => False end.

(** Every registered tween has a non-zero [duration] and its [progress] in
    [0, 1]. *)
Definition unit_progress (m : registry) : Prop :=
  Forall (fun entry =>
            ~ duration (snd entry) == 0 /\ in_unit (progress (snd entry))) m.

Definition keys (m : registry) : list string := map fst m.

(** Entries under [key] on which [onComplete] can still fire. *)
Fixpoint pending (key : string) (m : registry) : nat :=
  match m with
  | [] => O
  | (k, a) :: rest =>
      if String.eqb k key && negb (isComplete a)
      then S (pending key rest) else pending key rest
  end.

(** ** Further notions used by the properties *)

(** A curve that ends at 1. *)
Definition ends_at_one (f : Q -> Q) : Prop :=
  forall t, t == 1 -> f t == 1.

(** The names an object literal inherits from [Object.prototype]: for these
    [easingFunctions[name]] is not a curve, and [getEasingFunction] above
    does not describe what the code returns. *)
Definition inherited_name (name : string) : bool :=
  existsb (String.eqb name)
    ["constructor"; "hasOwnProperty"; "isPrototypeOf";
     "propertyIsEnumerable"; "toLocaleString"; "toString"; "valueOf";
     "__proto__"; "__defineGetter__"; "__defineSetter__";
     "__lookupGetter__"; "__lookupSetter__"]%string.

(** A call that can change or remove the tween under [key]. *)
Definition disturbs (key : string) (x : call) : bool :=
  match x with
  | CreateAnimation k _ => String.eqb k key
  | PlayAnimation k => String.eqb k key
  | Destroy => true
  | _ => false
  end.

(** A call that registers nothing. *)
Definition registers_nothing (x : call) : bool :=
  match x with
  | CreateAnimation _ _ => false
  | AddAnimationCallback _ => false
  | _ => true
  end.

(** The event of one invocation of a per-frame callback. *)
Definition frame_event (deltaTime timestamp : Q) (cb : frame_cb) : event :=
  EvFrame (cb_id cb) deltaTime timestamp.

(** A playing tween 0.05 s before its end, with the default curve of the
    table. *)
Definition closing_tween : tween :=
  {| from := Num 0; to := Num 1; duration := 1; currentTime := 0.95;
     progress := Some 0.95; isPlaying := true; isComplete := false;
     reverse := false; yoyo := false; repeat := 0%Z; repeatCount := 0%Z;
     currentValue := CNum (Some 0.95);
     onUpdate := fun _ _ => Returns;
     onComplete := Returns; onStart := Returns;
     easing := getEasingFunction "linear" |}.

(** A playing tween between two arrays, the second shorter than the first. *)
Definition array_tween : tween :=
  {| from := Arr [0; 10; 20]; to := Arr [1; 11]; duration := 1;
     currentTime := 0; progress := Some 0; isPlaying := true;
     isComplete := false; reverse := false; yoyo := false; repeat := 0%Z;
     repeatCount := 0%Z; currentValue := Unassigned;
     onUpdate := fun _ _ => Returns;
     onComplete := Returns; onStart := Returns; easing := easeInOutQuad |}.

(** Calls that register nothing and play one tween. *)
Definition after_destroy : list call :=
  [Frame 1000; Tick 0.05; PlayAnimation "a"; RemoveAnimationCallback 0;
   Frame 1100].


(** ** Properties *)

(** *** createAnimation *)

Lemma map_get_set_same (key : string) (a : tween) (m : registry) :
  map_get key (map_set key a m) = Some a.
Proof.
  induction m as [|[k b] rest IH]; simpl.
  - now rewrite String.eqb_refl.
  - destruct (String.eqb k key) eqn:E; simpl; rewrite E; auto.
Qed.

Lemma createAnimation_registers key cfg c :
  exists a,
    map_get key (animations (fst (createAnimation key cfg c))) = Some a
    /\ yoyo a = false /\ repeat a = 0%Z /\ isPlaying a = false
    /\ progress a = Some 0 /\ duration a = cfg_duration cfg.
Proof.
  unfold createAnimation; simpl. rewrite map_get_set_same.
  eexists; split; [reflexivity|]; simpl; auto.
Qed.

(** C1 (code defect). [createAnimation("pulse", {from: 0, to: 1, duration: 1,
    yoyo: true, repeat: 3})] registers a tween whose [yoyo] is false and whose
    [repeat] is 0: the entries after the spread overwrite the config's. *)
Theorem createAnimation_drops_yoyo_repeat :
  option_map (fun a => (yoyo a, repeat a))
    (map_get "pulse"
       (animations
          (fst (createAnimation "pulse" yoyo_repeat_config new_controller))))
  = Some (false, 0%Z).
Proof. reflexivity. Qed.

(** *** The fade scenario *)

(** C5. After [createAnimation('fade', {from: 0, to: 1, duration: 1.0,
    easing: 'easeInOutQuad'})] and [playAnimation('fade')], the calls
    [updateAnimations(0)], [updateAnimations(0.5)], [updateAnimations(0.5)]
    give progress 0, then progress 0.5 with eased progress 0.5, then progress
    1 with [isComplete], and [onComplete] has been invoked once. *)
Theorem fade_scenario :
  let c0 := run [CreateAnimation "fade" fade_config; PlayAnimation "fade"]
              new_controller in
  let c1 := run [Tick 0] c0 in
  let c2 := run [Tick 0.5] c1 in
  let c3 := run [Tick 0.5] c2 in
  (exists a, tween_at "fade" c1 = Some a /\ is_num (progress a) 0
             /\ isComplete a = false)
  /\ (exists a v e, tween_at "fade" c2 = Some a /\ is_num (progress a) 0.5
                    /\ last_update c2 = Some ("fade"%string, v, e)
                    /\ is_num e 0.5 /\ isComplete a = false)
  /\ (exists a, tween_at "fade" c3 = Some a /\ is_num (progress a) 1
                /\ isComplete a = true /\ isPlaying a = false)
  /\ completions "fade" (log c1) = 0%nat
  /\ completions "fade" (log c2) = 0%nat
  /\ completions "fade" (log c3) = 1%nat.
Proof.
  repeat split.
  - eexists; split; [vm_compute; reflexivity|]. split; reflexivity.
  - do 3 eexists; split; [vm_compute; reflexivity|].
    split; [reflexivity|]. split; [vm_compute; reflexivity|].
    split; reflexivity.
  - eexists; split; [vm_compute; reflexivity|]. repeat split; reflexivity.
Qed.

(** *** Evaluations of the scenarios *)

(** C2 (code defect). Two playing tweens, "a" registered first with an
    [onUpdate] that throws, then "b". The frame is left by the exception:
    "a" stays registered, but "b" is not visited (its [onUpdate] is not
    invoked), and a direct [updateAnimations(0.05)] advances "a" to 0.05 and
    leaves "b" at 0. *)
Theorem onUpdate_throw_aborts_tick :
  let c0 := run two_tweens new_controller in
  let r := animate 1000 c0 in
  let r' := updateAnimations 0.05 c0 in
  is_normal r = false
  /\ updated "a" (log (state_of r)) = true
  /\ updated "b" (log (state_of r)) = false
  /\ keys (animations (state_of r)) = ["a"; "b"]%string
  /\ is_normal r' = false
  /\ (exists a b, tween_at "a" (state_of r') = Some a
                  /\ tween_at "b" (state_of r') = Some b
                  /\ isPlaying b = true /\ isComplete b = false
                  /\ currentTime a == 0.05 /\ currentTime b == 0).
Proof.
  repeat split.
  do 2 eexists. split; [vm_compute; reflexivity|].
  split; [vm_compute; reflexivity|]. repeat split; reflexivity.
Qed.

(** When [onUpdate] of a visited tween throws, the entries behind it are
    left as they were. *)
Lemma forEach_animations_stops_at_throw (d : Q) (k : string) (a : tween)
  (rest : registry) (tr : trace) :
  isPlaying a = true -> isComplete a = false ->
  (forall v e, onUpdate a v e = Throws) ->
  exists a' tr',
    forEach_animations d ((k, a) :: rest) tr = Abrupt ((k, a') :: rest, tr').
Proof.
  intros Hp Hc Hthrow. simpl. unfold advance. rewrite Hp, Hc.
  cbv zeta.
  destruct (interpolate _ _ _); simpl; rewrite Hthrow; eauto.
Qed.

(** C3 (code defect). Callbacks 0, 1, 2 registered in this order, 0 throws.
    In the frame at 1000 ms callback 0 is invoked and removed, callback 2 is
    invoked, and callback 1, which moved into the slot of callback 0, is not
    invoked in that frame. *)
Theorem throwing_callback_skips_next :
  let c := run throwing_callback_run new_controller in
  invoked_at 0 1000 (log c) = true
  /\ invoked_at 1 1000 (log c) = false
  /\ invoked_at 2 1000 (log c) = true
  /\ map cb_id (animationCallbacks c) = [1; 2]%nat
  /\ invoked_at 0 1016 (log (run [Frame 1016] c)) = false
  /\ invoked_at 1 1016 (log (run [Frame 1016] c)) = true.
Proof. repeat split. Qed.

(** C8 (code defect). A tween created with [yoyo: true, repeat: 0,
    duration: 1], played and driven by frames 62.5 ms apart: [yoyo] is false
    on the registered tween, so it is complete 1 s after the seeding frame
    and stays at progress 1 to the end of the 2 s. *)
Theorem yoyo_config_completes :
  (exists a, tween_at "pulse"
               (run ([CreateAnimation "pulse" yoyo_config;
                      PlayAnimation "pulse"] ++ frames 1000 17)
                  new_controller) = Some a
             /\ yoyo a = false /\ isComplete a = true /\ is_num (progress a) 1)
  /\ (exists a, tween_at "pulse" (run yoyo_run new_controller) = Some a
                /\ isComplete a = true /\ isPlaying a = false
                /\ is_num (progress a) 1)
  /\ completions "pulse" (log (run yoyo_run new_controller)) = 1%nat.
Proof.
  split; [|split].
  - eexists. split; [vm_compute; reflexivity|]. repeat split; reflexivity.
  - eexists. split; [vm_compute; reflexivity|]. repeat split; reflexivity.
  - vm_compute; reflexivity.
Qed.

Lemma replay_run_completions :
  completions "blink" (log (run replay_run new_controller)) = 2%nat.
Proof. vm_compute; reflexivity. Qed.

(** *** Handles of per-frame callbacks *)

Lemma splice1_middle {A : Type} (pre : list A) (x : A) (post : list A) :
  splice1 (Z.of_nat (List.length pre)) (pre ++ x :: post) = pre ++ post.
Proof.
  unfold splice1.
  assert (H : (Z.of_nat (List.length pre) <? 0)%Z = false)
    by (apply Z.ltb_ge; lia).
  rewrite H, Z.min_l by (rewrite length_app; simpl; lia).
  rewrite Nat2Z.id, firstn_app, Nat.sub_diag, firstn_all; simpl.
  rewrite app_nil_r. f_equal.
  clear H. induction pre as [|y pre IH]; simpl; auto.
Qed.

Lemma nth_error_splice1 {A : Type} (l : list A) (k j : nat) (x : A) :
  nth_error l k = Some x ->
  nth_error (splice1 (Z.of_nat k) l) j
  = if (j <? k)%nat then nth_error l j else nth_error l (S j).
Proof.
  intros Hk. apply nth_error_split in Hk as (pre & post & -> & <-).
  rewrite splice1_middle.
  destruct (j <? List.length pre)%nat eqn:E.
  - apply Nat.ltb_lt in E. now rewrite !nth_error_app1 by exact E.
  - apply Nat.ltb_ge in E. rewrite !nth_error_app2 by lia.
    replace (S j - List.length pre)%nat with (S (j - List.length pre))
      by lia.
    reflexivity.
Qed.

Lemma splice1_NoDup_ids (l : list frame_cb) (k : nat) (x : frame_cb) :
  nth_error l k = Some x -> NoDup (map cb_id l) ->
  NoDup (map cb_id (splice1 (Z.of_nat k) l)).
Proof.
  intros Hk. apply nth_error_split in Hk as (pre & post & -> & <-).
  rewrite splice1_middle, !map_app. simpl. apply NoDup_remove_1.
Qed.

Lemma ids_distinct (l : list frame_cb) (i j : nat) (a b : frame_cb) :
  NoDup (map cb_id l) -> nth_error l i = Some a -> nth_error l j = Some b ->
  i <> j -> cb_id a <> cb_id b.
Proof.
  intros Hnd Hi Hj Hij Heq. apply Hij.
  apply (proj1 (NoDup_nth_error (map cb_id l)) Hnd).
  - rewrite length_map. apply nth_error_Some. now rewrite Hi.
  - rewrite !nth_error_map, Hi, Hj. simpl. now rewrite Heq.
Qed.

(** The loop of [executeAnimationCallbacks] from index [k] on: a callback
    that is still in the list when the loop ends has not thrown in this
    frame. *)
Lemma forEach_callbacks_settled (n : nat) :
  forall (k : nat) (d ts : Q) (cbs : list frame_cb) (tr : trace),
    NoDup (map cb_id cbs) ->
    (forall j cb, nth_error cbs j = Some cb -> (k <= j)%nat ->
                  invoked_at (cb_id cb) ts tr = false) ->
    (forall j cb, nth_error cbs j = Some cb -> (j < k)%nat ->
                  cb_run cb d ts = Throws ->
                  invoked_at (cb_id cb) ts tr = false) ->
    forall cb,
      In cb (fst (forEach_callbacks n k d ts cbs tr)) ->
      cb_run cb d ts = Throws ->
      invoked_at (cb_id cb) ts (snd (forEach_callbacks n k d ts cbs tr))
      = false.
Proof.
  induction n as [|n IH]; intros k d ts cbs tr Hnd Hlater Hearlier cb0;
    cbn [forEach_callbacks].
  - simpl. intros Hin Hthrow.
    apply In_nth_error in Hin as [j Hj].
    destruct (Nat.lt_ge_cases j k); eauto.
  - destruct (nth_error cbs k) as [cb|] eqn:Hk.
    2: { apply IH; auto.
         - intros j c Hj Hle. apply (Hlater j c Hj). lia.
         - intros j c Hj Hlt. destruct (Nat.eq_dec j k) as [->|Hne].
           + congruence.
           + apply (Hearlier j c Hj). lia. }
    assert (Hfresh : forall j c, nth_error cbs j = Some c -> j <> k ->
              invoked_at (cb_id c) ts
                (EvFrame (cb_id cb) d ts :: tr)
              = invoked_at (cb_id c) ts tr).
    { intros j c Hj Hne. simpl.
      destruct (Nat.eqb (cb_id cb) (cb_id c)) eqn:E; [|reflexivity].
      apply Nat.eqb_eq in E. exfalso.
      apply (ids_distinct cbs j k c cb Hnd Hj Hk Hne). now rewrite E. }
    destruct (cb_run cb d ts) eqn:Hrun.
    + apply IH; auto.
      * intros j c Hj Hle. rewrite (Hfresh j c Hj) by lia.
        apply (Hlater j c Hj). lia.
      * intros j c Hj Hlt Hthrow. destruct (Nat.eq_dec j k) as [->|Hne].
        -- congruence.
        -- rewrite (Hfresh j c Hj Hne). apply (Hearlier j c Hj); [lia|auto].
    + apply IH.
      * eapply splice1_NoDup_ids; eauto.
      * intros j c Hj Hle. rewrite (nth_error_splice1 cbs k j cb Hk) in Hj.
        destruct (j <? k)%nat eqn:E; [apply Nat.ltb_lt in E; lia|].
        rewrite (Hfresh (S j) c Hj) by lia. apply (Hlater (S j) c Hj). lia.
      * intros j c Hj Hlt Hthrow.
        rewrite (nth_error_splice1 cbs k j cb Hk) in Hj.
        destruct (j <? k)%nat eqn:E.
        -- apply Nat.ltb_lt in E. rewrite (Hfresh j c Hj) by lia.
           apply (Hearlier j c Hj); auto.
        -- apply Nat.ltb_ge in E. rewrite (Hfresh (S j) c Hj) by lia.
           apply (Hlater (S j) c Hj). lia.
Qed.

(** The part of C3 that holds: in a frame at a fresh timestamp, over
    callbacks with distinct identities, a callback that was invoked and threw
    is no longer registered after the frame. *)
Lemma thrower_is_deregistered (d ts : Q) (c : controller) :
  NoDup (map cb_id (animationCallbacks c)) ->
  (forall cb, In cb (animationCallbacks c) ->
              invoked_at (cb_id cb) ts (log c) = false) ->
  let c' := executeAnimationCallbacks d ts c in
  forall cb, In cb (animationCallbacks c') -> cb_run cb d ts = Throws ->
             invoked_at (cb_id cb) ts (log c') = false.
Proof.
  intros Hnd Hfresh c' cb Hin Hthrow. subst c'.
  unfold executeAnimationCallbacks in *. simpl in *.
  apply forEach_callbacks_settled; auto.
  - intros j c0 Hj _. apply Hfresh. eapply nth_error_In; eauto.
  - intros j c0 _ Hlt. lia.
Qed.

(** C10. The handle returned by [addAnimationCallback] is the position of the
    callback in the list, removing a callback moves every later one a
    position down, and there are callbacks A, B, C, registered in this order,
    such that after [removeAnimationCallback] of A's handle the call
    [removeAnimationCallback] of B's handle removes C and leaves B. *)
Theorem handle_removes_other_callback :
  (forall cb c,
      nth_error (animationCallbacks (fst (addAnimationCallback cb c)))
        (Z.to_nat (snd (addAnimationCallback cb c))) = Some cb)
  /\ (forall (pre post : list frame_cb) x c,
         animationCallbacks
           (removeAnimationCallback (Z.of_nat (List.length pre))
              (set_animationCallbacks (pre ++ x :: post) c))
         = pre ++ post)
  /\ exists A B C : frame_cb,
       let (c1, hA) := addAnimationCallback A new_controller in
       let (c2, hB) := addAnimationCallback B c1 in
       let (c3, hC) := addAnimationCallback C c2 in
       let c4 := removeAnimationCallback hA c3 in
       let c5 := removeAnimationCallback hB c4 in
       cb_id B <> cb_id C
       /\ map cb_id (animationCallbacks c3) = [cb_id A; cb_id B; cb_id C]
       /\ map cb_id (animationCallbacks c4) = [cb_id B; cb_id C]
       /\ map cb_id (animationCallbacks c5) = [cb_id B].
Proof.
  split; [|split].
  - intros cb c. unfold addAnimationCallback; simpl.
    rewrite length_app; simpl.
    replace (Z.to_nat (Z.of_nat (List.length (animationCallbacks c) + 1) - 1))
      with (List.length (animationCallbacks c)) by lia.
    rewrite nth_error_app2, Nat.sub_diag by lia. reflexivity.
  - intros pre post x c. unfold removeAnimationCallback; simpl.
    apply splice1_middle.
  - exists (cb_quiet 0), (cb_quiet 1), (cb_quiet 2). simpl.
    repeat split; try reflexivity. discriminate.
Qed.

(** *** Tweens whose endpoints are not of one type *)

(** C9. For a playing tween whose [from] and [to] are neither both numbers
    nor both arrays, the visit of a tick leaves [currentValue] as it was
    (unassigned, or the value of an earlier tick), invokes [onUpdate] with
    that value, and is left by an exception only if [onUpdate] or
    [onComplete] throws. *)
Theorem untyped_pair_keeps_currentValue
  (deltaTime : Q) (key : string) (a : tween) (tr : trace) :
  isPlaying a = true -> isComplete a = false ->
  untyped_pair (from a) (to a) ->
  let r := advance deltaTime key a tr in
  let e := eased_after deltaTime a in
  currentValue (fst (state_of r)) = currentValue a
  /\ (snd (state_of r) = EvUpdate key (currentValue a) e :: tr
      \/ snd (state_of r)
         = EvComplete key :: EvUpdate key (currentValue a) e :: tr)
  /\ (onUpdate a (currentValue a) e = Returns -> onComplete a = Returns ->
      is_normal r = true).
Proof.
  intros Hplay Hdone Hpair r e. subst r e.
  unfold advance, eased_after. rewrite Hplay, Hdone; simpl.
  assert (Hnone : forall x, interpolate (from a) (to a) x = None).
  { intro x. destruct (from a), (to a); simpl in Hpair |- *;
      try contradiction; reflexivity. }
  rewrite Hnone; simpl.
  destruct (onUpdate a (currentValue a) _) eqn:Hu; simpl.
  2: { split; [reflexivity|]. split; [now left|]. discriminate. }
  match goal with |- context [if ?b then _ else _] => destruct b end; simpl.
  2: { split; [reflexivity|]. split; [now left|]. reflexivity. }
  destruct (yoyo a); simpl.
  { split; [reflexivity|]. split; [now left|]. reflexivity. }
  destruct (Z.ltb (repeatCount a) (repeat a)); simpl.
  { split; [reflexivity|]. split; [now left|]. reflexivity. }
  destruct (onComplete a) eqn:Hc; simpl.
  - split; [reflexivity|]. split; [now right|]. reflexivity.
  - split; [reflexivity|]. split; [now right|]. intros _ H; discriminate H.
Qed.

(** *** The clock of the frame function *)

Lemma run_app (xs ys : list call) (c : controller) :
  run (xs ++ ys) c = run ys (run xs c).
Proof. revert c; induction xs as [|x xs IH]; intro c; simpl; auto. Qed.

Lemma updateAnimations_clock (d : Q) (c : controller) :
  let c' := state_of (updateAnimations d c) in
  timeScale c' = timeScale c /\ maxDelta c' = maxDelta c
  /\ deltaTime c' = deltaTime c /\ lastTimestamp c' = lastTimestamp c
  /\ animationCallbacks c' = animationCallbacks c.
Proof.
  unfold updateAnimations.
  destruct (forEach_animations d (animations c) (log c)); simpl; auto.
Qed.

Lemma animate_deltaTime (timestamp : Q) (c : controller) :
  let last :=
    if Qeq_bool (lastTimestamp c) 0 then timestamp else lastTimestamp c in
  let c' := state_of (animate timestamp c) in
  deltaTime c'
  = Qmin ((timestamp - last) / 1000) (maxDelta c) * timeScale c
  /\ timeScale c' = timeScale c /\ maxDelta c' = maxDelta c.
Proof.
  unfold animate.
  set (c0 := if Qeq_bool (lastTimestamp c) 0 then _ else c).
  assert (H0 : lastTimestamp c0
               = (if Qeq_bool (lastTimestamp c) 0 then timestamp
                  else lastTimestamp c)
               /\ maxDelta c0 = maxDelta c /\ timeScale c0 = timeScale c)
    by (subst c0; destruct (Qeq_bool (lastTimestamp c) 0); auto).
  destruct H0 as (Hl & Hm & Ht). rewrite <- Hl, <- Hm, <- Ht.
  set (c1 := set_deltaTime _ c0).
  destruct (negb (isPaused c1)); [|simpl; auto].
  pose proof (updateAnimations_clock (deltaTime c1) c1) as H.
  destruct (updateAnimations (deltaTime c1) c1) as [c2|c2];
    cbn [state_of] in *; destruct H as (H1 & H2 & H3 & _);
    simpl; rewrite H1, H2, H3; auto.
Qed.


Lemma executeAnimationCallbacks_fields (d ts : Q) (c : controller) :
  let c' := executeAnimationCallbacks d ts c in
  timeScale c' = timeScale c /\ maxDelta c' = maxDelta c
  /\ animations c' = animations c.
Proof. unfold executeAnimationCallbacks; simpl; auto. Qed.

Lemma animate_constants (timestamp : Q) (c : controller) :
  let c' := state_of (animate timestamp c) in
  timeScale c' = timeScale c /\ maxDelta c' = maxDelta c.
Proof.
  unfold animate.
  set (c0 := if Qeq_bool (lastTimestamp c) 0 then _ else c).
  assert (H0 : timeScale c0 = timeScale c /\ maxDelta c0 = maxDelta c)
    by (subst c0; destruct (Qeq_bool (lastTimestamp c) 0); simpl; auto).
  set (c1 := set_deltaTime _ c0).
  destruct (negb (isPaused c1)); [|simpl; auto].
  pose proof (updateAnimations_clock (deltaTime c1) c1) as H.
  destruct (updateAnimations (deltaTime c1) c1) as [c2|c2];
    cbn [state_of] in *; destruct H as (H1 & H2 & _);
    simpl; rewrite H1, H2; auto.
Qed.

Lemma playAnimation_constants (key : string) (c : controller) :
  let c' := state_of (playAnimation key c) in
  timeScale c' = timeScale c /\ maxDelta c' = maxDelta c.
Proof.
  unfold playAnimation. destruct (map_get key (animations c)); simpl; auto.
  destruct (onStart t); simpl; auto.
Qed.

Lemma exec_constants (x : call) (c : controller) :
  let c' := state_of (exec x c) in
  timeScale c' = timeScale c /\ maxDelta c' = maxDelta c.
Proof.
  destruct x; simpl; auto.
  - apply playAnimation_constants.
  - apply animate_constants.
  - pose proof (updateAnimations_clock deltaTime0 c) as H; simpl in H. tauto.
Qed.

Lemma run_constants (xs : list call) (c : controller) :
  timeScale (run xs c) = timeScale c /\ maxDelta (run xs c) = maxDelta c.
Proof.
  revert c; induction xs as [|x xs IH]; intro c; simpl; auto.
  destruct (IH (state_of (exec x c))) as [-> ->]. apply exec_constants.
Qed.

Lemma animate_normal_lastTimestamp (timestamp : Q) (c : controller) :
  is_normal (animate timestamp c) = true ->
  lastTimestamp (state_of (animate timestamp c)) = timestamp.
Proof.
  unfold animate.
  set (c0 := if Qeq_bool (lastTimestamp c) 0 then _ else c).
  set (c1 := set_deltaTime _ c0).
  destruct (negb (isPaused c1)); [|reflexivity].
  destruct (updateAnimations (deltaTime c1) c1) as [c2|c2]; simpl;
    [reflexivity | discriminate].
Qed.

(** The step computed by a frame, in terms of the stored [lastTimestamp]. *)
Lemma deltaTime_reachable (xs : list call) (timestamp : Q) :
  let c := run xs new_controller in
  ~ lastTimestamp c == 0 ->
  let c' := state_of (animate timestamp c) in
  deltaTime c' == Qmin ((timestamp - lastTimestamp c) / 1000) 0.1
  /\ timeScale c' = 1.0.
Proof.
  intros c Hset c'.
  destruct (animate_deltaTime timestamp c) as (Hd & Hs & _).
  fold c' in Hd, Hs.
  destruct (Qeq_bool (lastTimestamp c) 0) eqn:E;
    [apply Qeq_bool_iff in E; contradiction|].
  destruct (run_constants xs new_controller) as [Hts Hmax].
  fold c in Hts, Hmax. simpl in Hts, Hmax.
  rewrite Hd, Hs, Hmax, Hts. split; [ring | reflexivity].
Qed.

(** A frame that finds [lastTimestamp] at 0 takes it as unset, whatever the
    timestamp of the frame before was, and computes a step of 0. *)
Lemma deltaTime_unset (xs : list call) (timestamp : Q) :
  let c := run xs new_controller in
  lastTimestamp c == 0 ->
  deltaTime (state_of (animate timestamp c)) == 0.
Proof.
  intros c Hzero.
  destruct (animate_deltaTime timestamp c) as (Hd & _).
  apply Qeq_bool_iff in Hzero. rewrite Hzero in Hd.
  destruct (run_constants xs new_controller) as [Hts Hmax].
  fold c in Hts, Hmax. simpl in Hts, Hmax.
  rewrite Hd, Hmax, Hts.
  assert (Hg : (timestamp - timestamp) / 1000 == 0) by (field; discriminate).
  rewrite Hg. reflexivity.
Qed.

(** C7. Two consecutive frames of a controller reached by any calls: the
    first at a non-zero timestamp [t0] (requestAnimationFrame passes a
    positive time) and returning, so that the loop goes on; the second [g]
    seconds later.  The second frame computes
    [deltaTime = min(g, 0.1) * timeScale], which is at most
    [0.1 * timeScale]. *)
Theorem deltaTime_clamped (xs : list call) (t0 g : Q) :
  let c := run xs new_controller in
  ~ t0 == 0 ->
  is_normal (animate t0 c) = true ->
  let c1 := state_of (animate t0 c) in
  let c2 := state_of (animate (t0 + 1000 * g) c1) in
  deltaTime c2 == Qmin g 0.1 * timeScale c2
  /\ deltaTime c2 <= 0.1 * timeScale c2.
Proof.
  intros c Ht0 Hnormal c1 c2.
  pose proof (animate_normal_lastTimestamp t0 c Hnormal) as Hlast.
  fold c1 in Hlast.
  assert (Hset : ~ lastTimestamp c1 == 0) by (rewrite Hlast; exact Ht0).
  destruct (deltaTime_reachable (xs ++ [Frame t0]) (t0 + 1000 * g))
    as [Hd Hs].
  { rewrite run_app. exact Hset. }
  rewrite run_app in Hd, Hs. cbn [run exec] in Hd, Hs.
  fold c c1 in Hd, Hs. fold c2 in Hd, Hs.
  rewrite Hlast in Hd.
  assert (Hg : (t0 + 1000 * g - t0) / 1000 == g) by (field; discriminate).
  rewrite Hg in Hd.
  assert (Heq : deltaTime c2 == Qmin g 0.1 * timeScale c2)
    by (rewrite Hd, Hs; ring).
  split; [exact Heq|].
  rewrite Heq, Hs.
  apply Qmult_le_compat_r; [apply Q.le_min_r | discriminate].
Qed.

(** *** The progress of a tween stays in the unit interval *)

Lemma clamped_ratio_unit (x d : Q) : ~ d == 0 -> in_unit (clamped_ratio x d).
Proof.
  intros Hd. unfold clamped_ratio.
  destruct (Qeq_bool d 0) eqn:E; [apply Qeq_bool_iff in E; contradiction|].
  simpl. split; [apply Q.le_max_l|].
  apply Q.max_lub; [discriminate | apply Q.le_min_l].
Qed.

Lemma advance_progress (d : Q) (key : string) (a : tween) (tr : trace) :
  ~ duration a == 0 /\ in_unit (progress a) ->
  let a' := fst (state_of (advance d key a tr)) in
  ~ duration a' == 0 /\ in_unit (progress a').
Proof.
  intros [Hd Ha]. unfold advance.
  destruct (negb (isPlaying a) || isComplete a); [split; assumption|].
  cbv zeta.
  set (p := clamped_ratio _ _).
  assert (Hp : in_unit p) by (apply clamped_ratio_unit; exact Hd).
  destruct (interpolate _ _ _); simpl;
    (destruct (onUpdate a _ _); simpl; [|split; assumption]);
    (match goal with |- context [if ?b then _ else _] => destruct b end;
     simpl; [|split; assumption]);
    (destruct (yoyo a); simpl; [split; assumption|]);
    (destruct (Z.ltb (repeatCount a) (repeat a)); simpl;
     [split; [assumption | split; discriminate]|]);
    destruct (onComplete a); simpl; split; assumption.
Qed.

Lemma forEach_animations_progress (d : Q) (m : registry) (tr : trace) :
  unit_progress m ->
  unit_progress (fst (state_of (forEach_animations d m tr))).
Proof.
  revert tr; induction m as [|[k a] rest IH]; intros tr Hm; simpl.
  - constructor.
  - inversion Hm as [|? ? Ha Hrest]; subst; simpl in Ha.
    pose proof (advance_progress d k a tr Ha) as H1.
    destruct (advance d k a tr) as [[a' tr']|[a' tr']]; simpl in H1.
    + specialize (IH tr' Hrest).
      destruct (forEach_animations d rest tr') as [[r t]|[r t]];
        simpl in *; constructor; auto.
    + simpl; constructor; auto.
Qed.

Lemma map_set_progress (key : string) (a : tween) (m : registry) :
  ~ duration a == 0 /\ in_unit (progress a) -> unit_progress m ->
  unit_progress (map_set key a m).
Proof.
  intros Ha Hm. induction Hm as [|[k b] rest Hb Hrest IH]; simpl.
  - constructor; [exact Ha | constructor].
  - destruct (String.eqb k key); constructor; auto.
Qed.

Lemma map_get_progress (key : string) (a : tween) (m : registry) :
  unit_progress m -> map_get key m = Some a ->
  ~ duration a == 0 /\ in_unit (progress a).
Proof.
  intros Hm. induction Hm as [|[k b] rest Hb Hrest IH]; simpl.
  - discriminate.
  - destruct (String.eqb k key); auto. intros [= <-]. exact Hb.
Qed.

Lemma updateAnimations_progress (d : Q) (c : controller) :
  unit_progress (animations c) ->
  unit_progress (animations (state_of (updateAnimations d c))).
Proof.
  intros Hc. unfold updateAnimations.
  pose proof (forEach_animations_progress d (animations c) (log c) Hc) as H.
  destruct (forEach_animations d (animations c) (log c)); simpl in *; auto.
Qed.

Lemma playAnimation_progress (key : string) (c : controller) :
  unit_progress (animations c) ->
  unit_progress (animations (state_of (playAnimation key c))).
Proof.
  intros Hc. unfold playAnimation.
  destruct (map_get key (animations c)) as [a|] eqn:E; simpl; auto.
  assert (unit_progress
            (map_set key (set_isComplete false (set_isPlaying true a))
               (animations c))).
  { apply map_set_progress; auto. simpl.
    eapply map_get_progress; eauto. }
  destruct (onStart a); simpl; auto.
Qed.

Lemma animate_progress (timestamp : Q) (c : controller) :
  unit_progress (animations c) ->
  unit_progress (animations (state_of (animate timestamp c))).
Proof.
  intros Hc. unfold animate.
  set (c0 := if Qeq_bool (lastTimestamp c) 0 then _ else c).
  assert (H0 : animations c0 = animations c)
    by (subst c0; destruct (Qeq_bool (lastTimestamp c) 0); reflexivity).
  set (c1 := set_deltaTime _ c0).
  assert (H1 : unit_progress (animations c1))
    by (subst c1; simpl; rewrite H0; exact Hc).
  destruct (negb (isPaused c1)); [|simpl; rewrite H0; exact Hc].
  pose proof (updateAnimations_progress (deltaTime c1) c1 H1) as H.
  destruct (updateAnimations (deltaTime c1) c1) as [c2|c2];
    cbn [state_of] in *; simpl; exact H.
Qed.

Lemma exec_progress (x : call) (c : controller) :
  valid_call x -> unit_progress (animations c) ->
  unit_progress (animations (state_of (exec x c))).
Proof.
  intros Hx Hc. destruct x; simpl; auto.
  - apply map_set_progress; auto. simpl.
    split; [exact Hx | split; discriminate].
  - now apply playAnimation_progress.
  - now apply animate_progress.
  - now apply updateAnimations_progress.
  - constructor.
Qed.

Lemma run_progress (xs : list call) (c : controller) :
  Forall valid_call xs -> unit_progress (animations c) ->
  unit_progress (animations (run xs c)).
Proof.
  intros Hxs; revert c.
  induction Hxs as [|x xs Hx Hxs IH]; intros c Hc; simpl; auto.
  apply IH, exec_progress; assumption.
Qed.

(** C4. After any sequence of calls on a fresh controller (frames at
    arbitrary timestamps, direct ticks, creations with a non-zero duration,
    plays...), hence at the end of every tick, every registered tween has
    [0 <= progress <= 1]. *)
Theorem progress_in_unit_interval
  (xs : list call) (key : string) (a : tween) :
  Forall valid_call xs ->
  tween_at key (run xs new_controller) = Some a ->
  exists p, progress a = Some p /\ 0 <= p <= 1.
Proof.
  intros Hxs Hget.
  assert (H : in_unit (progress a)).
  { eapply map_get_progress; [|exact Hget].
    apply run_progress; [exact Hxs | constructor]. }
  destruct (progress a) as [p|]; [exists p; auto | contradiction].
Qed.

(** A tween of duration 0 ticked with a step of 0 has NaN as its progress. *)
Lemma zero_duration_gives_NaN :
  option_map progress
    (tween_at "z"
       (run [CreateAnimation "z" (plain_config (Num 0) (Num 1) 0);
             PlayAnimation "z"; Tick 0] new_controller))
  = Some None.
Proof. reflexivity. Qed.

(** *** How often onComplete fires *)

Lemma advance_potential (key : string) (d : Q) (k : string) (a : tween)
  (tr : trace) (rest : registry) :
  let r := state_of (advance d k a tr) in
  (completions key (snd r) + pending key ((k, fst r) :: rest)
   <= completions key tr + pending key ((k, a) :: rest))%nat.
Proof.
  unfold advance.
  destruct (negb (isPlaying a) || isComplete a) eqn:Hskip; [simpl; lia|].
  apply orb_false_elim in Hskip as [_ Hdone].
  cbv zeta.
  destruct (interpolate _ _ _); simpl;
    (destruct (onUpdate a _ _); simpl; [|lia]);
    (match goal with |- context [if ?b then _ else _] => destruct b end;
     simpl; [|lia]);
    (destruct (yoyo a); simpl; [lia|]);
    (destruct (Z.ltb (repeatCount a) (repeat a)); simpl; [lia|]);
    destruct (onComplete a); simpl; rewrite Hdone;
    destruct (String.eqb k key); simpl; lia.
Qed.

Lemma advance_mono (key : string) (d : Q) (k : string) (a : tween)
  (tr : trace) :
  (completions key tr
   <= completions key (snd (state_of (advance d k a tr))))%nat.
Proof.
  unfold advance.
  destruct (negb (isPlaying a) || isComplete a); [simpl; lia|].
  cbv zeta.
  destruct (interpolate _ _ _); simpl;
    (destruct (onUpdate a _ _); simpl; [|lia]);
    (match goal with |- context [if ?b then _ else _] => destruct b end;
     simpl; [|lia]);
    (destruct (yoyo a); simpl; [lia|]);
    (destruct (Z.ltb (repeatCount a) (repeat a)); simpl; [lia|]);
    destruct (onComplete a); simpl; destruct (String.eqb k key); lia.
Qed.

Lemma forEach_animations_potential (key : string) (d : Q) (m : registry)
  (tr : trace) :
  let r := state_of (forEach_animations d m tr) in
  (completions key (snd r) + pending key (fst r)
   <= completions key tr + pending key m)%nat.
Proof.
  revert tr; induction m as [|[k a] rest IH]; intros tr; [simpl; lia|].
  cbn [forEach_animations].
  pose proof (advance_potential key d k a tr) as H1.
  destruct (advance d k a tr) as [[a' tr']|[a' tr']];
    cbn [state_of fst snd] in *.
  - specialize (IH tr'). specialize (H1 rest).
    destruct (forEach_animations d rest tr') as [[r t]|[r t]];
      cbn [state_of fst snd] in *; cbn [pending] in *;
      destruct (String.eqb k key && negb (isComplete a'));
      destruct (String.eqb k key && negb (isComplete a)); lia.
  - apply H1.
Qed.

Lemma forEach_animations_mono (key : string) (d : Q) (m : registry)
  (tr : trace) :
  (completions key tr
   <= completions key (snd (state_of (forEach_animations d m tr))))%nat.
Proof.
  revert tr; induction m as [|[k a] rest IH]; intros tr; [simpl; lia|].
  cbn [forEach_animations].
  pose proof (advance_mono key d k a tr) as H1.
  destruct (advance d k a tr) as [[a' tr']|[a' tr']];
    cbn [state_of fst snd] in *.
  - specialize (IH tr').
    destruct (forEach_animations d rest tr') as [[r t]|[r t]];
      cbn [state_of fst snd] in *; lia.
  - exact H1.
Qed.

Lemma forEach_callbacks_completions (key : string) (n k : nat) (d ts : Q)
  (cbs : list frame_cb) (tr : trace) :
  completions key (snd (forEach_callbacks n k d ts cbs tr))
  = completions key tr.
Proof.
  revert k cbs tr; induction n as [|n IH]; intros k cbs tr; simpl; auto.
  destruct (nth_error cbs k) as [cb|]; [|apply IH].
  destruct (cb_run cb d ts); rewrite IH; reflexivity.
Qed.

Lemma map_set_pending_other (key k : string) (a : tween) (m : registry) :
  String.eqb k key = false -> pending key (map_set k a m) = pending key m.
Proof.
  intros Hk. induction m as [|[k0 b] rest IH]; simpl.
  - now rewrite Hk.
  - destruct (String.eqb k0 k) eqn:E; simpl.
    + apply String.eqb_eq in E; subst k0. now rewrite Hk.
    + now rewrite IH.
Qed.

(** The potential of a key: completions so far plus entries still armed. *)
Lemma updateAnimations_potential (key : string) (d : Q) (c : controller) :
  let c' := state_of (updateAnimations d c) in
  (completions key (log c') + pending key (animations c')
   <= completions key (log c) + pending key (animations c))%nat
  /\ (completions key (log c) <= completions key (log c'))%nat.
Proof.
  unfold updateAnimations.
  pose proof (forEach_animations_potential key d (animations c) (log c)) as H.
  pose proof (forEach_animations_mono key d (animations c) (log c)) as H'.
  destruct (forEach_animations d (animations c) (log c)); simpl in *; auto.
Qed.

Lemma animate_potential (key : string) (timestamp : Q) (c : controller) :
  let c' := state_of (animate timestamp c) in
  (completions key (log c') + pending key (animations c')
   <= completions key (log c) + pending key (animations c))%nat
  /\ (completions key (log c) <= completions key (log c'))%nat.
Proof.
  unfold animate.
  set (c0 := if Qeq_bool (lastTimestamp c) 0 then _ else c).
  assert (H0 : animations c0 = animations c /\ log c0 = log c)
    by (subst c0; destruct (Qeq_bool (lastTimestamp c) 0); auto).
  destruct H0 as [Ha Hl]. rewrite <- Ha, <- Hl.
  set (c1 := set_deltaTime _ c0).
  change (animations c0) with (animations c1).
  change (log c0) with (log c1).
  destruct (negb (isPaused c1)); [|simpl; lia].
  pose proof (updateAnimations_potential key (deltaTime c1) c1) as H.
  destruct (updateAnimations (deltaTime c1) c1) as [c2|c2];
    cbn [state_of] in *; [|exact H].
  simpl. rewrite forEach_callbacks_completions. exact H.
Qed.

Lemma playAnimation_potential (key k : string) (c : controller) :
  String.eqb k key = false ->
  let c' := state_of (playAnimation k c) in
  completions key (log c') = completions key (log c)
  /\ pending key (animations c') = pending key (animations c).
Proof.
  intros Hk. unfold playAnimation.
  destruct (map_get k (animations c)) as [a|]; simpl; auto.
  destruct (onStart a); simpl; rewrite map_set_pending_other; auto.
Qed.

Lemma exec_potential (key : string) (x : call) (c : controller) :
  rearms key x = false ->
  let c' := state_of (exec x c) in
  (completions key (log c') + pending key (animations c')
   <= completions key (log c) + pending key (animations c))%nat
  /\ (completions key (log c) <= completions key (log c'))%nat.
Proof.
  intros Hx. destruct x; simpl in *; try lia.
  - rewrite map_set_pending_other by exact Hx. lia.
  - destruct (playAnimation_potential key key0 c Hx) as [-> ->]. lia.
  - apply animate_potential.
  - apply updateAnimations_potential.
Qed.

Lemma run_potential (key : string) (xs : list call) (c : controller) :
  forallb (fun x => negb (rearms key x)) xs = true ->
  (completions key (log (run xs c)) + pending key (animations (run xs c))
   <= completions key (log c) + pending key (animations c))%nat
  /\ (completions key (log c) <= completions key (log (run xs c)))%nat.
Proof.
  revert c; induction xs as [|x xs IH]; intros c Hxs; simpl in *; [lia|].
  apply andb_prop in Hxs as [Hx Hxs]. apply negb_true_iff in Hx.
  specialize (IH (state_of (exec x c)) Hxs).
  pose proof (exec_potential key x c Hx) as H. simpl in H. lia.
Qed.

(** The registry never holds a key twice. *)
Lemma map_set_keys_in (k k' : string) (a : tween) (m : registry) :
  In k' (keys (map_set k a m)) -> k' = k \/ In k' (keys m).
Proof.
  induction m as [|[k0 b] rest IH]; simpl.
  - intros [H|[]]; auto.
  - destruct (String.eqb k0 k); simpl; intros [H|H]; auto.
    destruct (IH H); auto.
Qed.

Lemma map_set_NoDup (k : string) (a : tween) (m : registry) :
  NoDup (keys m) -> NoDup (keys (map_set k a m)).
Proof.
  induction m as [|[k0 b] rest IH]; simpl; intros Hm.
  - constructor; [intros [] | constructor].
  - inversion Hm as [|? ? Hnot Hrest]; subst.
    destruct (String.eqb k0 k) eqn:E; simpl; [exact Hm|].
    constructor; [|auto].
    intros Hin. apply map_set_keys_in in Hin as [->|Hin]; [|auto].
    rewrite String.eqb_refl in E; discriminate.
Qed.

Lemma forEach_animations_keys (d : Q) (m : registry) (tr : trace) :
  keys (fst (state_of (forEach_animations d m tr))) = keys m.
Proof.
  revert tr; induction m as [|[k a] rest IH]; intros tr; simpl; auto.
  destruct (advance d k a tr) as [[a' tr']|[a' tr']]; simpl; auto.
  specialize (IH tr').
  destruct (forEach_animations d rest tr') as [[r t]|[r t]]; simpl in *;
    now rewrite IH.
Qed.

Lemma updateAnimations_keys (d : Q) (c : controller) :
  keys (animations (state_of (updateAnimations d c))) = keys (animations c).
Proof.
  unfold updateAnimations.
  pose proof (forEach_animations_keys d (animations c) (log c)) as H.
  destruct (forEach_animations d (animations c) (log c)); simpl in *; auto.
Qed.

Lemma animate_keys (timestamp : Q) (c : controller) :
  keys (animations (state_of (animate timestamp c))) = keys (animations c).
Proof.
  unfold animate.
  set (c0 := if Qeq_bool (lastTimestamp c) 0 then _ else c).
  assert (Ha : animations c0 = animations c)
    by (subst c0; destruct (Qeq_bool (lastTimestamp c) 0); auto).
  rewrite <- Ha.
  set (c1 := set_deltaTime _ c0).
  change (animations c0) with (animations c1).
  destruct (negb (isPaused c1)); [|reflexivity].
  pose proof (updateAnimations_keys (deltaTime c1) c1) as H.
  destruct (updateAnimations (deltaTime c1) c1) as [c2|c2];
    cbn [state_of] in *; exact H.
Qed.

Lemma exec_NoDup (x : call) (c : controller) :
  NoDup (keys (animations c)) ->
  NoDup (keys (animations (state_of (exec x c)))).
Proof.
  intros Hc. destruct x; simpl; auto.
  - now apply map_set_NoDup.
  - unfold playAnimation.
    destruct (map_get key (animations c)) as [a|]; simpl; auto.
    destruct (onStart a); simpl; now apply map_set_NoDup.
  - now rewrite animate_keys.
  - now rewrite updateAnimations_keys.
  - constructor.
Qed.

Lemma run_NoDup (xs : list call) (c : controller) :
  NoDup (keys (animations c)) -> NoDup (keys (animations (run xs c))).
Proof.
  revert c; induction xs as [|x xs IH]; intros c Hc; simpl; auto.
  apply IH, exec_NoDup, Hc.
Qed.

Lemma pending_absent (key : string) (m : registry) :
  ~ In key (keys m) -> pending key m = 0%nat.
Proof.
  induction m as [|[k a] rest IH]; simpl; auto.
  intros Hnot. destruct (String.eqb k key) eqn:E; simpl.
  - apply String.eqb_eq in E. exfalso; apply Hnot; left; exact E.
  - apply IH. intro H; apply Hnot; right; exact H.
Qed.

Lemma pending_bound (key : string) (m : registry) :
  NoDup (keys m) ->
  (pending key m <= 1)%nat
  /\ (forall a, map_get key m = Some a -> isComplete a = true ->
      pending key m = 0%nat).
Proof.
  induction m as [|[k a] rest IH]; simpl; intros Hm.
  - split; [lia | discriminate].
  - inversion Hm as [|? ? Hnot Hrest]; subst.
    destruct (IH Hrest) as [IH1 IH2].
    destruct (String.eqb k key) eqn:E; simpl; [|auto].
    apply String.eqb_eq in E; subst k.
    rewrite (pending_absent key rest Hnot).
    split; [destruct (negb (isComplete a)); lia|].
    intros b [= <-] Hb. now rewrite Hb.
Qed.

(** The potential is kept exactly by everything but [destroy]: a visit that
    completes the tween under [key] invokes its [onComplete] exactly once. *)
Lemma advance_potential_exact (key : string) (d : Q) (k : string) (a : tween)
  (tr : trace) (rest : registry) :
  let r := state_of (advance d k a tr) in
  (completions key (snd r) + pending key ((k, fst r) :: rest)
   = completions key tr + pending key ((k, a) :: rest))%nat.
Proof.
  unfold advance.
  destruct (negb (isPlaying a) || isComplete a) eqn:Hskip; [simpl; lia|].
  apply orb_false_elim in Hskip as [_ Hdone].
  cbv zeta.
  destruct (interpolate _ _ _); simpl;
    (destruct (onUpdate a _ _); simpl; [|lia]);
    (match goal with |- context [if ?b then _ else _] => destruct b end;
     simpl; [|lia]);
    (destruct (yoyo a); simpl; [lia|]);
    (destruct (Z.ltb (repeatCount a) (repeat a)); simpl; [lia|]);
    destruct (onComplete a); simpl; rewrite Hdone;
    destruct (String.eqb k key); simpl; lia.
Qed.

Lemma forEach_animations_potential_exact (key : string) (d : Q)
  (m : registry) (tr : trace) :
  let r := state_of (forEach_animations d m tr) in
  (completions key (snd r) + pending key (fst r)
   = completions key tr + pending key m)%nat.
Proof.
  revert tr; induction m as [|[k a] rest IH]; intros tr; [simpl; lia|].
  cbn [forEach_animations].
  pose proof (advance_potential_exact key d k a tr) as H1.
  destruct (advance d k a tr) as [[a' tr']|[a' tr']];
    cbn [state_of fst snd] in *.
  - specialize (IH tr'). specialize (H1 rest).
    destruct (forEach_animations d rest tr') as [[r t]|[r t]];
      cbn [state_of fst snd] in *; cbn [pending] in *;
      destruct (String.eqb k key && negb (isComplete a'));
      destruct (String.eqb k key && negb (isComplete a)); lia.
  - apply H1.
Qed.

Lemma updateAnimations_potential_exact (key : string) (d : Q)
  (c : controller) :
  let c' := state_of (updateAnimations d c) in
  (completions key (log c') + pending key (animations c')
   = completions key (log c) + pending key (animations c))%nat.
Proof.
  unfold updateAnimations.
  pose proof (forEach_animations_potential_exact key d (animations c) (log c))
    as H.
  destruct (forEach_animations d (animations c) (log c)); simpl in *; auto.
Qed.

Lemma animate_potential_exact (key : string) (timestamp : Q)
  (c : controller) :
  let c' := state_of (animate timestamp c) in
  (completions key (log c') + pending key (animations c')
   = completions key (log c) + pending key (animations c))%nat.
Proof.
  unfold animate.
  set (c0 := if Qeq_bool (lastTimestamp c) 0 then _ else c).
  assert (H0 : animations c0 = animations c /\ log c0 = log c)
    by (subst c0; destruct (Qeq_bool (lastTimestamp c) 0); auto).
  destruct H0 as [Ha Hl]. rewrite <- Ha, <- Hl.
  set (c1 := set_deltaTime _ c0).
  change (animations c0) with (animations c1).
  change (log c0) with (log c1).
  destruct (negb (isPaused c1)); [|simpl; lia].
  pose proof (updateAnimations_potential_exact key (deltaTime c1) c1) as H.
  destruct (updateAnimations (deltaTime c1) c1) as [c2|c2];
    cbn [state_of] in *; [|exact H].
  simpl. rewrite forEach_callbacks_completions. exact H.
Qed.

Lemma exec_potential_exact (key : string) (x : call) (c : controller) :
  rearms key x = false -> x <> Destroy ->
  let c' := state_of (exec x c) in
  (completions key (log c') + pending key (animations c')
   = completions key (log c) + pending key (animations c))%nat.
Proof.
  intros Hx Hd. destruct x; simpl in *; try lia.
  - rewrite map_set_pending_other by exact Hx. lia.
  - destruct (playAnimation_potential key key0 c Hx) as [-> ->]. lia.
  - apply animate_potential_exact.
  - apply updateAnimations_potential_exact.
  - contradiction.
Qed.

Lemma map_get_None (key : string) (m : registry) :
  map_get key m = None <-> ~ In key (keys m).
Proof.
  induction m as [|[k a] rest IH]; simpl.
  - split; [intros _ [] | reflexivity].
  - destruct (String.eqb k key) eqn:E.
    + apply String.eqb_eq in E. split; [discriminate|].
      intros H. exfalso. apply H. left. exact E.
    + apply String.eqb_neq in E. rewrite IH. split.
      * intros H [H'|H']; [contradiction | exact (H H')].
      * intros H H'. apply H. right. exact H'.
Qed.

(** A key that is not registered stays so until it is created. *)
Lemma exec_absent (key : string) (x : call) (c : controller) :
  rearms key x = false ->
  tween_at key c = None -> tween_at key (state_of (exec x c)) = None.
Proof.
  unfold tween_at. rewrite !map_get_None. intros Hx Hc.
  destruct x; simpl in *; auto.
  - intros Hin. apply map_set_keys_in in Hin as [->|Hin]; [|auto].
    rewrite String.eqb_refl in Hx. discriminate.
  - unfold playAnimation.
    destruct (map_get key0 (animations c)) as [a|]; simpl; auto.
    assert (H : ~ In key (keys (map_set key0
                  (set_isComplete false (set_isPlaying true a))
                  (animations c)))).
    { intros Hin. apply map_set_keys_in in Hin as [->|Hin]; [|auto].
      rewrite String.eqb_refl in Hx. discriminate. }
    destruct (onStart a); simpl; exact H.
  - now rewrite animate_keys.
  - now rewrite updateAnimations_keys.
Qed.

Lemma run_absent (key : string) (xs : list call) (c : controller) :
  forallb (fun x => negb (rearms key x)) xs = true ->
  tween_at key c = None -> tween_at key (run xs c) = None.
Proof.
  revert c; induction xs as [|x xs IH]; intros c Hxs Hc; simpl in *; auto.
  apply andb_prop in Hxs as [Hx Hxs]. apply negb_true_iff in Hx.
  apply IH; [exact Hxs|]. now apply exec_absent.
Qed.

Lemma run_potential_exact (key : string) (xs : list call) (c : controller)
  (a' : tween) :
  forallb (fun x => negb (rearms key x)) xs = true ->
  tween_at key (run xs c) = Some a' ->
  (completions key (log (run xs c)) + pending key (animations (run xs c))
   = completions key (log c) + pending key (animations c))%nat.
Proof.
  revert c; induction xs as [|x xs IH]; intros c Hxs Hend; simpl in *;
    [reflexivity|].
  apply andb_prop in Hxs as [Hx Hxs]. apply negb_true_iff in Hx.
  assert (Hd : x <> Destroy).
  { intros ->. simpl in Hend.
    rewrite (run_absent key xs (destroy c) Hxs) in Hend; [discriminate|].
    reflexivity. }
  rewrite (IH (state_of (exec x c)) Hxs Hend).
  exact (exec_potential_exact key x c Hx Hd).
Qed.

Lemma pending_exact (key : string) (m : registry) :
  NoDup (keys m) ->
  pending key m
  = match map_get key m with
    | Some a => if isComplete a then 0%nat else 1%nat
    | None => 0%nat
    end.
Proof.
  induction m as [|[k a] rest IH]; simpl; intros Hm; [reflexivity|].
  inversion Hm as [|? ? Hnot Hrest]; subst.
  destruct (String.eqb k key) eqn:E; simpl; [|auto].
  apply String.eqb_eq in E; subst k.
  rewrite (pending_absent key rest Hnot).
  destruct (isComplete a); reflexivity.
Qed.

(** C6 (as amended). From any reachable state and over any calls that do not
    play or re-create the tween under [key], [onComplete] of that tween is
    invoked exactly once when the tween completes, and never besides: the
    number of invocations rises by one if the tween, registered and not
    complete before, is complete afterwards, and by none if it is still not
    complete; in any case by at most one, and by none when the tween is
    already complete.  Ticks alone never fire it a second time. *)
Theorem onComplete_once_per_play (pre xs : list call) (key : string) :
  forallb (fun x => negb (rearms key x)) xs = true ->
  let c := run pre new_controller in
  (completions key (log (run xs c)) <= completions key (log c) + 1)%nat
  /\ (forall a, tween_at key c = Some a -> isComplete a = true ->
      completions key (log (run xs c)) = completions key (log c))
  /\ (forall a a', tween_at key c = Some a -> isComplete a = false ->
      tween_at key (run xs c) = Some a' ->
      completions key (log (run xs c))
      = (completions key (log c) + if isComplete a' then 1 else 0)%nat).
Proof.
  intros Hxs c.
  destruct (run_potential key xs c Hxs) as [Hpot Hmono].
  assert (Hnd : NoDup (keys (animations c)))
    by (apply run_NoDup; constructor).
  destruct (pending_bound key (animations c) Hnd) as [H1 H0].
  split; [lia|]. split.
  - intros a Ha Hdone. rewrite (H0 a Ha Hdone) in Hpot. lia.
  - intros a a' Ha Hnot Hend.
    pose proof (run_potential_exact key xs c a' Hxs Hend) as Heq.
    rewrite (pending_exact key (animations c) Hnd) in Heq.
    rewrite (pending_exact key (animations (run xs c))
               (run_NoDup xs c Hnd)) in Heq.
    unfold tween_at in Ha, Hend. rewrite Ha, Hend, Hnot in Heq.
    destruct (isComplete a'); lia.
Qed.

(** What [playAnimation] makes of a tween that completed forwards: the next
    visit finds [currentTime] at or past [duration], completes the tween
    again and invokes [onComplete] again. *)
Lemma replay_completes_again (d : Q) (key : string) (a : tween) (tr : trace) :
  0 <= d -> 0 < duration a -> duration a <= currentTime a ->
  reverse a = false -> yoyo a = false -> (repeat a <= repeatCount a)%Z ->
  (forall v e, onUpdate a v e = Returns) ->
  let a' := set_isComplete false (set_isPlaying true a) in
  exists v e,
    snd (state_of (advance d key a' tr))
    = EvComplete key :: EvUpdate key v e :: tr.
Proof.
  intros Hd Hdur Hct Hrev Hyoyo Hrep Hupd a'. subst a'.
  unfold advance. cbn [isPlaying isComplete set_isComplete set_isPlaying
                        negb orb].
  cbv zeta.
  assert (Hp : at_least_one
                 (clamped_ratio (currentTime a + d * 1) (duration a)) = true).
  { unfold clamped_ratio.
    destruct (Qeq_bool (duration a) 0) eqn:E.
    - apply Qeq_bool_iff in E. rewrite E in Hdur.
      exfalso. revert Hdur. apply Qlt_irrefl.
    - simpl. apply Qle_bool_iff.
      eapply Qle_trans; [|apply Q.le_max_r].
      apply Q.min_glb; [apply Qle_refl|].
      apply Qle_shift_div_l; [exact Hdur|].
      rewrite Qmult_1_l, Qmult_1_r.
      rewrite <- (Qplus_0_r (duration a)).
      apply Qplus_le_compat; assumption. }
  destruct (interpolate _ _ _); simpl; rewrite Hrev; simpl;
    rewrite Hupd, Hp; simpl; rewrite Hyoyo;
    (destruct (Z.ltb (repeatCount a) (repeat a)) eqn:E;
     [apply Z.ltb_lt in E; lia|]);
    destruct (onComplete a); simpl; eauto.
Qed.

(** *** The yoyo branch of updateAnimations *)

(** A tween whose [yoyo] field is true is never completed by a visit. *)
Lemma advance_yoyo_never_completes (d : Q) (key : string) (a : tween)
  (tr : trace) :
  yoyo a = true -> isComplete a = false ->
  let a' := fst (state_of (advance d key a tr)) in
  yoyo a' = true /\ isComplete a' = false.
Proof.
  intros Hy Hc. unfold advance.
  destruct (negb (isPlaying a) || isComplete a); [auto|].
  cbv zeta.
  destruct (interpolate _ _ _); simpl;
    (destruct (onUpdate a _ _); simpl; [|auto]);
    (match goal with |- context [if ?b then _ else _] => destruct b end;
     simpl; [|auto]);
    rewrite Hy; simpl; auto.
Qed.

(** With [yoyo] true on the tween, 1 s of ticks reaches progress 1 and turns
    the tween around, and 2 s bring it back to progress 0, not complete. *)
Lemma yoyo_branch_round_trip :
  let a16 := visits 16 0.0625 "pulse" yoyo_tween in
  let a32 := visits 32 0.0625 "pulse" yoyo_tween in
  is_num (progress a16) 1 /\ reverse a16 = true /\ isComplete a16 = false
  /\ is_num (progress a32) 0 /\ reverse a32 = false
  /\ isComplete a32 = false /\ isPlaying a32 = true.
Proof. vm_compute. repeat split; discriminate. Qed.

(** ** Further properties of the animation controller *)

(** *** Invariants of the registered tweens *)

Lemma map_set_Forall (P : tween -> Prop) (key : string) (a : tween)
  (m : registry) :
  P a -> Forall (fun entry => P (snd entry)) m ->
  Forall (fun entry => P (snd entry)) (map_set key a m).
Proof.
  intros Ha Hm. induction Hm as [|[k b] rest Hb Hrest IH]; simpl.
  - constructor; [exact Ha | constructor].
  - destruct (String.eqb k key); constructor; auto.
Qed.

Lemma map_get_Forall (P : tween -> Prop) (key : string) (a : tween)
  (m : registry) :
  Forall (fun entry => P (snd entry)) m -> map_get key m = Some a -> P a.
Proof.
  intros Hm. induction Hm as [|[k b] rest Hb Hrest IH]; simpl.
  - discriminate.
  - destruct (String.eqb k key); auto. intros [= <-]. exact Hb.
Qed.

Lemma forEach_animations_Forall (P : tween -> Prop) (d : Q) :
  (forall k a tr, P a -> P (fst (state_of (advance d k a tr)))) ->
  forall (m : registry) (tr : trace),
    Forall (fun entry => P (snd entry)) m ->
    Forall (fun entry => P (snd entry))
      (fst (state_of (forEach_animations d m tr))).
Proof.
  intros Hadv m. induction m as [|[k a] rest IH]; intros tr Hm; simpl.
  - constructor.
  - inversion Hm as [|? ? Ha Hrest]; subst; simpl in Ha.
    pose proof (Hadv k a tr Ha) as H1.
    destruct (advance d k a tr) as [[a' tr']|[a' tr']]; simpl in H1.
    + specialize (IH tr' Hrest).
      destruct (forEach_animations d rest tr') as [[r t]|[r t]];
        simpl in IH |- *; constructor; auto.
    + simpl; constructor; auto.
Qed.

Lemma updateAnimations_Forall (P : tween -> Prop) (d : Q) (c : controller) :
  (forall k a tr, P a -> P (fst (state_of (advance d k a tr)))) ->
  Forall (fun entry => P (snd entry)) (animations c) ->
  Forall (fun entry => P (snd entry))
    (animations (state_of (updateAnimations d c))).
Proof.
  intros Hadv Hc. unfold updateAnimations.
  pose proof (forEach_animations_Forall P d Hadv (animations c) (log c) Hc)
    as H.
  destruct (forEach_animations d (animations c) (log c)); simpl in H |- *;
    exact H.
Qed.

Lemma animate_Forall (P : tween -> Prop) (timestamp : Q) (c : controller) :
  (forall d k a tr, P a -> P (fst (state_of (advance d k a tr)))) ->
  Forall (fun entry => P (snd entry)) (animations c) ->
  Forall (fun entry => P (snd entry))
    (animations (state_of (animate timestamp c))).
Proof.
  intros Hadv Hc. unfold animate.
  set (c0 := if Qeq_bool (lastTimestamp c) 0 then _ else c).
  assert (H0 : animations c0 = animations c)
    by (subst c0; destruct (Qeq_bool (lastTimestamp c) 0); reflexivity).
  set (c1 := set_deltaTime _ c0).
  assert (H1 : Forall (fun entry => P (snd entry)) (animations c1))
    by (subst c1; simpl; rewrite H0; exact Hc).
  destruct (negb (isPaused c1)); [|simpl; rewrite H0; exact Hc].
  pose proof (updateAnimations_Forall P (deltaTime c1) c1
                (Hadv (deltaTime c1)) H1) as H.
  destruct (updateAnimations (deltaTime c1) c1) as [c2|c2];
    cbn [state_of] in H |- *; simpl; exact H.
Qed.

(** A property of tweens that creation establishes and that a visit and
    [playAnimation] keep holds of every tween of every reachable registry. *)
Lemma run_tween_invariant (P : tween -> Prop) (ok : call -> Prop) :
  (forall key cfg c a,
      ok (CreateAnimation key cfg) ->
      map_get key (animations (fst (createAnimation key cfg c))) = Some a ->
      P a) ->
  (forall d k a tr, P a -> P (fst (state_of (advance d k a tr)))) ->
  (forall a, P a -> P (set_isComplete false (set_isPlaying true a))) ->
  forall (xs : list call) (c : controller),
    Forall ok xs ->
    Forall (fun entry => P (snd entry)) (animations c) ->
    Forall (fun entry => P (snd entry)) (animations (run xs c)).
Proof.
  intros Hnew Hadv Hplay xs c Hxs; revert c.
  induction Hxs as [|x xs Hx Hxs IH]; intros c Hc; simpl; [exact Hc|].
  apply IH. destruct x; simpl; auto.
  - apply map_set_Forall; [|exact Hc].
    apply (Hnew key cfg c); [exact Hx|].
    unfold createAnimation; simpl. apply map_get_set_same.
  - unfold playAnimation.
    destruct (map_get key (animations c)) as [a|] eqn:E; simpl; auto.
    assert (Forall (fun entry => P (snd entry))
              (map_set key (set_isComplete false (set_isPlaying true a))
                 (animations c))).
    { apply map_set_Forall; [|exact Hc].
      apply Hplay. eapply map_get_Forall; eauto. }
    destruct (onStart a); simpl; auto.
  - apply animate_Forall; auto.
  - apply updateAnimations_Forall; auto.
Qed.

(** *** The yoyo and repeat branches *)

Lemma advance_plain (d : Q) (k : string) (a : tween) (tr : trace) :
  yoyo a = false /\ repeat a = 0%Z /\ repeatCount a = 0%Z
  /\ reverse a = false ->
  let a' := fst (state_of (advance d k a tr)) in
  yoyo a' = false /\ repeat a' = 0%Z /\ repeatCount a' = 0%Z
  /\ reverse a' = false.
Proof.
  intros (Hy & Hr & Hc & Hv). unfold advance.
  destruct (negb (isPlaying a) || isComplete a); [simpl; auto|].
  cbv zeta.
  destruct (interpolate _ _ _); simpl;
    (destruct (onUpdate a _ _); simpl; [|auto]);
    (match goal with |- context [if ?b then _ else _] => destruct b end;
     simpl; [|auto]);
    rewrite Hy, Hr, Hc; simpl; destruct (onComplete a); simpl; auto.
Qed.

(** X1. In every reachable state every registered tween has [yoyo] false,
    [repeat] 0, [repeatCount] 0 and [reverse] false: the yoyo and repeat
    branches of [updateAnimations] are never taken, and no tween ever runs
    backwards. *)
Theorem yoyo_repeat_branches_unreachable
  (xs : list call) (key : string) (a : tween) :
  tween_at key (run xs new_controller) = Some a ->
  yoyo a = false /\ repeat a = 0%Z /\ repeatCount a = 0%Z
  /\ reverse a = false.
Proof.
  intros Hget.
  set (P := fun a : tween =>
              yoyo a = false /\ repeat a = 0%Z /\ repeatCount a = 0%Z
              /\ reverse a = false).
  assert (H : Forall (fun entry => P (snd entry))
                (animations (run xs new_controller))).
  { apply (run_tween_invariant P (fun _ => True)).
    - intros k cfg c b _ Hb. unfold createAnimation in Hb; simpl in Hb.
      rewrite map_get_set_same in Hb. injection Hb as <-.
      unfold P; simpl. auto.
    - intros d k b tr Hb. apply advance_plain, Hb.
    - intros b Hb. exact Hb.
    - apply Forall_forall. intros; exact I.
    - constructor. }
  exact (map_get_Forall P key a _ H Hget).
Qed.

(** *** The curves of the table *)

Lemma Qlt_bool_at_one (t c : Q) : t == 1 -> c < 1 -> Qlt_bool t c = false.
Proof.
  intros Ht Hc. unfold Qlt_bool.
  assert (H : Qle_bool c t = true) by (apply Qle_bool_iff; rewrite Ht; lra).
  now rewrite H.
Qed.

(** Every curve of the table, the elastic one included, ends at 1. *)
Lemma getEasingFunction_ends_at_one (name : string) :
  ends_at_one (getEasingFunction name).
Proof.
  assert (Hquad : ends_at_one easeInOutQuad).
  { intros t Ht. unfold easeInOutQuad.
    rewrite (Qlt_bool_at_one t 0.5 Ht) by reflexivity.
    simpl. rewrite Ht. reflexivity. }
  unfold getEasingFunction.
  destruct (String.eqb name "easeInOutQuad"); [exact Hquad|].
  destruct (String.eqb name "easeInOutCubic").
  { intros t Ht. unfold easeInOutCubic.
    rewrite (Qlt_bool_at_one t 0.5 Ht) by reflexivity.
    simpl. rewrite Ht. reflexivity. }
  destruct (String.eqb name "easeOutElastic").
  { intros t Ht. unfold easeOutElastic.
    assert (H0 : Qeq_bool t 0 = false).
    { destruct (Qeq_bool t 0) eqn:E; [|reflexivity].
      apply Qeq_bool_iff in E. rewrite Ht in E. discriminate E. }
    assert (H1 : Qeq_bool t 1 = true) by (apply Qeq_bool_iff; exact Ht).
    rewrite H0, H1. reflexivity. }
  destruct (String.eqb name "easeOutBounce").
  { intros t Ht. unfold easeOutBounce. cbv zeta.
    rewrite (Qlt_bool_at_one t (1 / 2.75) Ht) by reflexivity.
    rewrite (Qlt_bool_at_one t (2 / 2.75) Ht) by reflexivity.
    rewrite (Qlt_bool_at_one t (2.5 / 2.75) Ht) by reflexivity.
    rewrite Ht. reflexivity. }
  destruct (String.eqb name "easeLaunch").
  { intros t Ht. unfold easeLaunch. simpl. rewrite Ht. reflexivity. }
  destruct (String.eqb name "easeOrbit"); exact Hquad.
Qed.

(** *** What a visit writes *)

(** The [currentValue] a visit leaves. *)
Lemma advance_currentValue (d : Q) (k : string) (a : tween) (tr : trace) :
  currentValue (fst (state_of (advance d k a tr)))
  = if negb (isPlaying a) || isComplete a then currentValue a
    else match interpolate (from a) (to a) (eased_after d a) with
         | Some v => v
         | None => currentValue a
         end.
Proof.
  unfold advance, eased_after.
  destruct (negb (isPlaying a) || isComplete a); [reflexivity|].
  cbv zeta. simpl.
  destruct (interpolate _ _ _); simpl;
    (destruct (onUpdate a _ _); simpl; [|reflexivity]);
    (match goal with |- context [if ?b then _ else _] => destruct b end;
     simpl; [|reflexivity]);
    (destruct (yoyo a); simpl; [reflexivity|]);
    (destruct (Z.ltb (repeatCount a) (repeat a)); simpl; [reflexivity|]);
    destruct (onComplete a); reflexivity.
Qed.

Lemma clamped_ratio_some (x d : Q) :
  ~ d == 0 -> exists p, clamped_ratio x d = Some p /\ 0 <= p <= 1.
Proof.
  intros Hd. pose proof (clamped_ratio_unit x d Hd) as H.
  destruct (clamped_ratio x d) as [p|]; [eauto | contradiction].
Qed.

(** X3. When a visit completes a forward tween between two numbers whose
    duration is not 0 and whose curve is the one [getEasingFunction] returns
    for a name that is not inherited from [Object.prototype], the curve has
    reached 1: the last [onUpdate] before [onComplete] receives an eased
    progress of 1 and the value interpolated with it, and that value is
    left in [currentValue]. *)
Theorem completion_ends_curve_at_one
  (d : Q) (key name : string) (a : tween) (tr : trace) (x y : Q) :
  isComplete a = false ->
  isComplete (fst (state_of (advance d key a tr))) = true ->
  reverse a = false -> ~ duration a == 0 ->
  inherited_name name = false ->
  easing a = getEasingFunction name ->
  from a = Num x -> to a = Num y ->
  snd (state_of (advance d key a tr))
  = EvComplete key
    :: EvUpdate key (CNum (lerp x (Some y) (eased_after d a)))
         (eased_after d a)
    :: tr
  /\ currentValue (fst (state_of (advance d key a tr)))
     = CNum (lerp x (Some y) (eased_after d a))
  /\ is_num (eased_after d a) 1.
Proof.
  intros Hc Hdone Hrev Hdur _ Heasing Hfrom Hto.
  revert Hdone. unfold advance, eased_after. rewrite Hc, Hrev.
  destruct (negb (isPlaying a) || false) eqn:Hskip;
    [simpl; rewrite Hc; discriminate|].
  cbv zeta. simpl.
  destruct (clamped_ratio_some (currentTime a + d * 1) (duration a) Hdur)
    as (p & Hp & Hunit).
  rewrite Hp, Hfrom, Hto. simpl.
  destruct (onUpdate a _ _); simpl; [|rewrite Hc; discriminate].
  rewrite Hrev. simpl. rewrite orb_false_r.
  destruct (Qle_bool 1 p) eqn:Hone; simpl; [|rewrite Hc; discriminate].
  destruct (yoyo a); simpl; [rewrite Hc; discriminate|].
  destruct (Z.ltb (repeatCount a) (repeat a)); simpl;
    [rewrite Hc; discriminate|].
  assert (Hp1 : p == 1).
  { apply Qle_bool_iff in Hone. apply Qle_antisym; tauto. }
  assert (He : easing a p == 1).
  { rewrite Heasing. apply getEasingFunction_ends_at_one, Hp1. }
  intros _.
  destruct (onComplete a); simpl;
    (split; [reflexivity|]); (split; [reflexivity|]); exact He.
Qed.

(** X4. A visit of a playing tween between two arrays leaves an array as long
    as [from]; the element at a position that [to] does not have is NaN, and
    the elements of [to] beyond the length of [from] are ignored. *)
Theorem array_tween_shape
  (d : Q) (key : string) (a : tween) (tr : trace) (xs ys : list Q) :
  isPlaying a = true -> isComplete a = false ->
  from a = Arr xs -> to a = Arr ys ->
  exists l,
    currentValue (fst (state_of (advance d key a tr))) = CArr l
    /\ List.length l = List.length xs
    /\ forall i x,
        nth_error xs i = Some x ->
        nth_error l i = Some (lerp x (nth_error ys i) (eased_after d a)).
Proof.
  intros Hp Hc Hfrom Hto. rewrite advance_currentValue, Hp, Hc, Hfrom, Hto.
  simpl. eexists. split; [reflexivity|].
  generalize (eased_after d a) as e. intros e.
  assert (Hgen : forall (n : nat) (zs : list Q),
             List.length
               (map (fun p : nat * Q => lerp (snd p) (nth_error ys (fst p)) e)
                  (combine (seq n (List.length zs)) zs))
             = List.length zs
             /\ forall i z,
                 nth_error zs i = Some z ->
                 nth_error
                   (map (fun p : nat * Q =>
                           lerp (snd p) (nth_error ys (fst p)) e)
                      (combine (seq n (List.length zs)) zs)) i
                 = Some (lerp z (nth_error ys (n + i)) e)).
  { intros n zs; revert n.
    induction zs as [|z zs IH]; intros n; simpl.
    - split; [reflexivity|]. intros [|i] z0; discriminate.
    - destruct (IH (S n)) as [IHlen IHnth]. split; [now rewrite IHlen|].
      intros [|i] z0; simpl.
      + intros [= <-]. now rewrite Nat.add_0_r.
      + intros Hz. rewrite (IHnth i z0 Hz).
        now rewrite Nat.add_succ_r. }
  exact (Hgen 0%nat xs).
Qed.

(** *** The registry under createAnimation and playAnimation *)

Lemma map_get_set_other (key k : string) (a : tween) (m : registry) :
  String.eqb k key = false -> map_get key (map_set k a m) = map_get key m.
Proof.
  intros Hk. induction m as [|[k0 b] rest IH]; simpl.
  - now rewrite Hk.
  - destruct (String.eqb k0 k) eqn:E; simpl.
    + apply String.eqb_eq in E; subst k0. now rewrite Hk.
    + now rewrite IH.
Qed.

Lemma map_set_keys (k : string) (a : tween) (m : registry) :
  keys (map_set k a m)
  = if existsb (String.eqb k) (keys m) then keys m else keys m ++ [k].
Proof.
  induction m as [|[k0 b] rest IH]; simpl; [reflexivity|].
  rewrite (String.eqb_sym k k0).
  destruct (String.eqb k0 k); simpl; [reflexivity|].
  rewrite IH. destruct (existsb (String.eqb k) (keys rest)); reflexivity.
Qed.

(** X5. [createAnimation] on a key that is registered overwrites the tween
    where it stands: the keys and their order stay, and whatever state the
    old tween had is replaced by the inert start state.  On a new key the
    tween is appended. *)
Theorem createAnimation_overwrites_in_place
  (key : string) (cfg : config) (c : controller) :
  let c' := fst (createAnimation key cfg c) in
  keys (animations c')
  = (if existsb (String.eqb key) (keys (animations c))
     then keys (animations c) else keys (animations c) ++ [key])
  /\ (exists a, tween_at key c' = Some a
                /\ currentTime a = 0 /\ progress a = Some 0
                /\ isPlaying a = false /\ isComplete a = false
                /\ currentValue a = Unassigned)
  /\ (forall k, String.eqb key k = false -> tween_at k c' = tween_at k c)
  /\ log c' = log c.
Proof.
  unfold createAnimation, tween_at; simpl. split; [apply map_set_keys|].
  split.
  - rewrite map_get_set_same. eexists. split; [reflexivity|].
    simpl. repeat split.
  - split; [|reflexivity]. intros k Hk. now apply map_get_set_other.
Qed.

(** X6. [playAnimation] on a registered key sets [isPlaying], clears
    [isComplete] and invokes [onStart], every time it is called; it does not
    rewind: [currentTime], [progress], [currentValue] and [repeatCount] stay,
    and so does every other tween.  The fields are written before [onStart]
    runs, so they are written also when [onStart] throws. *)
Theorem playAnimation_keeps_time (key : string) (c : controller) (a : tween) :
  tween_at key c = Some a ->
  let c' := state_of (playAnimation key c) in
  (exists a', tween_at key c' = Some a'
              /\ isPlaying a' = true /\ isComplete a' = false
              /\ currentTime a' = currentTime a /\ progress a' = progress a
              /\ currentValue a' = currentValue a
              /\ repeatCount a' = repeatCount a)
  /\ (forall k, String.eqb key k = false -> tween_at k c' = tween_at k c)
  /\ log c' = EvStart key :: log c
  /\ keys (animations c') = keys (animations c).
Proof.
  unfold tween_at, playAnimation. intros Hget. rewrite Hget.
  assert (Hin : existsb (String.eqb key) (keys (animations c)) = true).
  { clear -Hget. induction (animations c) as [|[k b] rest IH]; simpl in *.
    - discriminate.
    - rewrite (String.eqb_sym key k).
      destruct (String.eqb k key); [reflexivity | auto]. }
  destruct (onStart (set_isComplete false (set_isPlaying true a))); simpl;
    rewrite map_get_set_same, map_set_keys, Hin;
    (split; [eexists; split; [reflexivity|]; simpl; repeat split|]);
    (split; [intros k Hk; now apply map_get_set_other|]);
    split; reflexivity.
Qed.

(** *** Frames of a paused controller *)

(** X7. While the controller is paused a frame visits no tween and invokes
    no callback: registry, callback list and trace are left as they are, and
    only the clock fields [deltaTime] and [lastTimestamp] are written. *)
Theorem paused_frame_touches_only_clock (timestamp : Q) (c : controller) :
  isPaused c = true ->
  exists c', animate timestamp c = Normal c'
             /\ animations c' = animations c
             /\ animationCallbacks c' = animationCallbacks c
             /\ log c' = log c /\ isPaused c' = true
             /\ lastTimestamp c' = timestamp.
Proof.
  intros Hp. unfold animate.
  destruct (Qeq_bool (lastTimestamp c) 0); simpl; rewrite Hp; simpl;
    eexists; (split; [reflexivity|]); simpl; repeat split; exact Hp.
Qed.

(** *** Tweens that are not playing *)

Lemma forEach_animations_idle (key : string) (a : tween) (d : Q)
  (m : registry) (tr : trace) :
  negb (isPlaying a) || isComplete a = true ->
  map_get key m = Some a ->
  map_get key (fst (state_of (forEach_animations d m tr))) = Some a.
Proof.
  intros Hidle. revert tr.
  induction m as [|[k b] rest IH]; intros tr; simpl; [discriminate|].
  destruct (String.eqb k key) eqn:E.
  - intros [= ->]. unfold advance. rewrite Hidle.
    destruct (forEach_animations d rest tr) as [[r t]|[r t]]; simpl;
      now rewrite E.
  - intros Hget.
    destruct (advance d k b tr) as [[b' tr']|[b' tr']]; simpl.
    + specialize (IH tr' Hget).
      destruct (forEach_animations d rest tr') as [[r t]|[r t]];
        simpl in IH |- *; now rewrite E.
    + now rewrite E.
Qed.

Lemma exec_idle (key : string) (a : tween) (x : call) (c : controller) :
  disturbs key x = false ->
  negb (isPlaying a) || isComplete a = true ->
  tween_at key c = Some a ->
  tween_at key (state_of (exec x c)) = Some a.
Proof.
  unfold tween_at. intros Hx Hidle Hget. destruct x; simpl in *; auto.
  - now rewrite map_get_set_other.
  - unfold playAnimation.
    destruct (map_get key0 (animations c)) as [b|]; simpl; auto.
    destruct (onStart b); simpl; now rewrite map_get_set_other.
  - unfold animate.
    set (c0 := if Qeq_bool (lastTimestamp c) 0 then _ else c).
    assert (H0 : animations c0 = animations c)
      by (subst c0; destruct (Qeq_bool (lastTimestamp c) 0); reflexivity).
    set (c1 := set_deltaTime _ c0).
    destruct (negb (isPaused c1)); [|simpl; now rewrite H0].
    unfold updateAnimations.
    pose proof (forEach_animations_idle key a (deltaTime c1) (animations c1)
                  (log c1) Hidle) as H.
    destruct (forEach_animations (deltaTime c1) (animations c1) (log c1));
      simpl in H |- *; apply H; subst c1; simpl; now rewrite H0.
  - unfold updateAnimations.
    pose proof (forEach_animations_idle key a deltaTime0 (animations c)
                  (log c) Hidle Hget) as H.
    destruct (forEach_animations deltaTime0 (animations c) (log c));
      simpl in H |- *; exact H.
  - discriminate.
Qed.

(** X8. A tween that is not playing, or that is complete, is frozen: frames,
    ticks and calls for other keys leave it registered and exactly as it
    is, until it is played, created again or the controller is destroyed.
    Completion does not remove a tween. *)
Theorem idle_tween_untouched
  (xs : list call) (key : string) (a : tween) (c : controller) :
  forallb (fun x => negb (disturbs key x)) xs = true ->
  negb (isPlaying a) || isComplete a = true ->
  tween_at key c = Some a ->
  tween_at key (run xs c) = Some a.
Proof.
  revert c; induction xs as [|x xs IH]; intros c Hxs Hidle Hget; simpl.
  - exact Hget.
  - simpl in Hxs. apply andb_prop in Hxs as [Hx Hxs].
    apply negb_true_iff in Hx.
    apply IH; [exact Hxs | exact Hidle |].
    now apply exec_idle.
Qed.

(** *** Per-frame callbacks that return *)

Lemma forEach_callbacks_quiet (d ts : Q) (cbs : list frame_cb) :
  (forall cb, In cb cbs -> cb_run cb d ts = Returns) ->
  forall (n k : nat) (tr : trace),
    forEach_callbacks n k d ts cbs tr
    = (cbs, rev (map (frame_event d ts) (firstn n (skipn k cbs))) ++ tr).
Proof.
  intros Hquiet n. induction n as [|n IH]; intros k tr; simpl.
  - reflexivity.
  - destruct (nth_error cbs k) as [cb|] eqn:Hk.
    + rewrite (Hquiet cb) by (eapply nth_error_In; eauto).
      rewrite IH.
      apply nth_error_split in Hk as (pre & post & Hcbs & Hlen).
      subst k. rewrite Hcbs.
      replace (S (List.length pre)) with (List.length (pre ++ [cb]))
        by (rewrite length_app; simpl; lia).
      rewrite (skipn_app (List.length pre)), skipn_all, Nat.sub_diag.
      change (pre ++ cb :: post) with (pre ++ [cb] ++ post).
      rewrite app_assoc, (skipn_app (List.length (pre ++ [cb]))).
      rewrite skipn_all, Nat.sub_diag. simpl.
      rewrite <- !app_assoc. reflexivity.
    + rewrite IH. apply nth_error_None in Hk.
      rewrite !skipn_all2 by lia. now rewrite !firstn_nil.
Qed.

(** X9. When no registered callback throws, [executeAnimationCallbacks]
    invokes every callback exactly once, in the order of registration, with
    the frame's [deltaTime] and [timestamp], and leaves the list as it is. *)
Theorem quiet_callbacks_all_invoked (d ts : Q) (c : controller) :
  (forall cb, In cb (animationCallbacks c) -> cb_run cb d ts = Returns) ->
  let c' := executeAnimationCallbacks d ts c in
  animationCallbacks c' = animationCallbacks c
  /\ log c' = rev (map (frame_event d ts) (animationCallbacks c)) ++ log c.
Proof.
  intros Hquiet. unfold executeAnimationCallbacks.
  rewrite (forEach_callbacks_quiet d ts _ Hquiet). simpl.
  rewrite firstn_all. split; reflexivity.
Qed.

(** *** Handles at the ends of the list *)

(** Removing the handle that [addAnimationCallback] has just returned
    undoes the registration. *)
Theorem add_then_remove_callback (cb : frame_cb) (c : controller) :
  let r := addAnimationCallback cb c in
  animationCallbacks (removeAnimationCallback (snd r) (fst r))
  = animationCallbacks c.
Proof.
  unfold addAnimationCallback, removeAnimationCallback; simpl.
  rewrite length_app; simpl.
  replace (Z.of_nat (List.length (animationCallbacks c) + 1) - 1)%Z
    with (Z.of_nat (List.length (animationCallbacks c))) by lia.
  rewrite splice1_middle. apply app_nil_r.
Qed.

(** X10. [removeAnimationCallback] with an index at or past the length of the
    list removes nothing and raises nothing; a negative index counts from
    the end, so that -1 removes the callback registered last; and an index
    below minus the length removes the first callback. *)
Theorem removeAnimationCallback_edges :
  (forall (index : Z) (c : controller),
      (Z.of_nat (List.length (animationCallbacks c)) <= index)%Z ->
      animationCallbacks (removeAnimationCallback index c)
      = animationCallbacks c)
  /\ (forall (l : list frame_cb) (x : frame_cb) (c : controller),
         animationCallbacks
           (removeAnimationCallback (-1) (set_animationCallbacks (l ++ [x]) c))
         = l)
  /\ (forall (index : Z) (l : list frame_cb) (x : frame_cb) (c : controller),
         (index <= - Z.of_nat (List.length (x :: l)))%Z ->
         animationCallbacks
           (removeAnimationCallback index (set_animationCallbacks (x :: l) c))
         = l).
Proof.
  split; [|split].
  - intros index c Hle. unfold removeAnimationCallback, splice1.
    cbn [animationCallbacks set_animationCallbacks].
    destruct (index <? 0)%Z eqn:E; [apply Z.ltb_lt in E; lia|].
    rewrite Z.min_r by lia. rewrite Nat2Z.id, firstn_all.
    rewrite skipn_all2 by lia. apply app_nil_r.
  - intros l x c. unfold removeAnimationCallback, splice1.
    cbn [animationCallbacks set_animationCallbacks].
    change (-1 <? 0)%Z with true. cbv iota.
    rewrite length_app. cbn [List.length].
    replace (Z.to_nat (Z.max (Z.of_nat (List.length l + 1) + -1) 0))
      with (List.length l) by lia.
    rewrite firstn_app, Nat.sub_diag, firstn_all, firstn_O, app_nil_r.
    rewrite skipn_all2 by (rewrite length_app; cbn [List.length]; lia).
    apply app_nil_r.
  - intros index l x c Hle. unfold removeAnimationCallback, splice1.
    cbn [animationCallbacks set_animationCallbacks].
    destruct (index <? 0)%Z eqn:E;
      [|apply Z.ltb_ge in E; simpl in Hle; lia].
    rewrite Z.max_r by lia. reflexivity.
Qed.

(** *** The step of a frame *)

Lemma exec_deltaTime (x : call) (c : controller) :
  timeScale c = 1.0 -> maxDelta c = 0.1 -> deltaTime c <= 0.1 ->
  deltaTime (state_of (exec x c)) <= 0.1.
Proof.
  intros Hts Hmax Hd. destruct x; simpl; auto.
  - unfold playAnimation. destruct (map_get key (animations c)); simpl; auto.
    destruct (onStart t); simpl; auto.
  - destruct (animate_deltaTime timestamp c) as (H & _). rewrite H.
    rewrite Hts, Hmax.
    setoid_replace (Qmin
                      ((timestamp
                        - (if Qeq_bool (lastTimestamp c) 0 then timestamp
                           else lastTimestamp c)) / 1000) 0.1 * 1.0)
      with (Qmin
              ((timestamp
                - (if Qeq_bool (lastTimestamp c) 0 then timestamp
                   else lastTimestamp c)) / 1000) 0.1) by ring.
    apply Q.le_min_r.
  - destruct (updateAnimations_clock deltaTime0 c) as (_ & _ & H & _).
    now rewrite H.
Qed.

(** X11. In every reachable state [deltaTime] is at most [maxDelta], 0.1 s,
    however far apart the timestamps of the frames are.  (There is no clamp
    from below: a timestamp earlier than [lastTimestamp] gives a negative
    step.) *)
Theorem deltaTime_never_exceeds_maxDelta (xs : list call) :
  deltaTime (run xs new_controller) <= 0.1
  /\ maxDelta (run xs new_controller) = 0.1.
Proof.
  assert (H : forall c, timeScale c = 1.0 -> maxDelta c = 0.1 ->
                        deltaTime c <= 0.1 ->
                        deltaTime (run xs c) <= 0.1
                        /\ maxDelta (run xs c) = 0.1).
  { induction xs as [|x xs IH]; intros c Hts Hmax Hd; simpl; [auto|].
    destruct (exec_constants x c) as [Hts' Hmax'].
    apply IH.
    - now rewrite Hts'.
    - now rewrite Hmax'.
    - now apply exec_deltaTime. }
  apply H; [reflexivity | reflexivity | discriminate].
Qed.

(** A frame whose timestamp lies before [lastTimestamp] computes a negative
    step. *)
Lemma backward_frame_negative_step :
  deltaTime (run [Frame 2000; Frame 1000] new_controller) < 0.
Proof. reflexivity. Qed.

(** *** After destroy *)

Lemma exec_after_destroy (x : call) (c : controller) :
  registers_nothing x = true ->
  animations c = [] -> animationCallbacks c = [] ->
  let c' := state_of (exec x c) in
  animations c' = [] /\ animationCallbacks c' = [] /\ log c' = log c.
Proof.
  intros Hx Ha Hcb. destruct x; simpl in *; try discriminate; auto.
  - unfold playAnimation. rewrite Ha; simpl. auto.
  - unfold animate.
    set (c0 := if Qeq_bool (lastTimestamp c) 0 then _ else c).
    assert (H0 : animations c0 = [] /\ animationCallbacks c0 = []
                 /\ log c0 = log c)
      by (subst c0; destruct (Qeq_bool (lastTimestamp c) 0); simpl; auto).
    destruct H0 as (H1 & H2 & H3).
    set (c1 := set_deltaTime _ c0).
    destruct (negb (isPaused c1)); [|simpl; auto].
    unfold updateAnimations, executeAnimationCallbacks.
    replace (animations c1) with (@nil (string * tween)) by (symmetry; exact H1).
    simpl. rewrite H2. simpl. auto.
  - unfold updateAnimations. rewrite Ha. simpl. auto.
  - unfold removeAnimationCallback. rewrite Hcb. simpl.
    split; [exact Ha|]. split; [|reflexivity].
    unfold splice1. now rewrite firstn_nil, skipn_nil.
Qed.

(** X12. After [destroy] the controller is silent: frames, ticks, plays and
    removals invoke no callback of any kind and leave registry and callback
    list empty, until something is registered again. *)
Theorem destroyed_controller_is_silent (xs : list call) (c : controller) :
  forallb registers_nothing xs = true ->
  let c' := run xs (destroy c) in
  animations c' = [] /\ animationCallbacks c' = [] /\ log c' = log c.
Proof.
  intros Hxs.
  assert (H : forall c0, animations c0 = [] -> animationCallbacks c0 = [] ->
                         animations (run xs c0) = []
                         /\ animationCallbacks (run xs c0) = []
                         /\ log (run xs c0) = log c0).
  { induction xs as [|x xs IH]; intros c0 Ha Hcb; simpl; [auto|].
    simpl in Hxs. apply andb_prop in Hxs as [Hx Hxs].
    destruct (exec_after_destroy x c0 Hx Ha Hcb) as (H1 & H2 & H3).
    destruct (IH Hxs _ H1 H2) as (H4 & H5 & H6).
    rewrite H4, H5, H6, H3. auto. }
  apply (H (destroy c)); reflexivity.
Qed.

End Engine.

(** ** Instances

    The scenarios below use no elastic curve; the environment's functions
    are instantiated with constants. *)

Lemma progress_in_unit_interval_witness :
  let xs := [CreateAnimation "fade" fade_config; PlayAnimation "fade";
             Frame 1000; Frame 6000] in
  exists a,
    Forall valid_call xs
    /\ tween_at "fade"
         (run (fun _ => 0%Q) (fun _ => 0%Q) 0%Q xs new_controller) = Some a
    /\ exists p, progress a = Some p /\ 0 <= p <= 1.
Proof.
  intros xs.
  assert (Hv : Forall valid_call xs).
  { repeat constructor. simpl. intro H; discriminate H. }
  eexists. split; [exact Hv|]. split; [vm_compute; reflexivity|].
  eapply (progress_in_unit_interval (fun _ => 0%Q) (fun _ => 0%Q) 0%Q xs
            "fade"%string);
    [exact Hv | vm_compute; reflexivity].
Defined.

Lemma deltaTime_clamped_witness :
  let c := run (fun _ => 0%Q) (fun _ => 0%Q) 0%Q [] new_controller in
  ~ 1000 == 0
  /\ is_normal (animate 1000 c) = true
  /\ (let c1 := state_of (animate 1000 c) in
      let c2 := state_of (animate (1000 + 1000 * 5) c1) in
      deltaTime c2 == Qmin 5 0.1 * timeScale c2
      /\ deltaTime c2 <= 0.1 * timeScale c2).
Proof.
  assert (H : ~ 1000 == 0) by (intro H; discriminate H).
  split; [exact H|]. split; [reflexivity|].
  exact (deltaTime_clamped (fun _ => 0%Q) (fun _ => 0%Q) 0%Q [] 1000 5
           H eq_refl).
Defined.

Lemma untyped_pair_keeps_currentValue_witness :
  isPlaying mixed_tween = true /\ isComplete mixed_tween = false
  /\ untyped_pair (from mixed_tween) (to mixed_tween)
  /\ (let r := advance 0.05 "mix" mixed_tween [] in
      let e := eased_after 0.05 mixed_tween in
      currentValue (fst (state_of r)) = currentValue mixed_tween
      /\ (snd (state_of r) = [EvUpdate "mix" (currentValue mixed_tween) e]
          \/ snd (state_of r)
             = [EvComplete "mix";
                EvUpdate "mix" (currentValue mixed_tween) e])
      /\ (onUpdate mixed_tween (currentValue mixed_tween) e = Returns ->
          onComplete mixed_tween = Returns -> is_normal r = true)).
Proof.
  split; [reflexivity|]. split; [reflexivity|]. split; [exact I|].
  exact (untyped_pair_keeps_currentValue 0.05 "mix" mixed_tween []
           eq_refl eq_refl I).
Defined.

Lemma onComplete_once_per_play_witness :
  let xs := frames 1100 3 in
  let c := run (fun _ => 0%Q) (fun _ => 0%Q) 0%Q blink_start new_controller in
  forallb (fun x => negb (rearms "blink" x)) xs = true
  /\ (completions "blink"
        (log (run (fun _ => 0%Q) (fun _ => 0%Q) 0%Q xs c))
      <= completions "blink" (log c) + 1)%nat
  /\ (forall a, tween_at "blink" c = Some a -> isComplete a = true ->
      completions "blink" (log (run (fun _ => 0%Q) (fun _ => 0%Q) 0%Q xs c))
      = completions "blink" (log c))
  /\ (exists a a',
        tween_at "blink" c = Some a /\ isComplete a = false
        /\ tween_at "blink" (run (fun _ => 0%Q) (fun _ => 0%Q) 0%Q xs c)
           = Some a'
        /\ isComplete a' = true
        /\ completions "blink"
             (log (run (fun _ => 0%Q) (fun _ => 0%Q) 0%Q xs c))
           = (completions "blink" (log c) + 1)%nat).
Proof.
  intros xs c. split; [reflexivity|].
  destruct (onComplete_once_per_play (fun _ => 0%Q) (fun _ => 0%Q) 0%Q
              blink_start xs "blink"%string eq_refl) as (H1 & H2 & H3).
  split; [exact H1|]. split; [exact H2|].
  eexists. eexists.
  split; [vm_compute; reflexivity|]. split; [reflexivity|].
  split; [vm_compute; reflexivity|]. split; [reflexivity|].
  etransitivity;
    [eapply H3; [vm_compute; reflexivity | reflexivity
                | vm_compute; reflexivity]
    | f_equal].
Defined.

(** C6 (as stated) fails. The tween "blink" completes in the frame at
    1100 ms; [playAnimation] clears [isComplete], and the frame at 1200 ms
    completes the tween and invokes [onComplete] a second time. *)
Lemma replay_fires_onComplete_twice :
  let c := run (fun _ => 0%Q) (fun _ => 0%Q) 0%Q replay_run new_controller in
  completions "blink" (log c) = 2%nat
  /\ ~ (completions "blink" (log c) <= 1)%nat.
Proof.
  cbv zeta. rewrite replay_run_completions. split; [reflexivity | lia].
Qed.

Lemma yoyo_repeat_branches_unreachable_witness :
  let xs := [CreateAnimation "pulse" yoyo_repeat_config;
             PlayAnimation "pulse"; Frame 1000; Frame 1500] in
  exists a,
    tween_at "pulse"
      (run (fun _ => 0%Q) (fun _ => 0%Q) 0%Q xs new_controller) = Some a
    /\ yoyo a = false /\ repeat a = 0%Z /\ repeatCount a = 0%Z
    /\ reverse a = false.
Proof.
  intros xs. eexists. split; [vm_compute; reflexivity|].
  eapply (yoyo_repeat_branches_unreachable (fun _ => 0%Q) (fun _ => 0%Q) 0%Q
            xs "pulse"%string).
  vm_compute; reflexivity.
Defined.

Lemma completion_ends_curve_at_one_witness :
  let a := closing_tween (fun _ => 0%Q) (fun _ => 0%Q) 0%Q in
  isComplete a = false
  /\ isComplete (fst (state_of (advance 0.1 "w" a []))) = true
  /\ ~ duration a == 0
  /\ inherited_name "linear" = false
  /\ snd (state_of (advance 0.1 "w" a []))
     = [EvComplete "w";
        EvUpdate "w" (CNum (lerp 0 (Some 1) (eased_after 0.1 a)))
          (eased_after 0.1 a)]
  /\ currentValue (fst (state_of (advance 0.1 "w" a [])))
     = CNum (lerp 0 (Some 1) (eased_after 0.1 a))
  /\ is_num (eased_after 0.1 a) 1.
Proof.
  intros a.
  assert (Hd : ~ duration a == 0) by (intro H; discriminate H).
  split; [reflexivity|]. split; [reflexivity|]. split; [exact Hd|].
  split; [reflexivity|].
  exact (completion_ends_curve_at_one (fun _ => 0%Q) (fun _ => 0%Q) 0%Q 0.1
           "w"%string "linear"%string a [] 0 1
           eq_refl eq_refl eq_refl Hd eq_refl eq_refl eq_refl eq_refl).
Defined.

Lemma array_tween_shape_witness :
  exists l,
    currentValue (fst (state_of (advance 0.5 "path" array_tween []))) = CArr l
    /\ List.length l = 3%nat
    /\ forall i x,
        nth_error [0; 10; 20] i = Some x ->
        nth_error l i
        = Some (lerp x (nth_error [1; 11] i) (eased_after 0.5 array_tween)).
Proof.
  exact (array_tween_shape 0.5 "path"%string array_tween []
           [0; 10; 20] [1; 11] eq_refl eq_refl eq_refl eq_refl).
Defined.

Lemma playAnimation_keeps_time_witness :
  let c := run (fun _ => 0%Q) (fun _ => 0%Q) 0%Q blink_start new_controller in
  exists a,
    tween_at "blink" c = Some a
    /\ (let c' := state_of (playAnimation "blink" c) in
        (exists a', tween_at "blink" c' = Some a'
                    /\ isPlaying a' = true /\ isComplete a' = false
                    /\ currentTime a' = currentTime a
                    /\ progress a' = progress a
                    /\ currentValue a' = currentValue a
                    /\ repeatCount a' = repeatCount a)
        /\ (forall k, String.eqb "blink" k = false ->
                      tween_at k c' = tween_at k c)
        /\ log c' = EvStart "blink" :: log c
        /\ keys (animations c') = keys (animations c)).
Proof.
  intros c. eexists. split; [vm_compute; reflexivity|].
  eapply (playAnimation_keeps_time "blink"%string c).
  vm_compute; reflexivity.
Defined.

Lemma paused_frame_touches_only_clock_witness :
  let c := pauseAllAnimations new_controller in
  isPaused c = true
  /\ exists c', animate 1000 c = Normal c'
                /\ animations c' = animations c
                /\ animationCallbacks c' = animationCallbacks c
                /\ log c' = log c /\ isPaused c' = true
                /\ lastTimestamp c' = 1000.
Proof.
  split; [reflexivity|].
  exact (paused_frame_touches_only_clock 1000
           (pauseAllAnimations new_controller) eq_refl).
Defined.

Lemma idle_tween_untouched_witness :
  let c := run (fun _ => 0%Q) (fun _ => 0%Q) 0%Q
             [CreateAnimation "a" fade_config;
              CreateAnimation "b" fade_config] new_controller in
  let xs := [PlayAnimation "a"; Frame 1000; Frame 1100; Tick 0.05] in
  exists a,
    tween_at "b" c = Some a
    /\ negb (isPlaying a) || isComplete a = true
    /\ tween_at "b" (run (fun _ => 0%Q) (fun _ => 0%Q) 0%Q xs c) = Some a.
Proof.
  intros c xs. eexists. split; [vm_compute; reflexivity|].
  split; [reflexivity|].
  eapply (idle_tween_untouched (fun _ => 0%Q) (fun _ => 0%Q) 0%Q xs
            "b"%string);
    [reflexivity | reflexivity | vm_compute; reflexivity].
Defined.

Lemma quiet_callbacks_all_invoked_witness :
  let c := set_animationCallbacks [cb_quiet 0; cb_quiet 1] new_controller in
  let c' := executeAnimationCallbacks 0.05 1000 c in
  animationCallbacks c' = animationCallbacks c
  /\ log c'
     = rev (map (frame_event 0.05 1000) (animationCallbacks c)) ++ log c.
Proof.
  apply (quiet_callbacks_all_invoked 0.05 1000
           (set_animationCallbacks [cb_quiet 0; cb_quiet 1] new_controller)).
  intros cb [H|[H|[]]]; rewrite <- H; reflexivity.
Defined.

Lemma destroyed_controller_is_silent_witness :
  let c := run (fun _ => 0%Q) (fun _ => 0%Q) 0%Q two_tweens new_controller in
  forallb registers_nothing after_destroy = true
  /\ (let c' := run (fun _ => 0%Q) (fun _ => 0%Q) 0%Q after_destroy
                  (destroy c) in
      animations c' = [] /\ animationCallbacks c' = [] /\ log c' = log c).
Proof.
  split; [reflexivity|].
  exact (destroyed_controller_is_silent (fun _ => 0%Q) (fun _ => 0%Q) 0%Q
           after_destroy
           (run (fun _ => 0%Q) (fun _ => 0%Q) 0%Q two_tweens new_controller)
           eq_refl).
Defined.


(** * Properties of the product manager *)
Module ProductManagerFacts.
Import ProductManager.
Local Open Scope Z_scope.

(** ** The cart *)

Lemma same_line_refl (i : item) : same_line (item_id i) (size i) i = true.
Proof.
  unfold same_line. rewrite String.eqb_refl. simpl.
  destruct (size i); simpl; [apply String.eqb_refl | reflexivity].
Qed.

Lemma size_eqb_sym (a b : option string) : size_eqb a b = size_eqb b a.
Proof. destruct a, b; simpl; auto using String.eqb_sym. Qed.

Lemma size_eqb_eq (a b : option string) : size_eqb a b = true -> a = b.
Proof.
  destruct a, b; simpl; try discriminate; auto.
  intros H. apply String.eqb_eq in H. now subst.
Qed.

Lemma same_line_eq (pid : string) (sz : option string) (i : item) :
  same_line pid sz i = true -> item_id i = pid /\ size i = sz.
Proof.
  unfold same_line. intros H. apply andb_prop in H as [H1 H2].
  apply String.eqb_eq in H1. apply size_eqb_eq in H2. auto.
Qed.

Lemma total_from (l : list item) (a : Z) :
  fold_left (fun total i => total + item_price i * quantity i) l a
  = a + fold_left (fun total i => total + item_price i * quantity i) l 0.
Proof.
  revert a; induction l as [|i l IH]; intros a; simpl; [lia|].
  rewrite (IH (a + item_price i * quantity i)).
  rewrite (IH (item_price i * quantity i)). lia.
Qed.

Lemma count_from (l : list item) (a : Z) :
  fold_left (fun count i => count + quantity i) l a
  = a + fold_left (fun count i => count + quantity i) l 0.
Proof.
  revert a; induction l as [|i l IH]; intros a; simpl; [lia|].
  rewrite (IH (a + quantity i)), (IH (quantity i)). lia.
Qed.

Lemma add_quantity_sums (pid : string) (sz : option string) (q : Z)
  (l : list item) (i : item) :
  find (same_line pid sz) l = Some i ->
  fold_left (fun count i => count + quantity i) (add_quantity pid sz q l) 0
  = fold_left (fun count i => count + quantity i) l 0 + q
  /\ fold_left (fun total i => total + item_price i * quantity i)
       (add_quantity pid sz q l) 0
     = fold_left (fun total i => total + item_price i * quantity i) l 0
       + item_price i * q.
Proof.
  induction l as [|j l IH]; simpl; [discriminate|].
  destruct (same_line pid sz j) eqn:E.
  - intros [= ->]. simpl.
    rewrite (count_from l (quantity i + q)), (count_from l (quantity i)).
    rewrite (total_from l (item_price i * (quantity i + q))).
    rewrite (total_from l (item_price i * quantity i)). lia.
  - intros H. destruct (IH H) as [H1 H2]. simpl.
    rewrite (count_from _ (quantity j)), (count_from l (quantity j)), H1.
    rewrite (total_from _ (item_price j * quantity j)).
    rewrite (total_from l (item_price j * quantity j)), H2. lia.
Qed.

Lemma MAX_SAFE_pos : 0 < MAX_SAFE.
Proof. reflexivity. Qed.

Lemma exact_Some (z : Z) : - MAX_SAFE <= z <= MAX_SAFE -> exact z = Some z.
Proof.
  intros [H1 H2]. unfold exact.
  apply Z.leb_le in H1. apply Z.leb_le in H2. now rewrite H1, H2.
Qed.

Lemma exact_inv (z z' : Z) :
  exact z = Some z' -> z' = z /\ - MAX_SAFE <= z <= MAX_SAFE.
Proof.
  unfold exact.
  destruct (- MAX_SAFE <=? z) eqn:H1; [|discriminate].
  destruct (z <=? MAX_SAFE) eqn:H2; [|discriminate].
  apply Z.leb_le in H1. apply Z.leb_le in H2.
  cbn [andb]. intros [= <-]. auto.
Qed.

Lemma pieces_cons (i : item) (l : list item) :
  pieces (i :: l) = quantity i + pieces l.
Proof. unfold pieces. cbn [fold_left]. rewrite count_from. lia. Qed.

Lemma amount_cons (i : item) (l : list item) :
  amount (i :: l) = item_price i * quantity i + amount l.
Proof. unfold amount. cbn [fold_left]. rewrite total_from. lia. Qed.

Lemma pieces_nonneg (l : list item) :
  Forall (fun i => 0 <= quantity i) l -> 0 <= pieces l.
Proof.
  induction 1 as [|i l Hi Hl IH]; [reflexivity|].
  rewrite pieces_cons. lia.
Qed.

Lemma amount_nonneg (l : list item) :
  Forall (fun i => 0 <= quantity i /\ 0 <= item_price i) l -> 0 <= amount l.
Proof.
  induction 1 as [|i l Hi Hl IH]; [reflexivity|].
  rewrite amount_cons. nia.
Qed.

Lemma piece_le_pieces (l : list item) (i : item) :
  Forall (fun i => 0 <= quantity i) l -> In i l -> quantity i <= pieces l.
Proof.
  induction 1 as [|j l Hj Hl IH]; [intros []|].
  rewrite pieces_cons. pose proof (pieces_nonneg l Hl).
  intros [->|Hin]; [lia|]. specialize (IH Hin). lia.
Qed.

Lemma count_none (l : list item) :
  fold_left (fun count i => exact_add count (exact (quantity i))) l None
  = None.
Proof. induction l as [|i l IH]; [reflexivity | exact IH]. Qed.

Lemma total_none (l : list item) :
  fold_left
    (fun total i =>
       exact_add total (exact_mul (exact (item_price i)) (exact (quantity i))))
    l None
  = None.
Proof. induction l as [|i l IH]; [reflexivity | exact IH]. Qed.

(** Where [getCartCount] has a value, it is the sum of the quantities. *)
Lemma count_sound (l : list item) (a n : Z) :
  fold_left (fun count i => exact_add count (exact (quantity i))) l (Some a)
  = Some n ->
  n = a + pieces l.
Proof.
  revert a; induction l as [|i l IH]; intros a; cbn [fold_left].
  - intros [= <-]. unfold pieces. cbn [fold_left]. lia.
  - rewrite pieces_cons. cbn [exact_add].
    destruct (exact (quantity i)) as [x|] eqn:Ex;
      [|rewrite count_none; discriminate].
    apply exact_inv in Ex as [-> _].
    destruct (exact (a + quantity i)) as [y|] eqn:Ey;
      [|rewrite count_none; discriminate].
    apply exact_inv in Ey as [-> _].
    intros H. apply IH in H. lia.
Qed.

(** It has a value when the pieces are not negative and their sum is at most
    2^53. *)
Lemma count_complete (l : list item) (a : Z) :
  Forall (fun i => 0 <= quantity i) l -> 0 <= a ->
  a + pieces l <= MAX_SAFE ->
  fold_left (fun count i => exact_add count (exact (quantity i))) l (Some a)
  = Some (a + pieces l).
Proof.
  intros Hl. revert a. pose proof MAX_SAFE_pos as Hmax.
  induction Hl as [|i l Hi Hl IH]; intros a Ha Hsum; cbn [fold_left].
  - unfold pieces. cbn [fold_left]. f_equal. lia.
  - rewrite pieces_cons in *. pose proof (pieces_nonneg l Hl).
    rewrite (exact_Some (quantity i)) by lia. cbn [exact_add].
    rewrite (exact_Some (a + quantity i)) by lia.
    rewrite IH by lia. f_equal. lia.
Qed.

Lemma total_sound (l : list item) (a t : Z) :
  fold_left
    (fun total i =>
       exact_add total (exact_mul (exact (item_price i)) (exact (quantity i))))
    l (Some a)
  = Some t ->
  t = a + amount l
  /\ Forall (fun i => item_price i <= MAX_SAFE /\ quantity i <= MAX_SAFE) l.
Proof.
  revert a; induction l as [|i l IH]; intros a; cbn [fold_left].
  - intros [= <-]. unfold amount. cbn [fold_left]. split; [lia|constructor].
  - rewrite amount_cons.
    destruct (exact (item_price i)) as [x|] eqn:Ex;
      [|cbn [exact_mul exact_add]; destruct (exact (quantity i));
        rewrite total_none; discriminate].
    apply exact_inv in Ex as [-> Hx].
    destruct (exact (quantity i)) as [y|] eqn:Ey;
      [|cbn [exact_mul exact_add]; rewrite total_none; discriminate].
    apply exact_inv in Ey as [-> Hy]. cbn [exact_mul].
    destruct (exact (item_price i * quantity i)) as [z|] eqn:Ez;
      [|cbn [exact_add]; rewrite total_none; discriminate].
    apply exact_inv in Ez as [-> _]. cbn [exact_add].
    destruct (exact (a + item_price i * quantity i)) as [w|] eqn:Ew;
      [|rewrite total_none; discriminate].
    apply exact_inv in Ew as [-> _].
    intros H. apply IH in H as [H1 H2]. split; [lia|].
    constructor; [lia | exact H2].
Qed.

Lemma total_complete (l : list item) (a : Z) :
  Forall (fun i => 0 <= quantity i <= MAX_SAFE
                   /\ 0 <= item_price i <= MAX_SAFE) l ->
  0 <= a -> a + amount l <= MAX_SAFE ->
  fold_left
    (fun total i =>
       exact_add total (exact_mul (exact (item_price i)) (exact (quantity i))))
    l (Some a)
  = Some (a + amount l).
Proof.
  intros Hl. revert a. pose proof MAX_SAFE_pos as Hmax.
  induction Hl as [|i l [Hq Hp] Hl IH]; intros a Ha Hsum; cbn [fold_left].
  - unfold amount. cbn [fold_left]. f_equal. lia.
  - rewrite amount_cons in *.
    assert (Hrest : 0 <= amount l).
    { apply amount_nonneg. eapply Forall_impl; [|exact Hl].
      cbv beta. intros j [[H1 _] [H2 _]]. auto. }
    assert (Hprod : 0 <= item_price i * quantity i) by nia.
    rewrite (exact_Some (item_price i)) by lia.
    rewrite (exact_Some (quantity i)) by lia. cbn [exact_mul].
    rewrite (exact_Some (item_price i * quantity i)) by lia.
    cbn [exact_add].
    rewrite (exact_Some (a + item_price i * quantity i)) by lia.
    rewrite IH by lia. f_equal. lia.
Qed.

Lemma add_quantity_nonneg (pid : string) (sz : option string) (q : Z)
  (l : list item) :
  0 <= q ->
  Forall (fun i => 0 <= quantity i /\ 0 <= item_price i) l ->
  Forall (fun i => 0 <= quantity i /\ 0 <= item_price i)
    (add_quantity pid sz q l).
Proof.
  intros Hq Hl. induction Hl as [|j l [Hj Hp] Hl IH]; cbn [add_quantity];
    [constructor|].
  destruct (same_line pid sz j); constructor; cbn [quantity item_price];
    auto; lia.
Qed.

Lemma nonneg_quantities (l : list item) :
  Forall (fun i => 0 <= quantity i /\ 0 <= item_price i) l ->
  Forall (fun i => 0 <= quantity i) l.
Proof. apply Forall_impl. intros i [H _]. exact H. Qed.

(** A cart of pieces and prices that are not negative, with a piece count of
    at most 2^53 and prices of at most 2^53, has a total when the sum of the
    lines is at most 2^53. *)
Lemma total_of_bounded_cart (l : list item) :
  Forall (fun i => 0 <= quantity i /\ 0 <= item_price i) l ->
  Forall (fun i => item_price i <= MAX_SAFE) l ->
  pieces l <= MAX_SAFE -> amount l <= MAX_SAFE ->
  fold_left
    (fun total i =>
       exact_add total (exact_mul (exact (item_price i)) (exact (quantity i))))
    l (Some 0)
  = Some (amount l).
Proof.
  intros Hl Hp Hn Ht.
  rewrite (total_complete l 0); [reflexivity| |lia|lia].
  apply Forall_forall. intros i Hi.
  pose proof (proj1 (Forall_forall _ l) Hl i Hi) as [H1 H2].
  pose proof (proj1 (Forall_forall _ l) Hp i Hi) as H3.
  pose proof (piece_le_pieces l i (nonneg_quantities l Hl) Hi) as H4.
  cbv beta in *. lia.
Qed.

(** X13. [addToCart] for an id that is not in the catalogue returns false and
    changes nothing.  For a product of the catalogue it returns true and, as
    long as pieces and prices are not negative and the new count and total
    are at most 2^53 (where the code's arithmetic is exact), it raises the
    piece count of the cart by [quantity] and the total by [quantity] times
    the price of the line: the price stored in the line when the cart already
    has one for this product and size, the product's price otherwise. *)
Theorem addToCart_count_and_total
  (pid : string) (q : Z) (sz : option string) (m : manager) :
  match getProductById pid m with
  | None => addToCart pid q sz m = (m, false)
  | Some p =>
      let m' := fst (addToCart pid q sz m) in
      let unit_price :=
        match find (same_line pid sz) (cart m) with
        | Some i => item_price i
        | None => price p
        end in
      snd (addToCart pid q sz m) = true
      /\ forall n t,
           0 <= q -> 0 <= price p <= MAX_SAFE ->
           Forall (fun i => 0 <= quantity i /\ 0 <= item_price i) (cart m) ->
           getCartCount m = Some n -> calculateCartTotal m = Some t ->
           n + q <= MAX_SAFE -> t + unit_price * q <= MAX_SAFE ->
           getCartCount m' = Some (n + q)
           /\ calculateCartTotal m' = Some (t + unit_price * q)
  end.
Proof.
  unfold addToCart. destruct (getProductById pid m) as [p|]; [|reflexivity].
  cbv zeta. split; [reflexivity|].
  intros n t Hq Hp Hl Hn Ht Hnq Htq.
  unfold getCartCount, calculateCartTotal in *.
  pose proof (count_sound _ _ _ Hn) as En.
  pose proof (total_sound _ _ _ Ht) as [Et Hops].
  pose proof (nonneg_quantities _ Hl) as Hl'.
  pose proof (pieces_nonneg _ Hl') as Hn0.
  pose proof (amount_nonneg _ Hl) as Ht0.
  pose proof MAX_SAFE_pos as Hmax.
  destruct (find (same_line pid sz) (cart m)) as [i|] eqn:E;
    cbn [fst cart set_cart notifyObservers set_notified].
  - destruct (add_quantity_sums pid sz q (cart m) i E) as [E1 E2].
    fold (pieces (add_quantity pid sz q (cart m))) in E1.
    fold (pieces (cart m)) in E1.
    fold (amount (add_quantity pid sz q (cart m))) in E2.
    fold (amount (cart m)) in E2.
    pose proof (add_quantity_nonneg pid sz q (cart m) Hq Hl) as Hl2.
    split.
    + rewrite count_complete; [f_equal; lia | | lia | lia].
      now apply nonneg_quantities.
    + rewrite total_of_bounded_cart; [f_equal; lia | exact Hl2 | | lia | lia].
      clear - Hops. induction Hops as [|j l [Hj _] Hl IH];
        cbn [add_quantity]; [constructor|].
      destruct (same_line pid sz j); constructor; auto.
      eapply Forall_impl; [|exact Hl]. cbv beta. intros k [Hk _]. exact Hk.
  - assert (Hp' : pieces (cart m ++ [mkItem pid (name p) (price p) q sz
                                       (image p) (sku p)])
                  = pieces (cart m) + q).
    { unfold pieces. rewrite fold_left_app. reflexivity. }
    assert (Ha' : amount (cart m ++ [mkItem pid (name p) (price p) q sz
                                       (image p) (sku p)])
                  = amount (cart m) + price p * q).
    { unfold amount. rewrite fold_left_app. reflexivity. }
    assert (Hl2 : Forall (fun i => 0 <= quantity i /\ 0 <= item_price i)
                    (cart m ++ [mkItem pid (name p) (price p) q sz
                                  (image p) (sku p)])).
    { apply Forall_app. split; [exact Hl|].
      constructor; [|constructor]. cbn [quantity item_price]. lia. }
    split.
    + rewrite count_complete; [f_equal; lia | | lia | lia].
      now apply nonneg_quantities.
    + rewrite total_of_bounded_cart; [f_equal; lia | exact Hl2 | | lia | lia].
      apply Forall_app. split.
      * eapply Forall_impl; [|exact Hops]. cbv beta. intros k [Hk _].
        exact Hk.
      * constructor; [|constructor]. cbn [item_price]. lia.
Qed.

Lemma find_none_forall (pid : string) (sz : option string) (l : list item) :
  find (same_line pid sz) l = None <->
  forall i, In i l -> same_line pid sz i = false.
Proof.
  split.
  - intros H i Hi. destruct (same_line pid sz i) eqn:E; [|reflexivity].
    exfalso. eapply find_none in H; eauto. congruence.
  - intros H. induction l as [|j l IH]; simpl; [reflexivity|].
    rewrite (H j) by (left; reflexivity). apply IH.
    intros i Hi. apply H. now right.
Qed.

Lemma remove_line_no_match (pid : string) (sz : option string)
  (l : list item) :
  find (same_line pid sz) l = None -> remove_line pid sz l = l.
Proof.
  induction l as [|j l IH]; simpl; [reflexivity|].
  destruct (same_line pid sz j); [discriminate|].
  intros H. now rewrite IH.
Qed.

Lemma remove_line_add_quantity (pid : string) (sz : option string) (q : Z)
  (l : list item) :
  remove_line pid sz (add_quantity pid sz q l) = remove_line pid sz l.
Proof.
  induction l as [|j l IH]; simpl; [reflexivity|].
  destruct (same_line pid sz j) eqn:E; simpl.
  - unfold same_line in *. simpl. now rewrite E.
  - now rewrite E, IH.
Qed.

Lemma find_add_quantity (pid : string) (sz : option string) (q : Z)
  (l : list item) (i : item) :
  find (same_line pid sz) l = Some i ->
  exists j, find (same_line pid sz) (add_quantity pid sz q l) = Some j.
Proof.
  induction l as [|j l IH]; simpl; [discriminate|].
  destruct (same_line pid sz j) eqn:E; simpl.
  - intros _. unfold same_line in *. simpl. rewrite E. eauto.
  - rewrite E. exact IH.
Qed.

(** X14. [removeFromCart] after [addToCart] for the same product and size
    leaves the cart without that line, whatever quantity the line had before
    or was added: a line cannot be taken back piece by piece.  If the cart
    had no such line, it is the cart from before the addition. *)
Theorem remove_after_add
  (pid : string) (q : Z) (sz : option string) (m : manager) (p : product) :
  getProductById pid m = Some p ->
  let m' := fst (removeFromCart pid sz (fst (addToCart pid q sz m))) in
  cart m' = remove_line pid sz (cart m)
  /\ (find (same_line pid sz) (cart m) = None -> cart m' = cart m).
Proof.
  intros Hp. unfold addToCart. rewrite Hp. cbv zeta.
  assert (H : cart (fst (removeFromCart pid sz
                           (fst (addToCart pid q sz m))))
              = remove_line pid sz (cart m)).
  { unfold addToCart. rewrite Hp. cbv zeta.
    destruct (find (same_line pid sz) (cart m)) as [i|] eqn:E.
    - destruct (find_add_quantity pid sz q (cart m) i E) as [j Hj].
      unfold removeFromCart. simpl. rewrite Hj. simpl.
      apply remove_line_add_quantity.
    - unfold removeFromCart. simpl.
      set (new := {| item_id := pid; item_name := name p;
                     item_price := price p; quantity := q; size := sz;
                     item_image := image p; item_sku := sku p |}).
      assert (Hnew : same_line pid sz new = true)
        by apply (same_line_refl new).
      assert (Hfind : find (same_line pid sz) (cart m ++ [new]) = Some new).
      { clear -E Hnew. induction (cart m) as [|j l IH]; simpl in *.
        - now rewrite Hnew.
        - destruct (same_line pid sz j); [discriminate | auto]. }
      rewrite Hfind. simpl.
      rewrite (remove_line_no_match pid sz (cart m) E).
      clear -E Hnew. induction (cart m) as [|j l IH]; simpl in *.
      + now rewrite Hnew.
      + destruct (same_line pid sz j); [discriminate|].
        now rewrite IH. }
  unfold addToCart in H. rewrite Hp in H. cbv zeta in H.
  split; [exact H|].
  intros E. rewrite H. now apply remove_line_no_match.
Qed.

(** ** Invariants of the cart *)

Lemma same_line_add_quantity (pid pid' : string) (sz sz' : option string)
  (q : Z) (l : list item) :
  find (same_line pid' sz') l = None ->
  find (same_line pid' sz') (add_quantity pid sz q l) = None.
Proof.
  induction l as [|j l IH]; simpl; [reflexivity|].
  destruct (same_line pid' sz' j) eqn:E'; [discriminate|].
  intros H. destruct (same_line pid sz j); simpl.
  - unfold same_line in *. simpl. now rewrite E'.
  - rewrite E'. auto.
Qed.

Lemma same_line_set_quantity (pid pid' : string) (sz sz' : option string)
  (q : Z) (l : list item) :
  find (same_line pid' sz') l = None ->
  find (same_line pid' sz') (set_quantity pid sz q l) = None.
Proof.
  induction l as [|j l IH]; simpl; [reflexivity|].
  destruct (same_line pid' sz' j) eqn:E'; [discriminate|].
  intros H. destruct (same_line pid sz j); simpl.
  - unfold same_line in *. simpl. now rewrite E'.
  - rewrite E'. auto.
Qed.

Lemma same_line_remove_line (pid pid' : string) (sz sz' : option string)
  (l : list item) :
  find (same_line pid' sz') l = None ->
  find (same_line pid' sz') (remove_line pid sz l) = None.
Proof.
  induction l as [|j l IH]; simpl; [reflexivity|].
  destruct (same_line pid' sz' j) eqn:E'; [discriminate|].
  intros H. destruct (same_line pid sz j); simpl; [exact H|].
  rewrite E'. auto.
Qed.

Lemma distinct_add_quantity (pid : string) (sz : option string) (q : Z)
  (l : list item) :
  distinct_lines l -> distinct_lines (add_quantity pid sz q l).
Proof.
  induction l as [|j l IH]; simpl; [auto|].
  intros [Hj Hl]. destruct (same_line pid sz j); simpl.
  - auto.
  - split; [now apply same_line_add_quantity | auto].
Qed.

Lemma distinct_set_quantity (pid : string) (sz : option string) (q : Z)
  (l : list item) :
  distinct_lines l -> distinct_lines (set_quantity pid sz q l).
Proof.
  induction l as [|j l IH]; simpl; [auto|].
  intros [Hj Hl]. destruct (same_line pid sz j); simpl.
  - auto.
  - split; [now apply same_line_set_quantity | auto].
Qed.

Lemma distinct_remove_line (pid : string) (sz : option string)
  (l : list item) :
  distinct_lines l -> distinct_lines (remove_line pid sz l).
Proof.
  induction l as [|j l IH]; simpl; [auto|].
  intros [Hj Hl]. destruct (same_line pid sz j); simpl.
  - exact Hl.
  - split; [now apply same_line_remove_line | auto].
Qed.

Lemma same_line_sym (i j : item) :
  same_line (item_id i) (size i) j = same_line (item_id j) (size j) i.
Proof.
  unfold same_line. now rewrite String.eqb_sym, size_eqb_sym.
Qed.

Lemma distinct_append (l : list item) (new : item) :
  find (same_line (item_id new) (size new)) l = None ->
  distinct_lines l -> distinct_lines (l ++ [new]).
Proof.
  induction l as [|j l IH]; simpl; [auto|].
  destruct (same_line (item_id new) (size new) j) eqn:E; [discriminate|].
  intros Hnone [Hj Hl]. split; [|auto].
  clear IH Hl. induction l as [|k l IH]; simpl in *.
  - now rewrite same_line_sym, E.
  - destruct (same_line (item_id j) (size j) k); [discriminate|].
    destruct (same_line (item_id new) (size new) k); [discriminate|].
    auto.
Qed.

Lemma cart_exec_distinct (x : cart_call) (m : manager) :
  distinct_lines (cart m) -> distinct_lines (cart (cart_exec x m)).
Proof.
  intros Hm. destruct x as [pid q sz|pid sz|pid q sz]; simpl.
  - unfold addToCart. destruct (getProductById pid m) as [p|]; [|exact Hm].
    simpl. destruct (find (same_line pid sz) (cart m)) eqn:E; simpl.
    + now apply distinct_add_quantity.
    + apply distinct_append; simpl; assumption.
  - unfold removeFromCart.
    destruct (find (same_line pid sz) (cart m)); simpl; [|exact Hm].
    now apply distinct_remove_line.
  - unfold updateCartQuantity.
    destruct (find (same_line pid sz) (cart m)); simpl; [|exact Hm].
    destruct (Z.max 0 q =? 0); simpl.
    + unfold removeFromCart. simpl.
      destruct (find (same_line pid sz)
                  (set_quantity pid sz (Z.max 0 q) (cart m))); simpl.
      * now apply distinct_remove_line, distinct_set_quantity.
      * now apply distinct_set_quantity.
    + now apply distinct_set_quantity.
Qed.

(** X15. The cart never holds two lines for the same product and size: if it
    holds none to begin with, it holds none after any sequence of
    [addToCart], [removeFromCart] and [updateCartQuantity]. *)
Theorem cart_lines_stay_distinct (xs : list cart_call) (m : manager) :
  distinct_lines (cart m) -> distinct_lines (cart (cart_run xs m)).
Proof.
  revert m; induction xs as [|x xs IH]; intros m Hm; simpl; [exact Hm|].
  apply IH, cart_exec_distinct, Hm.
Qed.

Lemma find_set_quantity (pid : string) (sz : option string) (q : Z)
  (l : list item) (i : item) :
  find (same_line pid sz) l = Some i ->
  find (same_line pid sz) (set_quantity pid sz q l)
  = Some (mkItem (item_id i) (item_name i) (item_price i) q (size i)
            (item_image i) (item_sku i)).
Proof.
  induction l as [|j l IH]; simpl; [discriminate|].
  destruct (same_line pid sz j) eqn:E; simpl.
  - intros [= ->]. unfold same_line in *. simpl. now rewrite E.
  - rewrite E. exact IH.
Qed.

Lemma remove_line_set_quantity (pid : string) (sz : option string) (q : Z)
  (l : list item) :
  remove_line pid sz (set_quantity pid sz q l) = remove_line pid sz l.
Proof.
  induction l as [|j l IH]; simpl; [reflexivity|].
  destruct (same_line pid sz j) eqn:E; simpl.
  - unfold same_line in *. simpl. now rewrite E.
  - now rewrite E, IH.
Qed.

Lemma set_quantity_count (pid : string) (sz : option string) (q : Z)
  (l : list item) (i : item) :
  find (same_line pid sz) l = Some i ->
  fold_left (fun count i => count + quantity i) (set_quantity pid sz q l) 0
  = fold_left (fun count i => count + quantity i) l 0 - quantity i + q.
Proof.
  induction l as [|j l IH]; simpl; [discriminate|].
  destruct (same_line pid sz j) eqn:E.
  - intros [= ->]. simpl.
    rewrite (count_from l q), (count_from l (quantity i)). lia.
  - intros H. simpl.
    rewrite (count_from _ (quantity j)), (count_from l (quantity j)).
    rewrite (IH H). lia.
Qed.

Lemma set_quantity_nonneg (pid : string) (sz : option string) (q : Z)
  (l : list item) :
  0 <= q ->
  Forall (fun i => 0 <= quantity i) l ->
  Forall (fun i => 0 <= quantity i) (set_quantity pid sz q l).
Proof.
  intros Hq Hl. induction Hl as [|j l Hj Hl IH]; cbn [set_quantity];
    [constructor|].
  destruct (same_line pid sz j); constructor; cbn [quantity]; auto.
Qed.

(** X16. [updateCartQuantity] on a line of the cart returns true.  With a
    quantity of 0 or less it removes the line, exactly as [removeFromCart]
    does; with a positive quantity it sets the line's quantity, so that the
    piece count changes by the difference (as long as no line has a negative
    quantity and the new count is at most 2^53, where the code's arithmetic
    is exact).  Without such a line it returns false and leaves the cart. *)
Theorem updateCartQuantity_sets_or_removes
  (pid : string) (q : Z) (sz : option string) (m : manager) :
  match find (same_line pid sz) (cart m) with
  | None => updateCartQuantity pid q sz m = (m, false)
  | Some i =>
      let m' := fst (updateCartQuantity pid q sz m) in
      snd (updateCartQuantity pid q sz m) = true
      /\ (q <= 0 -> cart m' = cart (fst (removeFromCart pid sz m)))
      /\ (0 < q ->
          find (same_line pid sz) (cart m')
          = Some (mkItem (item_id i) (item_name i) (item_price i) q (size i)
                    (item_image i) (item_sku i))
          /\ forall n,
               Forall (fun j => 0 <= quantity j) (cart m) ->
               getCartCount m = Some n ->
               n - quantity i + q <= MAX_SAFE ->
               getCartCount m' = Some (n - quantity i + q))
  end.
Proof.
  unfold updateCartQuantity.
  destruct (find (same_line pid sz) (cart m)) as [i|] eqn:E; [|reflexivity].
  cbv zeta. split; [destruct (Z.max 0 q =? 0); reflexivity|]. split.
  - intros Hq. rewrite Z.max_l by lia. simpl.
    unfold removeFromCart. simpl.
    rewrite (find_set_quantity pid sz 0 (cart m) i E), E. simpl.
    apply remove_line_set_quantity.
  - intros Hq. rewrite Z.max_r by lia.
    destruct (q =? 0) eqn:Hz; [apply Z.eqb_eq in Hz; lia|].
    cbn [fst cart set_cart notifyObservers set_notified].
    split; [now apply find_set_quantity|].
    intros n Hl Hn Hbound. unfold getCartCount in *.
    cbn [cart set_cart notifyObservers set_notified].
    pose proof (count_sound _ _ _ Hn) as En.
    pose proof (set_quantity_count pid sz q (cart m) i E) as Ec.
    fold (pieces (set_quantity pid sz q (cart m))) in Ec.
    fold (pieces (cart m)) in Ec.
    pose proof (piece_le_pieces _ i Hl (proj1 (find_some _ _ E))) as Hi.
    rewrite count_complete; [f_equal; lia | | lia | lia].
    apply set_quantity_nonneg; [lia | exact Hl].
Qed.

Lemma add_quantity_positive (pid : string) (sz : option string) (q : Z)
  (l : list item) :
  1 <= q -> Forall (fun i => 1 <= quantity i) l ->
  Forall (fun i => 1 <= quantity i) (add_quantity pid sz q l).
Proof.
  intros Hq Hl. induction Hl as [|j l Hj Hl IH]; simpl; [constructor|].
  destruct (same_line pid sz j); constructor; simpl; auto; lia.
Qed.

Lemma remove_line_Forall (P : item -> Prop) (pid : string)
  (sz : option string) (l : list item) :
  Forall P l -> Forall P (remove_line pid sz l).
Proof.
  intros Hl. induction Hl as [|j l Hj Hl IH]; simpl; [constructor|].
  destruct (same_line pid sz j); [exact Hl | constructor; auto].
Qed.

Lemma set_quantity_positive (pid : string) (sz : option string) (q : Z)
  (l : list item) :
  1 <= q -> Forall (fun i => 1 <= quantity i) l ->
  Forall (fun i => 1 <= quantity i) (set_quantity pid sz q l).
Proof.
  intros Hq Hl. induction Hl as [|j l Hj Hl IH]; simpl; [constructor|].
  destruct (same_line pid sz j); constructor; simpl; auto.
Qed.

Lemma remove_zeroed_line (pid : string) (sz : option string)
  (l : list item) :
  Forall (fun i => 1 <= quantity i) l ->
  Forall (fun i => 1 <= quantity i)
    (remove_line pid sz (set_quantity pid sz 0 l)).
Proof.
  rewrite remove_line_set_quantity. apply remove_line_Forall.
Qed.

Lemma cart_exec_positive (x : cart_call) (m : manager) :
  adds_pieces x ->
  Forall (fun i => 1 <= quantity i) (cart m) ->
  Forall (fun i => 1 <= quantity i) (cart (cart_exec x m)).
Proof.
  intros Hx Hm. destruct x as [pid q sz|pid sz|pid q sz]; simpl in *.
  - unfold addToCart. destruct (getProductById pid m) as [p|]; [|exact Hm].
    simpl. destruct (find (same_line pid sz) (cart m)); simpl.
    + now apply add_quantity_positive.
    + apply Forall_app. split; [exact Hm|]. constructor; [exact Hx|].
      constructor.
  - unfold removeFromCart.
    destruct (find (same_line pid sz) (cart m)); simpl; [|exact Hm].
    now apply remove_line_Forall.
  - unfold updateCartQuantity.
    destruct (find (same_line pid sz) (cart m)) as [i|] eqn:E; simpl;
      [|exact Hm].
    destruct (Z.max 0 q =? 0) eqn:Hz; simpl.
    + apply Z.eqb_eq in Hz. rewrite Hz.
      unfold removeFromCart. simpl.
      rewrite (find_set_quantity pid sz 0 (cart m) i E). simpl.
      now apply remove_zeroed_line.
    + apply Z.eqb_neq in Hz. apply set_quantity_positive; [lia | exact Hm].
Qed.

(** X17. As long as every [addToCart] adds at least one piece, every line of
    the cart holds at least one piece: [updateCartQuantity] never leaves a
    line with a quantity of 0 or less, it removes the line. *)
Theorem cart_quantities_stay_positive (xs : list cart_call) (m : manager) :
  Forall adds_pieces xs ->
  Forall (fun i => 1 <= quantity i) (cart m) ->
  Forall (fun i => 1 <= quantity i) (cart (cart_run xs m)).
Proof.
  intros Hxs; revert m.
  induction Hxs as [|x xs Hx Hxs IH]; intros m Hm; simpl; [exact Hm|].
  apply IH, cart_exec_positive; assumption.
Qed.

(** ** Pages *)

Lemma firstn_past_length {A : Type} (n k : nat) (l : list A) :
  (Nat.min n (List.length l) <= k <= n)%nat -> firstn k l = firstn n l.
Proof.
  revert n k; induction l as [|x l IH]; intros n k H; simpl in *.
  - now rewrite !firstn_nil.
  - destruct n as [|n]; destruct k as [|k]; simpl in *; try lia; auto.
    f_equal. apply IH. lia.
Qed.

Lemma slice_page {A : Type} (start n : Z) (l : list A) :
  0 <= start -> 0 <= n ->
  slice start (start + n) l
  = firstn (Z.to_nat n) (skipn (Z.to_nat start) l).
Proof.
  intros Hs Hn. unfold slice.
  destruct (start <? 0) eqn:E1; [apply Z.ltb_lt in E1; lia|].
  destruct (start + n <? 0) eqn:E2; [apply Z.ltb_lt in E2; lia|].
  destruct (Z_le_gt_dec start (Z.of_nat (List.length l))) as [Hle|Hgt].
  - rewrite (Z.min_l start) by lia.
    apply firstn_past_length. rewrite length_skipn. lia.
  - rewrite (Z.min_r start) by lia. rewrite Nat2Z.id, skipn_all.
    rewrite skipn_all2 by lia. now rewrite !firstn_nil.
Qed.

Lemma firstn_plus {A : Type} (a b : nat) (l : list A) :
  firstn (a + b) l = firstn a l ++ firstn b (skipn a l).
Proof.
  revert l; induction a as [|a IH]; intros l; simpl; [reflexivity|].
  destruct l as [|x l]; simpl; [now rewrite firstn_nil|].
  now rewrite IH.
Qed.

Lemma concat_pages {A : Type} (n : nat) (l : list A) (t : nat) :
  concat (map (fun p => firstn n (skipn ((p - 1) * n) l)) (seq 1 t))
  = firstn (t * n) l.
Proof.
  induction t as [|t IH]; [reflexivity|].
  rewrite seq_S, map_app, concat_app, IH. simpl.
  rewrite app_nil_r, Nat.sub_0_r.
  rewrite (Nat.add_comm n (t * n)), firstn_plus. reflexivity.
Qed.

Lemma ceiling_covers (len n : Z) : 0 < n -> len <= n * - (- len / n).
Proof.
  intros Hn. pose proof (Z.mul_div_le (- len) n Hn). lia.
Qed.

Lemma ceiling_nonneg (len n : Z) : 0 < n -> 0 <= len -> 0 <= - (- len / n).
Proof.
  intros Hn Hlen.
  assert (- len / n <= 0) by (apply Z.div_le_upper_bound; lia). lia.
Qed.

(** X18. For a positive page size, the pages 1 to [getTotalPages()] cut the
    filtered list into consecutive pieces: put together in order they give
    the list, and no page holds more than [productsPerPage] products.  Page
    0 and every page past the last are empty. *)
Theorem pages_partition (m : manager) :
  0 < productsPerPage m ->
  concat (pages (Z.to_nat (getTotalPages m)) m) = filteredProducts m
  /\ Forall (fun page => Z.of_nat (List.length page) <= productsPerPage m)
       (pages (Z.to_nat (getTotalPages m)) m)
  /\ snd (getPagedProducts 0 m) = []
  /\ forall p, getTotalPages m < p -> snd (getPagedProducts p m) = [].
Proof.
  intros Hn. set (n := productsPerPage m) in *.
  set (l := filteredProducts m).
  assert (Hpage : forall p, 1 <= p ->
            snd (getPagedProducts p m)
            = firstn (Z.to_nat n) (skipn (Z.to_nat ((p - 1) * n)) l)).
  { intros p Hp. unfold getPagedProducts; simpl. fold n l.
    apply slice_page; nia. }
  assert (Hpages : forall t,
            pages t m
            = map (fun p => firstn (Z.to_nat n)
                              (skipn ((p - 1) * Z.to_nat n) l)) (seq 1 t)).
  { intros t. unfold pages. apply map_ext_in. intros p Hp.
    apply in_seq in Hp. rewrite Hpage by lia. do 2 f_equal. nia. }
  assert (HT : getTotalPages m = - (- Z.of_nat (List.length l) / n))
    by reflexivity.
  pose proof (ceiling_covers (Z.of_nat (List.length l)) n Hn) as Hcover.
  pose proof (ceiling_nonneg (Z.of_nat (List.length l)) n Hn
                ltac:(lia)) as Hpos.
  rewrite <- HT in Hcover, Hpos. clear HT.
  set (t := getTotalPages m) in *.
  split; [|split; [|split]].
  - rewrite Hpages, concat_pages. apply firstn_all2.
    apply Nat2Z.inj_le. rewrite Nat2Z.inj_mul, !Z2Nat.id by lia. lia.
  - rewrite Hpages. apply Forall_forall. intros page Hin.
    apply in_map_iff in Hin as (p & <- & _).
    rewrite length_firstn. lia.
  - unfold getPagedProducts. cbn [snd]. fold n l. unfold slice.
    destruct ((0 - 1) * n <? 0) eqn:E1; [|apply Z.ltb_ge in E1; lia].
    destruct ((0 - 1) * n + n <? 0) eqn:E2; [apply Z.ltb_lt in E2; lia|].
    match goal with
    | |- firstn ?k _ = _ => replace k with 0%nat by lia
    end.
    reflexivity.
  - intros p Hp. rewrite Hpage by lia.
    rewrite skipn_all2; [apply firstn_nil|].
    apply Nat2Z.inj_le. rewrite Z2Nat.id by nia. nia.
Qed.

(** ** Sorting and filtering *)

Lemma insert_sorted_perm {A : Type} (compare : A -> A -> Z) (x : A)
  (l : list A) :
  Permutation (insert_sorted compare x l) (x :: l).
Proof.
  induction l as [|y l IH]; simpl; [reflexivity|].
  destruct (compare x y <=? 0); [reflexivity|].
  rewrite IH. apply perm_swap.
Qed.

Lemma stable_sort_perm {A : Type} (compare : A -> A -> Z) (l : list A) :
  Permutation (stable_sort compare l) l.
Proof.
  induction l as [|x l IH]; simpl; [reflexivity|].
  rewrite insert_sorted_perm. now constructor.
Qed.

Lemma insert_sorted_by_key {A : Type} (key : A -> Z) (x : A) (l : list A) :
  Sorted (fun a b => key a <= key b) l ->
  Sorted (fun a b => key a <= key b)
    (insert_sorted (fun a b => key a - key b) x l).
Proof.
  induction l as [|y l IH]; simpl; intros Hl.
  - repeat constructor.
  - destruct (key x - key y <=? 0) eqn:E.
    + apply Z.leb_le in E. constructor; [exact Hl|]. constructor. lia.
    + apply Z.leb_gt in E. inversion Hl as [|? ? Hl' Hhd]; subst.
      constructor; [auto|].
      destruct l as [|z l]; simpl.
      * constructor. lia.
      * destruct (key x - key z <=? 0); constructor; [lia|].
        inversion Hhd; subst. assumption.
Qed.

Lemma stable_sort_ext {A : Type} (c1 c2 : A -> A -> Z) (l : list A) :
  (forall a b, c1 a b = c2 a b) -> stable_sort c1 l = stable_sort c2 l.
Proof.
  intros Hext. induction l as [|x l IH]; simpl; [reflexivity|].
  rewrite IH. generalize (stable_sort c2 l) as s.
  induction s as [|y s IHs]; simpl; [reflexivity|].
  now rewrite Hext, IHs.
Qed.

Lemma stable_sort_by_key {A : Type} (key : A -> Z) (l : list A) :
  Sorted (fun a b => key a <= key b)
    (stable_sort (fun a b => key a - key b) l).
Proof.
  induction l as [|x l IH]; simpl; [constructor|].
  now apply insert_sorted_by_key.
Qed.

(** X19. [sortProducts] rearranges the filtered list and drops or adds
    nothing; with 'price-low' the prices ascend along the list and with
    'price-high' they descend.  Catalogue and cart are not touched. *)
Theorem sortProducts_by_price
  (localeCompare : string -> string -> Z) (by_ : string) (m : manager) :
  let m' := sortProducts localeCompare by_ m in
  Permutation (filteredProducts m') (filteredProducts m)
  /\ (by_ = "price-low"%string ->
      Sorted (fun a b => price a <= price b) (filteredProducts m'))
  /\ (by_ = "price-high"%string ->
      Sorted (fun a b => price b <= price a) (filteredProducts m'))
  /\ products m' = products m /\ cart m' = cart m /\ sortBy m' = by_.
Proof.
  unfold sortProducts; simpl. split; [apply stable_sort_perm|].
  split; [|split; [|auto]].
  - intros ->.
    rewrite (stable_sort_ext _ (fun a b : product => price a - price b))
      by reflexivity.
    apply (stable_sort_by_key price).
  - intros ->.
    rewrite (stable_sort_ext _
               (fun a b : product => - price a - - price b))
      by (intros a b; unfold comparator; simpl; lia).
    pose proof (stable_sort_by_key (fun p => - price p)
                  (filteredProducts m)) as H.
    induction H as [|a l Hl IH Hhd]; constructor; [exact IH|].
    destruct Hhd; constructor. lia.
Qed.

Lemma insert_among_equals {A : Type} (compare : A -> A -> Z) (x : A)
  (l : list A) :
  (forall y, In y l -> compare x y <= 0) ->
  insert_sorted compare x l = x :: l.
Proof.
  destruct l as [|y l]; simpl; [reflexivity|].
  intros H. specialize (H y (or_introl eq_refl)).
  apply Z.leb_le in H. now rewrite H.
Qed.

Lemma insert_behind_greater {A : Type} (compare : A -> A -> Z) (x : A)
  (front back : list A) :
  (forall y, In y front -> 0 < compare x y) ->
  insert_sorted compare x (front ++ back)
  = front ++ insert_sorted compare x back.
Proof.
  induction front as [|y front IH]; simpl; [reflexivity|].
  intros H. pose proof (H y (or_introl eq_refl)) as Hy.
  apply Z.leb_gt in Hy. rewrite Hy. f_equal. apply IH.
  intros z Hz. apply H. now right.
Qed.

(** X20. With 'featured', the default order, [sortProducts] puts the featured
    products first and keeps the order of the list inside both groups; with
    a key that is none of 'price-low', 'price-high', 'featured' and 'newest'
    it leaves the order as it is. *)
Theorem sortProducts_featured_first
  (localeCompare : string -> string -> Z) (by_ : string) (m : manager) :
  let m' := sortProducts localeCompare by_ m in
  (by_ = "featured"%string ->
   filteredProducts m'
   = filter featured (filteredProducts m)
     ++ filter (fun p => negb (featured p)) (filteredProducts m))
  /\ (by_ <> "price-low"%string -> by_ <> "price-high"%string ->
      by_ <> "featured"%string -> by_ <> "newest"%string ->
      filteredProducts m' = filteredProducts m).
Proof.
  unfold sortProducts; simpl. split.
  - intros ->.
    rewrite (stable_sort_ext _
               (fun a b : product =>
                  (if featured b then 1 else 0)
                  - (if featured a then 1 else 0))) by reflexivity.
    induction (filteredProducts m) as [|x l IH]; simpl; [reflexivity|].
    rewrite IH. destruct (featured x) eqn:Hx; simpl.
    + apply insert_among_equals. intros y _. rewrite Hx.
      destruct (featured y); lia.
    + rewrite insert_behind_greater.
      * f_equal. apply insert_among_equals. intros y Hy.
        apply filter_In in Hy as [_ Hy]. rewrite Hx.
        destruct (featured y); [discriminate | lia].
      * intros y Hy. apply filter_In in Hy as [_ Hy]. rewrite Hx, Hy. lia.
  - intros H1 H2 H3 H4.
    rewrite (stable_sort_ext _ (fun _ _ : product => 0)).
    + induction (filteredProducts m) as [|x l IH]; simpl; [reflexivity|].
      rewrite IH. apply insert_among_equals. intros; lia.
    + intros a b. unfold comparator.
      apply String.eqb_neq in H1, H2, H3, H4.
      now rewrite H1, H2, H3, H4.
Qed.

(** X21. After [filterProducts(filter, mission)] the filtered list holds
    exactly the products of the catalogue whose category is [filter] (or any
    category for 'all') and whose mission is [mission] (or any mission when
    none or the empty string is given), in the order of the current sort
    key. *)
Theorem filterProducts_exact
  (localeCompare : string -> string -> Z) (filter_ : string)
  (mi : option string) (m : manager) (p : product) :
  let m' := filterProducts localeCompare filter_ mi m in
  (In p (filteredProducts m') <->
   In p (products m)
   /\ (filter_ = "all"%string \/ category p = filter_)
   /\ (mi = None \/ mi = Some EmptyString \/ mi = Some (mission p)))
  /\ currentFilter m' = filter_ /\ sortBy m' = sortBy m
  /\ products m' = products m.
Proof.
  unfold filterProducts, sortProducts; simpl.
  split; [|repeat split;
           destruct (String.eqb filter_ "all" && no_mission mi);
           reflexivity].
  assert (Hmi : forall q : product,
             no_mission mi
             || match mi with
                | Some s => String.eqb (mission q) s
                | None => false
                end = true
             <-> mi = None \/ mi = Some EmptyString \/ mi = Some (mission q)).
  { intros q. destruct mi as [s|]; simpl; [|tauto].
    rewrite orb_true_iff, !String.eqb_eq. split.
    - intros [->| <-]; auto.
    - intros [H|[[= ->]|[= ->]]]; [discriminate | auto | auto]. }
  assert (Hcat : forall q : product,
             String.eqb filter_ "all" || String.eqb (category q) filter_
             = true
             <-> filter_ = "all"%string \/ category q = filter_).
  { intros q. now rewrite orb_true_iff, !String.eqb_eq. }
  destruct (String.eqb filter_ "all" && no_mission mi) eqn:E; simpl.
  - split.
    + intros Hin. apply (Permutation_in _ (stable_sort_perm _ _)) in Hin.
      split; [exact Hin|]. apply andb_prop in E as [E1 E2].
      split; [apply Hcat; now rewrite E1|].
      apply (Hmi p). now rewrite E2.
    + intros [Hin _].
      apply (Permutation_in _ (Permutation_sym (stable_sort_perm _ _))).
      exact Hin.
  - split.
    + intros Hin. apply (Permutation_in _ (stable_sort_perm _ _)) in Hin.
      apply filter_In in Hin as [Hin Hp]. apply andb_prop in Hp as [H1 H2].
      split; [exact Hin|]. split; [now apply Hcat | now apply Hmi].
    + intros (Hin & H1 & H2).
      apply (Permutation_in _ (Permutation_sym (stable_sort_perm _ _))).
      apply filter_In. split; [exact Hin|].
      apply andb_true_intro. split; [now apply Hcat | now apply Hmi].
Qed.

(** ** Favorites *)

Lemma set_has_app (x : string) (l1 l2 : list string) :
  set_has x (l1 ++ l2) = set_has x l1 || set_has x l2.
Proof. unfold set_has. apply existsb_app. Qed.

Lemma set_has_delete (x y : string) (l : list string) :
  set_has x (set_delete y l) = set_has x l && negb (String.eqb y x).
Proof.
  unfold set_has, set_delete. induction l as [|z l IH]; simpl; [reflexivity|].
  destruct (String.eqb y z) eqn:Eyz; simpl.
  - rewrite IH. apply String.eqb_eq in Eyz; subst z.
    rewrite (String.eqb_sym x y).
    destruct (String.eqb y x); simpl; [|reflexivity].
    now rewrite andb_false_r.
  - rewrite IH. destruct (String.eqb x z) eqn:Exz; simpl; [|reflexivity].
    apply String.eqb_eq in Exz; subst z. now rewrite Eyz.
Qed.

(** X22. [toggleFavorite] flips the membership of its product in the set of
    favorites and of no other product, so that toggling twice gives the set
    back; the set never holds a product twice. *)
Theorem toggleFavorite_flips (pid : string) (m : manager) :
  let m' := toggleFavorite pid m in
  set_has pid (favorites m') = negb (set_has pid (favorites m))
  /\ (forall x, String.eqb pid x = false ->
                set_has x (favorites m') = set_has x (favorites m))
  /\ (NoDup (favorites m) -> NoDup (favorites m'))
  /\ (forall x, set_has x (favorites (toggleFavorite pid m'))
                = set_has x (favorites m)).
Proof.
  assert (Hflip : forall l x,
             set_has x (if set_has pid l then set_delete pid l
                        else set_add pid l)
             = if String.eqb pid x then negb (set_has pid l)
               else set_has x l).
  { intros l x. destruct (set_has pid l) eqn:Hhas.
    - rewrite set_has_delete.
      destruct (String.eqb pid x) eqn:E; simpl.
      + now rewrite andb_false_r.
      + now rewrite andb_true_r.
    - unfold set_add. rewrite Hhas, set_has_app. simpl.
      rewrite (String.eqb_sym x pid).
      destruct (String.eqb pid x) eqn:E; simpl.
      + now rewrite orb_true_r.
      + now rewrite !orb_false_r. }
  assert (Hfav : forall m0,
             favorites (toggleFavorite pid m0)
             = if set_has pid (favorites m0)
               then set_delete pid (favorites m0)
               else set_add pid (favorites m0)).
  { intros m0. unfold toggleFavorite.
    destruct (set_has pid (favorites m0)); reflexivity. }
  cbv zeta. rewrite !Hfav. split; [|split; [|split]].
  - rewrite Hflip, String.eqb_refl. reflexivity.
  - intros x Hx. now rewrite Hflip, Hx.
  - intros Hnd. destruct (set_has pid (favorites m)) eqn:Hhas.
    + unfold set_delete. now apply NoDup_filter.
    + unfold set_add. rewrite Hhas.
      apply NoDup_app; [exact Hnd | repeat constructor; auto |].
      intros a Ha [Heq|[]]. subst a. unfold set_has in Hhas.
      assert (existsb (String.eqb pid) (favorites m) = true).
      { apply existsb_exists. exists pid. split; [exact Ha|].
        apply String.eqb_refl. }
      congruence.
  - intros x. rewrite !Hflip.
    destruct (String.eqb pid x) eqn:E; [|reflexivity].
    apply String.eqb_eq in E; subst x.
    rewrite String.eqb_refl. apply negb_involutive.
Qed.

(** ** Observers *)

Lemma notify_all_trace (event : string) (obs : list observer)
  (tr : list (nat * string)) :
  notify_all event obs tr
  = rev (map (fun o => (obs_id o, event)) obs) ++ tr.
Proof.
  revert tr; induction obs as [|o obs IH]; intros tr; simpl; [reflexivity|].
  destruct (obs_run o event); rewrite IH, <- app_assoc; reflexivity.
Qed.

(** [notifyObservers] calls every subscribed observer exactly once, in
    the order of subscription, whether or not observers before it throw, and
    leaves the list of observers as it is. *)
Theorem notifyObservers_reaches_everyone (event : string) (m : manager) :
  let m' := notifyObservers event m in
  notified m'
  = rev (map (fun o => (obs_id o, event)) (productObservers m)) ++ notified m
  /\ productObservers m' = productObservers m /\ cart m' = cart m.
Proof.
  unfold notifyObservers; simpl. rewrite notify_all_trace. auto.
Qed.

Lemma remove_first_observer_others (o : observer) (l : list observer) :
  filter (fun x => negb (Nat.eqb (obs_id x) (obs_id o)))
    (remove_first_observer o l)
  = filter (fun x => negb (Nat.eqb (obs_id x) (obs_id o))) l.
Proof.
  induction l as [|x l IH]; simpl; [reflexivity|].
  destruct (Nat.eqb (obs_id x) (obs_id o)) eqn:E; simpl; [reflexivity|].
  now rewrite E, IH.
Qed.

Lemma remove_first_observer_first (o x : observer) (l1 l2 : list observer) :
  obs_id x = obs_id o ->
  (forall y, In y l1 -> obs_id y <> obs_id o) ->
  remove_first_observer o (l1 ++ x :: l2) = l1 ++ l2.
Proof.
  intros Hx Hl1. induction l1 as [|y l1 IH]; cbn [app remove_first_observer].
  - rewrite Hx, Nat.eqb_refl. reflexivity.
  - assert (E : Nat.eqb (obs_id y) (obs_id o) = false)
      by (apply Nat.eqb_neq, Hl1; now left).
    rewrite E, IH; [reflexivity|].
    intros z Hz. apply Hl1. now right.
Qed.

(** X23. The function that [subscribe] returns removes exactly one entry, the
    first occurrence of its observer in the list as it is by then ([indexOf]
    and [splice]): the entries before and behind it, later occurrences of the
    same observer included, keep their places.  No other observer is ever
    removed.  If the observer is not in the list, nothing changes; if it was
    not subscribed before, subscribing and unsubscribing gives the list
    back, and after subscribing twice one entry is left. *)
Theorem unsubscribe_removes_own_observer (o : observer) (m : manager) :
  (forall l1 x l2,
      productObservers m = l1 ++ x :: l2 ->
      obs_id x = obs_id o ->
      (forall y, In y l1 -> obs_id y <> obs_id o) ->
      productObservers (unsubscribe o m) = l1 ++ l2)
  /\ filter (fun x => negb (Nat.eqb (obs_id x) (obs_id o)))
       (productObservers (unsubscribe o m))
     = filter (fun x => negb (Nat.eqb (obs_id x) (obs_id o)))
         (productObservers m)
  /\ ((forall x, In x (productObservers m) -> obs_id x <> obs_id o) ->
      productObservers (unsubscribe o (subscribe o m)) = productObservers m
      /\ productObservers (unsubscribe o m) = productObservers m)
  /\ ((forall x, In x (productObservers m) -> obs_id x <> obs_id o) ->
      productObservers (unsubscribe o (subscribe o (subscribe o m)))
      = productObservers m ++ [o]).
Proof.
  unfold unsubscribe, subscribe; simpl.
  split.
  { intros l1 x l2 Hm Hx Hl1. rewrite Hm.
    now apply remove_first_observer_first. }
  split; [apply remove_first_observer_others|].
  split;
    [|intros Hnew; rewrite <- app_assoc;
      now apply remove_first_observer_first].
  intros Hnew.
  induction (productObservers m) as [|x l IH]; simpl.
  - now rewrite Nat.eqb_refl.
  - assert (E : Nat.eqb (obs_id x) (obs_id o) = false)
      by (apply Nat.eqb_neq, Hnew; now left).
    rewrite E.
    destruct IH as [IH1 IH2]; [intros y Hy; apply Hnew; now right|].
    now rewrite IH1, IH2.
Qed.

(** ** Instances *)

Lemma remove_after_add_witness :
  (exists p, getProductById "mars-rover-hoodie" store = Some p)
  /\ (let m' :=
        fst (removeFromCart "mars-rover-hoodie" (Some "M"%string)
               (fst (addToCart "mars-rover-hoodie" 2 (Some "M"%string)
                       store))) in
      cart m' = remove_line "mars-rover-hoodie" (Some "M"%string) (cart store)
      /\ (find (same_line "mars-rover-hoodie" (Some "M"%string)) (cart store)
          = None ->
          cart m' = cart store)).
Proof.
  split; [eexists; reflexivity|].
  eapply (remove_after_add "mars-rover-hoodie" 2 (Some "M"%string) store).
  reflexivity.
Defined.

Lemma cart_lines_stay_distinct_witness :
  distinct_lines (cart store)
  /\ distinct_lines (cart (cart_run cart_session store)).
Proof.
  split; [exact I|].
  exact (cart_lines_stay_distinct cart_session store I).
Defined.

Lemma cart_quantities_stay_positive_witness :
  Forall adds_pieces cart_session
  /\ Forall (fun i => 1 <= quantity i) (cart (cart_run cart_session store)).
Proof.
  assert (H : Forall adds_pieces cart_session).
  { unfold cart_session. repeat constructor; cbn; lia. }
  split; [exact H|].
  exact (cart_quantities_stay_positive cart_session store H (Forall_nil _)).
Defined.

Lemma pages_partition_witness :
  0 < productsPerPage store
  /\ concat (pages (Z.to_nat (getTotalPages store)) store)
     = filteredProducts store
  /\ Forall (fun page => Z.of_nat (List.length page) <= productsPerPage store)
       (pages (Z.to_nat (getTotalPages store)) store)
  /\ snd (getPagedProducts 0 store) = []
  /\ (forall p, getTotalPages store < p ->
                snd (getPagedProducts p store) = []).
Proof.
  split; [reflexivity|].
  exact (pages_partition store eq_refl).
Defined.


Lemma addToCart_count_and_total_witness :
  let m' := fst (addToCart "mars-rover-hoodie" 2 (Some "M"%string) store) in
  getCartCount store = Some 0 /\ calculateCartTotal store = Some 0
  /\ getCartCount m' = Some 2 /\ calculateCartTotal m' = Some 3798.
Proof.
  intros m'. split; [reflexivity|]. split; [reflexivity|].
  pose proof (addToCart_count_and_total "mars-rover-hoodie" 2
                (Some "M"%string) store) as H.
  hnf in H. destruct H as [_ H].
  apply (H 0 0).
  - lia.
  - vm_compute. split; discriminate.
  - constructor.
  - reflexivity.
  - reflexivity.
  - vm_compute. discriminate.
  - vm_compute. discriminate.
Defined.

Lemma updateCartQuantity_sets_or_removes_witness :
  let m := fst (addToCart "mars-rover-hoodie" 2 (Some "M"%string) store) in
  let m' :=
    fst (updateCartQuantity "mars-rover-hoodie" 5 (Some "M"%string) m) in
  getCartCount m = Some 2 /\ getCartCount m' = Some 5.
Proof.
  intros m m'. split; [reflexivity|].
  pose proof (updateCartQuantity_sets_or_removes "mars-rover-hoodie" 5
                (Some "M"%string) m) as H.
  hnf in H. destruct H as (_ & _ & H).
  destruct (H eq_refl) as [_ H'].
  apply (H' 2).
  - repeat constructor. vm_compute. discriminate.
  - reflexivity.
  - vm_compute. discriminate.
Defined.


End ProductManagerFacts.


(** * Properties of the mission control *)
Module MissionControlFacts.
Import MissionControl.

Lemma firstn_app_firstn (A : Type) (n : nat) (l1 l2 : list A) :
  firstn n (l1 ++ firstn n l2) = firstn n (l1 ++ l2).
Proof.
  rewrite !firstn_app, firstn_firstn.
  f_equal. f_equal. lia.
Qed.

Lemma feed_exec_feed (x : feed_call) (c : control) :
  (List.length (liveFeed c) <= 50)%nat ->
  liveFeed (fst (feed_exec x c)) = firstn 50 (made x :: liveFeed c).
Proof.
  intros Hlen. unfold feed_exec, addLiveFeedUpdate.
  cbn [fst liveFeed]. fold (made x).
  destruct (50 <? Z.of_nat (List.length (made x :: liveFeed c)))%Z eqn:Hc.
  - apply Z.ltb_lt in Hc. cbn [List.length] in Hc.
    rewrite removelast_firstn_len. cbn [List.length Nat.pred].
    replace (List.length (liveFeed c)) with 50%nat by lia. reflexivity.
  - apply Z.ltb_ge in Hc. cbn [List.length] in Hc.
    symmetry. apply firstn_all2. cbn [List.length]. lia.
Qed.

Lemma feed_run_feed (xs : list feed_call) (c : control) :
  (List.length (liveFeed c) <= 50)%nat ->
  liveFeed (feed_run xs c) = firstn 50 (rev (map made xs) ++ liveFeed c).
Proof.
  revert c. induction xs as [|x xs IH]; intros c Hlen.
  - cbn [feed_run map rev app]. symmetry. now apply firstn_all2.
  - cbn [feed_run map rev]. rewrite IH.
    + rewrite (feed_exec_feed x c Hlen), firstn_app_firstn.
      now rewrite <- app_assoc.
    + rewrite (feed_exec_feed x c Hlen). apply firstn_le_length.
Qed.

(** X24. The live feed holds the 50 newest entries, newest first: after any
    sequence of [addLiveFeedUpdate] calls on a new mission control the feed
    is the first 50 of the entries made, in reverse order of the calls; so
    it never has more than 50 entries, and each call returns the entry that
    is then at the front. *)
Theorem liveFeed_keeps_newest_50 (xs : list feed_call) :
  liveFeed (feed_run xs new_control) = firstn 50 (rev (map made xs))
  /\ (List.length (liveFeed (feed_run xs new_control)) <= 50)%nat
  /\ forall x,
       snd (feed_exec x (feed_run xs new_control)) = made x
       /\ hd_error (liveFeed (fst (feed_exec x (feed_run xs new_control))))
          = Some (made x).
Proof.
  assert (H : liveFeed (feed_run xs new_control)
              = firstn 50 (rev (map made xs))).
  { rewrite feed_run_feed by (cbn; lia). now rewrite app_nil_r. }
  split; [exact H|]. split.
  - rewrite H. apply firstn_le_length.
  - intros x. split; [reflexivity|].
    rewrite feed_exec_feed; [reflexivity|].
    rewrite H. apply firstn_le_length.
Qed.

Lemma clamp_percentage (x : Q) : 0 <= Qmax 0 (Qmin 100 x) <= 100.
Proof.
  split.
  - apply Q.le_max_l.
  - apply Q.max_lub; [discriminate|apply Q.le_min_l].
Qed.

Lemma key_eqb_eq (a b : mission_key) : key_eqb a b = true <-> a = b.
Proof. destruct a, b; cbn; split; congruence. Qed.

Lemma updateMissionProgress_invariant (r : Q) (k : mission_key) (c : control) :
  timers_invariant c -> timers_invariant (updateMissionProgress r k c).
Proof.
  intros Hc k'. unfold updateMissionProgress.
  destruct (String.eqb (status (missionData c k)) "active"
            || String.eqb (status (missionData c k)) "development") eqn:Ha;
    [|apply Hc].
  cbn [missionData]. destruct (key_eqb k' k) eqn:Hk; [|apply Hc].
  apply key_eqb_eq in Hk. subst k'.
  destruct (Hc k) as (_ & Hs & Hn & _).
  cbn [progress status name]. split; [apply clamp_percentage|].
  split; [exact Hs|]. split; [exact Hn|].
  intros Hk. rewrite Hs in Ha.
  destruct Hk; subst k; discriminate.
Qed.

Lemma timers_run_invariant (ticks : list (mission_key * Q)) (c : control) :
  timers_invariant c -> timers_invariant (timers_run ticks c).
Proof.
  revert c. induction ticks as [|[k r] ticks IH]; intros c Hc; [exact Hc|].
  cbn [timers_run]. apply IH. now apply updateMissionProgress_invariant.
Qed.

Lemma new_control_invariant : timers_invariant new_control.
Proof.
  intros k. cbn [new_control missionData].
  split; [destruct k; cbn; split; discriminate|]. auto.
Qed.

(** X25. Whatever the timers do, and whatever [Math.random] returns, the
    progress of every mission stays between 0 and 100, no mission changes its
    status, and the missions that are neither active nor in development
    (mars and iss) keep the data of the constructor. *)
Theorem mission_progress_stays_percentage (ticks : list (mission_key * Q))
  (k : mission_key) :
  let c := timers_run ticks new_control in
  0 <= progress (missionData c k) <= 100
  /\ status (missionData c k) = status (initial_data k)
  /\ missionData c mars = initial_data mars
  /\ missionData c iss = initial_data iss.
Proof.
  intros c.
  pose proof (timers_run_invariant ticks _ new_control_invariant) as H.
  fold c in H.
  destruct (H k) as (Hp & Hs & _ & _).
  destruct (H mars) as (_ & _ & _ & Hm).
  destruct (H iss) as (_ & _ & _ & Hi).
  auto 6.
Qed.

(** X26. One tick of a mission's timer moves its progress by at most 0.15 down
    and 0.35 up, and leaves every other mission as it is: for a mission
    control reached by timer ticks and a random number in [0, 1). *)
Theorem mission_progress_step_bounded (ticks : list (mission_key * Q))
  (r : Q) (k : mission_key) :
  random_number r ->
  let c := timers_run ticks new_control in
  let c' := updateMissionProgress r k c in
  progress (missionData c k) - 0.15 <= progress (missionData c' k)
  /\ progress (missionData c' k) <= progress (missionData c k) + 0.35
  /\ forall k', k' <> k -> missionData c' k' = missionData c k'.
Proof.
  intros [Hr0 Hr1] c c'.
  pose proof (timers_run_invariant ticks _ new_control_invariant k) as H.
  fold c in H. destruct H as ([Hp0 Hp1] & _).
  subst c'. unfold updateMissionProgress.
  destruct (String.eqb (status (missionData c k)) "active"
            || String.eqb (status (missionData c k)) "development").
  - cbn [missionData].
    replace (key_eqb k k) with true by (now destruct k).
    cbn [progress].
    set (p := progress (missionData c k)) in *.
    split; [|split].
    + apply Qle_trans with (Qmin 100 (p + (r - 0.3) * 0.5));
        [|apply Q.le_max_r].
      apply Q.min_glb; lra.
    + apply Q.max_lub; [lra|].
      apply Qle_trans with (p + (r - 0.3) * 0.5);
        [apply Q.le_min_r|lra].
    + intros k' Hk.
      destruct (key_eqb k' k) eqn:E; [|reflexivity].
      apply key_eqb_eq in E. contradiction.
  - split; [lra|]. split; [lra|]. reflexivity.
Qed.

Lemma mission_progress_step_bounded_witness :
  let c := timers_run [(artemis, 1 # 2)] new_control in
  let c' := updateMissionProgress (9 # 10) artemis c in
  progress (missionData c artemis) - 0.15 <= progress (missionData c' artemis)
  /\ progress (missionData c' artemis)
     <= progress (missionData c artemis) + 0.35
  /\ forall k', k' <> artemis -> missionData c' k' = missionData c k'.
Proof.
  apply (mission_progress_step_bounded [(artemis, 1 # 2)] (9 # 10) artemis).
  split; [discriminate|reflexivity].
Defined.

End MissionControlFacts.


(** * Properties of the performance monitor *)
Module PerformanceMonitorFacts.
Import PerformanceMonitor.

Lemma classList_add_incl (cls : string) (l : list string) :
  incl l (classList_add cls l).
Proof.
  unfold classList_add. destruct (existsb (String.eqb cls) l).
  - apply incl_refl.
  - apply incl_appl, incl_refl.
Qed.

Lemma classList_add_In (cls : string) (l : list string) :
  In cls (classList_add cls l).
Proof.
  unfold classList_add. destruct (existsb (String.eqb cls) l) eqn:E.
  - apply existsb_exists in E. destruct E as (x & Hx & Heq).
    apply String.eqb_eq in Heq. now subst x.
  - apply in_or_app. right. now left.
Qed.

Lemma add_all_incl (opts : list string) (l : list string) :
  incl l (fold_left (fun acc opt => classList_add ("perf-" ++ opt) acc) opts l).
Proof.
  revert l. induction opts as [|o opts IH]; intros l; cbn [fold_left].
  - apply incl_refl.
  - eapply incl_tran; [apply classList_add_incl|apply IH].
Qed.

Lemma add_all_In (opts : list string) (l : list string) :
  incl (map (fun opt => "perf-" ++ opt)%string opts)
    (fold_left (fun acc opt => classList_add ("perf-" ++ opt) acc) opts l).
Proof.
  revert l. induction opts as [|o opts IH]; intros l; cbn [fold_left map].
  - intros x [].
  - intros x [Hx|Hx].
    + subst x. apply add_all_incl, classList_add_In.
    + now apply IH.
Qed.

Lemma log_length (msg : string) (m : monitor) :
  (List.length (performanceLog m) <= 100)%nat ->
  (List.length (performanceLog (logPerformanceEvent msg m)) <= 100)%nat.
Proof.
  intros H. unfold logPerformanceEvent. cbn [performanceLog].
  destruct (100 <? _)%Z eqn:E.
  - destruct (performanceLog m ++ _) eqn:El; cbn [tl List.length]; [lia|].
    apply (f_equal (@List.length _)) in El.
    rewrite length_app in El. cbn [List.length] in El. lia.
  - apply Z.ltb_ge in E. lia.
Qed.

(** What [triggerOptimization] does to a monitor. *)
Lemma triggerOptimization_effect (l : level) (m : monitor) :
  let m' := triggerOptimization l m in
  fps m' = fps m /\ frameCount m' = frameCount m
  /\ frameTimes m' = frameTimes m /\ isMonitoring m' = isMonitoring m
  /\ lastTime m' = lastTime m
  /\ incl (classes m) (classes m')
  /\ incl (perf_classes l) (classes m')
  /\ ((List.length (performanceLog m) <= 100)%nat ->
      (List.length (performanceLog m') <= 100)%nat).
Proof.
  cbn zeta. unfold triggerOptimization.
  repeat (split; [reflexivity|]).
  split; [apply add_all_incl|]. split; [apply add_all_In|].
  intros H. now apply log_length.
Qed.

Lemma checkPerformanceThresholds_effect (v : fps_value) (m : monitor) :
  let m' := checkPerformanceThresholds v m in
  fps m' = fps m /\ frameCount m' = frameCount m
  /\ frameTimes m' = frameTimes m /\ isMonitoring m' = isMonitoring m
  /\ lastTime m' = lastTime m
  /\ incl (classes m) (classes m')
  /\ (fps_below v 55 = true -> incl (perf_classes medium) (classes m'))
  /\ (fps_below v 30 = true -> incl (perf_classes high) (classes m'))
  /\ (fps_below v 55 = false -> m' = m)
  /\ ((List.length (performanceLog m) <= 100)%nat ->
      (List.length (performanceLog m') <= 100)%nat).
Proof.
  cbn zeta. unfold checkPerformanceThresholds.
  destruct (fps_below v 55) eqn:E55.
  - pose proof (triggerOptimization_effect medium m) as Hm. cbn zeta in Hm.
    destruct Hm as (H1 & H2 & H3 & H4 & H5 & H6 & H7 & H8).
    destruct (fps_below v 30) eqn:E30.
    + pose proof (triggerOptimization_effect high
                    (triggerOptimization medium m)) as Hh.
      cbn zeta in Hh.
      destruct Hh as (G1 & G2 & G3 & G4 & G5 & G6 & G7 & G8).
      split; [congruence|]. split; [congruence|]. split; [congruence|].
      split; [congruence|]. split; [congruence|].
      split; [eapply incl_tran; eassumption|].
      split; [intros _; eapply incl_tran; eassumption|].
      split; [intros _; exact G7|].
      split; [discriminate|]. auto.
    + repeat (split; [assumption|]).
      split; [intros _; exact H7|].
      split; [discriminate|]. split; [discriminate|]. exact H8.
  - assert (E30 : fps_below v 30 = false).
    { destruct v as [n|]; [|reflexivity]. cbn in *.
      apply Z.ltb_ge in E55. apply Z.ltb_ge. lia. }
    repeat (split; [reflexivity|]).
    split; [apply incl_refl|].
    split; [discriminate|]. split; [congruence|]. auto.
Qed.

Lemma monitorFrame_bounds (now : Q) (m : monitor) :
  isMonitoring m = true ->
  (List.length (frameTimes m) <= 120)%nat ->
  (List.length (performanceLog m) <= 100)%nat ->
  let m' := monitorFrame now m in
  isMonitoring m' = true
  /\ (List.length (frameTimes m') <= 120)%nat
  /\ (List.length (performanceLog m') <= 100)%nat
  /\ frameCount m' = (frameCount m + 1)%Z
  /\ lastTime m' = now
  /\ incl (classes m) (classes m').
Proof.
  intros Hm Ht Hl. cbn zeta. unfold monitorFrame. rewrite Hm. cbn [negb].
  match goal with
  | |- context [checkPerformanceThresholds ?v ?x] =>
      pose proof (checkPerformanceThresholds_effect v x) as H; cbn zeta in H;
      set (m1 := checkPerformanceThresholds v x) in *
  end.
  destruct H as (H1 & H2 & H3 & H4 & H5 & H6 & _ & _ & _ & H10).
  cbn [isMonitoring frameTimes performanceLog frameCount lastTime classes]
    in *.
  split; [congruence|]. split.
  - rewrite H3.
    destruct (120 <? _)%Z eqn:E.
    + destruct (frameTimes m ++ _) eqn:El; cbn [tl List.length]; [lia|].
      apply (f_equal (@List.length _)) in El.
      rewrite length_app in El. cbn [List.length] in El. lia.
    + apply Z.ltb_ge in E. lia.
  - split; [now apply H10|]. split; [exact H2|]. split; [reflexivity|].
    exact H6.
Qed.

Lemma frames_run_bounds (times : list Q) (m : monitor) :
  isMonitoring m = true ->
  (List.length (frameTimes m) <= 120)%nat ->
  (List.length (performanceLog m) <= 100)%nat ->
  let m' := frames_run times m in
  isMonitoring m' = true
  /\ (List.length (frameTimes m') <= 120)%nat
  /\ (List.length (performanceLog m') <= 100)%nat
  /\ frameCount m' = (frameCount m + Z.of_nat (List.length times))%Z
  /\ incl (classes m) (classes m').
Proof.
  revert m. induction times as [|now times IH]; intros m Hm Ht Hl; cbn zeta.
  - cbn [frames_run List.length]. rewrite Z.add_0_r.
    repeat (split; [assumption|]). split; [reflexivity|apply incl_refl].
  - cbn [frames_run].
    pose proof (monitorFrame_bounds now m Hm Ht Hl) as H. cbn zeta in H.
    destruct H as (H1 & H2 & H3 & H4 & _ & H6).
    specialize (IH _ H1 H2 H3). cbn zeta in IH.
    destruct IH as (G1 & G2 & G3 & G4 & G5).
    repeat (split; [assumption|]). split.
    + rewrite G4, H4. cbn [List.length]. lia.
    + eapply incl_tran; eassumption.
Qed.

(** X27. The buffers of the monitor are bounded and its classes only
    accumulate: after [startMonitoring] and any number of further frames, at
    any times, [frameTimes] has at most 120 entries and [performanceLog] at
    most 100, [frameCount] is the number of frames, and every class the page
    had (or an earlier frame set) is still set: a frame rate that recovers
    removes no optimisation. *)
Theorem monitor_buffers_bounded (t0 now : Q) (cls : list string)
  (times : list Q) :
  let m := frames_run times (startMonitoring now (new_monitor t0 cls)) in
  (List.length (frameTimes m) <= 120)%nat
  /\ (List.length (performanceLog m) <= 100)%nat
  /\ frameCount m = (1 + Z.of_nat (List.length times))%Z
  /\ incl cls (classes m).
Proof.
  cbn zeta. unfold startMonitoring.
  set (m0 := mkMonitor _ _ _ _ true [] _).
  assert (Hm : isMonitoring m0 = true) by reflexivity.
  assert (Ht : (List.length (frameTimes m0) <= 120)%nat) by (cbn; lia).
  assert (Hl : (List.length (performanceLog m0) <= 100)%nat) by (cbn; lia).
  pose proof (monitorFrame_bounds now m0 Hm Ht Hl) as H. cbn zeta in H.
  destruct H as (H1 & H2 & H3 & H4 & _ & H6).
  pose proof (frames_run_bounds times _ H1 H2 H3) as G. cbn zeta in G.
  destruct G as (_ & G2 & G3 & G4 & G5).
  split; [exact G2|]. split; [exact G3|]. split.
  - rewrite G4, H4. reflexivity.
  - eapply incl_tran; [exact H6|exact G5].
Qed.

(** X28. What a monitored frame does with the frame rate it computes: below
    55 the three classes of level medium are set, below 30 those of level
    high as well (never high without medium), and at 55 or more, or with an
    infinite rate, neither the classes nor the log change. *)
Theorem low_fps_sets_classes (now : Q) (m : monitor) :
  isMonitoring m = true ->
  let m' := monitorFrame now m in
  (fps_below (fps m') 55 = true ->
   incl (perf_classes medium) (classes m'))
  /\ (fps_below (fps m') 30 = true ->
      incl (perf_classes medium ++ perf_classes high) (classes m'))
  /\ (fps_below (fps m') 55 = false ->
      classes m' = classes m /\ performanceLog m' = performanceLog m).
Proof.
  intros Hm. cbn zeta. unfold monitorFrame. rewrite Hm. cbn [negb].
  match goal with
  | |- context [checkPerformanceThresholds ?v ?x] =>
      pose proof (checkPerformanceThresholds_effect v x) as H; cbn zeta in H;
      set (m1 := checkPerformanceThresholds v x) in *
  end.
  destruct H as (H1 & _ & _ & _ & _ & _ & H7 & H8 & H9 & _).
  cbn [fps classes performanceLog] in *. rewrite H1.
  split; [exact H7|]. split.
  - intros E30. apply incl_app; [|now apply H8].
    apply H7. destruct (if Qeq_bool _ 0 then _ else _) as [n|]; [|discriminate].
    cbn in *. apply Z.ltb_lt in E30. apply Z.ltb_lt. lia.
  - intros E. rewrite (H9 E). split; reflexivity.
Qed.

Lemma low_fps_sets_classes_witness :
  (fps_below (fps (monitorFrame 100 slow_monitor)) 55 = true ->
   incl (perf_classes medium) (classes (monitorFrame 100 slow_monitor)))
  /\ (fps_below (fps (monitorFrame 100 slow_monitor)) 30 = true ->
      incl (perf_classes medium ++ perf_classes high)
        (classes (monitorFrame 100 slow_monitor)))
  /\ (fps_below (fps (monitorFrame 100 slow_monitor)) 55 = false ->
      classes (monitorFrame 100 slow_monitor) = classes slow_monitor
      /\ performanceLog (monitorFrame 100 slow_monitor)
         = performanceLog slow_monitor).
Proof.
  exact (low_fps_sets_classes 100 slow_monitor eq_refl).
Defined.

End PerformanceMonitorFacts.


(** * Properties of the order system *)
Module OrderSystemFacts.
Import OrderSystem.
Local Open Scope string_scope.

Lemma digits_of_app (a b : string) :
  digits_of (a ++ b) = digits_of a ++ digits_of b.
Proof.
  induction a as [|c a IH]; [reflexivity|].
  cbn [append digits_of]. destruct (is_digit c); cbn [append]; now rewrite IH.
Qed.

Lemma length_append (a b : string) :
  String.length (a ++ b) = (String.length a + String.length b)%nat.
Proof.
  induction a as [|c a IH]; [reflexivity|].
  cbn [append String.length]. now rewrite IH.
Qed.

Lemma matches_mobile_length (s : string) :
  matches_mobile s = true -> String.length s = 10%nat.
Proof.
  destruct s as [|c rest]; [discriminate|]. cbn [matches_mobile].
  intros H. apply andb_prop in H. destruct H as [H _].
  apply andb_prop in H. destruct H as [_ H].
  apply Nat.eqb_eq in H. cbn [String.length]. now rewrite H.
Qed.

(** Validation looks at the digits only: a character that is no digit
    (a space, a dash, a bracket, a plus sign), anywhere in the input, does
    not change the verdict of [isValidPhoneNumber]. *)
Theorem isValidPhoneNumber_skips_separators (a b : string) (c : ascii) :
  is_digit c = false ->
  isValidPhoneNumber (a ++ String c b) = isValidPhoneNumber (a ++ b).
Proof.
  intros Hc. unfold isValidPhoneNumber.
  rewrite !digits_of_app. cbn [digits_of]. now rewrite Hc.
Qed.

Lemma isValidPhoneNumber_skips_separators_witness :
  isValidPhoneNumber ("99578" ++ String "-" "11508")
  = isValidPhoneNumber ("99578" ++ "11508").
Proof.
  exact (isValidPhoneNumber_skips_separators "99578" "11508" "-" eq_refl).
Defined.

(** X29. A valid number has exactly ten digits, so a valid number written
    behind anything that holds a digit, a country code such as +91 or a
    leading 0, is rejected. *)
Theorem isValidPhoneNumber_rejects_prefixed (q p : string) :
  isValidPhoneNumber p = true ->
  digits_of q <> EmptyString ->
  String.length (digits_of p) = 10%nat
  /\ isValidPhoneNumber (q ++ p) = false.
Proof.
  unfold isValidPhoneNumber. intros Hp Hq.
  pose proof (matches_mobile_length _ Hp) as Hlen.
  split; [exact Hlen|].
  destruct (matches_mobile (digits_of (q ++ p))) eqn:E; [|reflexivity].
  apply matches_mobile_length in E.
  rewrite digits_of_app, length_append, Hlen in E.
  destruct (digits_of q); [congruence|]. cbn [String.length] in E. lia.
Qed.

Lemma isValidPhoneNumber_rejects_prefixed_witness :
  String.length (digits_of "9957811508") = 10%nat
  /\ isValidPhoneNumber ("+91" ++ "9957811508") = false.
Proof.
  apply (isValidPhoneNumber_rejects_prefixed "+91" "9957811508").
  - reflexivity.
  - discriminate.
Defined.

(** X30. [createOrder] records the order as the current one and appends it to
    the queue and to the history.  Its total is the price times the quantity
    it records exactly when a quantity was given and is not 0 (or the price
    is 0): with no quantity the order records quantity 1 and a total that is
    NaN, with quantity 0 it records quantity 1 and total 0. *)
Theorem createOrder_total_consistent (orderId now delivery : string)
  (p : ProductManager.product) (c : customer) (o : options) (s : system) :
  let s' := fst (createOrder orderId now delivery p c o s) in
  let ord := snd (createOrder orderId now delivery p c o s) in
  (total ord = Some (op_price (product ord) * quantity ord)%Z <->
   exists q, opt_quantity o = Some q
             /\ (q <> 0%Z \/ ProductManager.price p = 0%Z))
  /\ (opt_quantity o = None -> total ord = None /\ quantity ord = 1%Z)
  /\ (opt_quantity o = Some 0%Z ->
      total ord = Some 0%Z /\ quantity ord = 1%Z)
  /\ orderQueue s' = (orderQueue s ++ [ord])%list
  /\ orderHistory s' = (orderHistory s ++ [ord])%list
  /\ currentOrder s' = Some ord.
Proof.
  cbn zeta. unfold createOrder.
  cbn [fst snd total quantity product op_price orderQueue orderHistory
       currentOrder].
  split; [|split; [|split]].
  - destruct (opt_quantity o) as [q|]; split.
    + intros H. exists q. split; [reflexivity|].
      destruct (Z.eqb_spec q 0) as [Hq|Hq]; [|now left].
      right. injection H as H. rewrite Hq in H. lia.
    + intros (q' & Hq' & Hor). injection Hq' as Hq'. subst q'.
      destruct (Z.eqb_spec q 0) as [Hq|Hq]; [|reflexivity].
      destruct Hor as [Hor|Hor]; [contradiction|].
      rewrite Hor, Hq. reflexivity.
    + discriminate.
    + intros (q' & Hq' & _). discriminate.
  - intros ->. split; reflexivity.
  - intros ->. cbn. rewrite Z.mul_0_r. split; reflexivity.
  - repeat split.
Qed.

End OrderSystemFacts.
